(** * AMATERASU survival analysis: a shallow embedding of [survival.py]

    The engine of [survival.py] is embedded function by function:
    [calculate_logrank], [find_optimal_threshold], the Kaplan-Meier loop of
    [generate_survival_plot] and the scan driver [survival].

    Conventions of the embedding.
    - A NumPy array is a [list]; a boolean mask is a [list bool]; the three
      columns of a cohort (durations, events, groups) are three lists, as the
      source passes them.
    - Counts obtained with [sum(mask)] are integers ([Z]); a product of
      counts is a 64-bit product and wraps around ([Np.int64]).
    - A floating-point value is a [num]: an exact rational ([Qc]) or one of the
      IEEE special values +inf, -inf, NaN.  Rounding is not modelled; what is
      modelled is every place where the source leaves the rationals
      (a division by zero, a comparison with NaN).
    - [np.linalg.solve] and [scipy.stats.chi2.sf] are library calls: the
      engine is parameterised by them.  [None] from the solver stands for
      [numpy.linalg.LinAlgError]. *)

From Stdlib Require Import ZArith QArith Qcanon Lia List Permutation.
From stdpp Require Import base tactics option list sets numbers sorting strings.

Local Open Scope Z_scope.

(** ** Floating-point values *)

Module Num.

Inductive num : Type :=
  | Fin (q : Qc)
  | PInf
  | NInf
  | NaN.

#[global] Instance num_eq_dec : EqDecision num.
Proof. solve_decision. Defined.

Definition of_Z (z : Z) : num := Fin (Qc_of_Z z).

Definition zero : num := of_Z 0.
Definition one : num := of_Z 1.

Definition is_nan (x : num) : bool :=
  match x with NaN => true | _ => false end.

Definition is_fin (x : num) : bool :=
  match x with Fin _ => true | _ => false end.

Definition opp (x : num) : num :=
  match x with
  | Fin q => Fin (- q)%Qc
  | PInf => NInf
  | NInf => PInf
  | NaN => NaN
  end.

Definition add (x y : num) : num :=
  match x, y with
  | NaN, _ | _, NaN => NaN
  | Fin a, Fin b => Fin (a + b)%Qc
  | PInf, NInf | NInf, PInf => NaN
  | PInf, _ | _, PInf => PInf
  | NInf, _ | _, NInf => NInf
  end.

Definition sub (x y : num) : num := add x (opp y).

(** Sign of an infinity scaled by a rational: [inf * 0] is NaN. *)
Definition scale_inf (pos : bool) (q : Qc) : num :=
  if bool_decide (q = 0%Qc) then NaN
  else if bool_decide (0 < q)%Qc then (if pos then PInf else NInf)
  else (if pos then NInf else PInf).

Definition mul (x y : num) : num :=
  match x, y with
  | NaN, _ | _, NaN => NaN
  | Fin a, Fin b => Fin (a * b)%Qc
  | PInf, Fin q | Fin q, PInf => scale_inf true q
  | NInf, Fin q | Fin q, NInf => scale_inf false q
  | PInf, PInf | NInf, NInf => PInf
  | PInf, NInf | NInf, PInf => NInf
  end.

(** True division.  [0 / 0] is NaN and [a / 0] is a signed infinity, as for
    NumPy scalars (a warning, no exception). *)
Definition div (x y : num) : num :=
  match x, y with
  | NaN, _ | _, NaN => NaN
  | Fin a, Fin b =>
      if bool_decide (b = 0%Qc) then
        if bool_decide (a = 0%Qc) then NaN
        else if bool_decide (0 < a)%Qc then PInf else NInf
      else Fin (a / b)%Qc
  | Fin _, (PInf | NInf) => Fin 0%Qc
  | PInf, Fin b => if bool_decide (0 ≤ b)%Qc then PInf else NInf
  | NInf, Fin b => if bool_decide (0 ≤ b)%Qc then NInf else PInf
  | (PInf | NInf), (PInf | NInf) => NaN
  end.

(** Comparisons: every comparison with NaN is false. *)
Definition ltb (x y : num) : bool :=
  match x, y with
  | NaN, _ | _, NaN => false
  | Fin a, Fin b => bool_decide (a < b)%Qc
  | NInf, (Fin _ | PInf) => true
  | Fin _, PInf => true
  | _, _ => false
  end.

Definition eqb (x y : num) : bool :=
  match x, y with
  | Fin a, Fin b => bool_decide (a = b)
  | PInf, PInf | NInf, NInf => true
  | _, _ => false
  end.

Definition leb (x y : num) : bool := ltb x y || eqb x y.
Definition gtb (x y : num) : bool := ltb y x.

(** [a / b] for two integers (NumPy's true division of integer scalars). *)
Definition int_div (a b : Z) : num := div (of_Z a) (of_Z b).

End Num.
Export Num.

Declare Scope num_scope.
Delimit Scope num_scope with num.
Bind Scope num_scope with num.
Infix "+" := Num.add : num_scope.
Infix "-" := Num.sub : num_scope.
Infix "*" := Num.mul : num_scope.
Infix "/" := Num.div : num_scope.
Infix "<?" := Num.ltb : num_scope.

(** An integer as a rational, to write cohorts down. *)
Definition qc (z : Z) : Qc := Qc_of_Z z.

(** ** NumPy helpers *)

Module Np.

(** [sum(mask)]: the number of [True] entries. *)
Fixpoint sum (mask : list bool) : Z :=
  match mask with
  | [] => 0
  | b :: m => (if b then 1 else 0) + sum m
  end.

(** The counts in [calculate_logrank] are NumPy [int64] scalars: a product
    of two of them is the product modulo 2^64, as a signed 64-bit integer.
    (An array has fewer than 2^63 entries, so [sum] itself never wraps.) *)
Definition int64 (z : Z) : Z := (z + 2 ^ 63) mod 2 ^ 64 - 2 ^ 63.

(** [a & b] on two masks. *)
Definition mask_and (a b : list bool) : list bool := zip_with andb a b.

(** [arr[mask]]: the entries selected by a mask. *)
Fixpoint select {A} (arr : list A) (mask : list bool) : list A :=
  match arr, mask with
  | x :: arr', b :: mask' =>
      if b then x :: select arr' mask' else select arr' mask'
  | _, _ => []
  end.

(** [np.unique]: the distinct entries in ascending order, here by insertion
    into a strictly ascending list. *)
Section Unique.
Context {A : Type} (lt : A → A → Prop).
Context `{!EqDecision A} `{!RelDecision lt}.

Fixpoint uinsert (x : A) (l : list A) : list A :=
  match l with
  | [] => [x]
  | y :: l' =>
      if decide (x = y) then l
      else if decide (lt x y) then x :: l
      else y :: uinsert x l'
  end.

Definition unique (l : list A) : list A := foldr uinsert [] l.
End Unique.

Definition unique_Qc : list Qc → list Qc := unique Qclt.
Definition unique_Z : list Z → list Z := unique Z.lt.

(** [enumerate(l)]. *)
Definition enumerate {A} (l : list A) : list (nat * A) := imap pair l.

(** [np.zeros(n)] and [np.zeros((n, m))]. *)
Definition zeros (n : nat) : list num := replicate n zero.
Definition zeros2 (n m : nat) : list (list num) := replicate n (zeros m).

(** [v[i] += x] and [M[i, j] += x]. An index out of range raises in Python;
  the loops below only use indices in range, where [alter] and the source
  agree. *)
Definition iadd (i : nat) (x : num) (v : list num) : list num :=
alter (λ a, a + x)%num i v.
Definition iadd2 (i j : nat) (x : num) (M : list (list num)) : list (list num) :=
alter (iadd j x) i M.

(** [np.dot] of two vectors. *)
Definition dot (u v : list num) : num :=
foldl Num.add zero (zip_with Num.mul u v).

End Np.

(** ** The log-rank test: [calculate_logrank] *)

Notation matrix := (list (list num)) (only parsing).

(** The library calls the engine depends on. *)
Notation solver := (list (list num) → list num → option (list num)) (only parsing).
Notation survival_fn := (num → Z → num) (only parsing).

Module LogRank.

(** The masks of one iteration of the loop over [unique_times]. *)
Definition at_risk_mask (durations : list Qc) (t : Qc) : list bool :=
(λ d, bool_decide (t ≤ d)%Qc) <$> durations.

Definition events_at_mask (durations : list Qc) (events : list Z) (t : Qc)
  : list bool :=
Np.mask_and ((λ d, bool_decide (d = t)) <$> durations)
            ((λ e, bool_decide (e = 1)) <$> events).

Definition group_mask (groups : list Z) (group : Z) : list bool :=
(λ g, bool_decide (g = group)) <$> groups.

(** The hypergeometric factor, computed from the integer counts: two
    64-bit products and one true division. *)
Definition variance_factor (n_events n_at_risk : Z) : num :=
int_div (Np.int64 (n_events * (n_at_risk - n_events)))
        (Np.int64 (Np.int64 (n_at_risk * n_at_risk) * (n_at_risk - 1))).

(** Body of [for j, group_j in enumerate(unique_groups)]. *)
Definition loop_j (groups : list Z) (at_risk : list bool)
  (n_at_risk n_group_at_risk : Z) (factor : num) (i : nat)
  (V : matrix) (jg : nat * Z) : matrix :=
let '(j, group_j) := jg in
let mask_j := group_mask groups group_j in
let n_j_at_risk := Np.sum (Np.mask_and at_risk mask_j) in
if decide (i = j) then
  Np.iadd2 i i
    (of_Z (Np.int64 (n_group_at_risk * (n_at_risk - n_group_at_risk)))
     * factor)%num V
else
  Np.iadd2 i j
    (of_Z (Np.int64 (- n_group_at_risk * n_j_at_risk)) * factor)%num V.

(** Body of [for i, group in enumerate(unique_groups)]. *)
Definition loop_i (groups unique_groups : list Z)
  (at_risk events_at_t : list bool) (n_events n_at_risk : Z)
  (st : list num * matrix) (ig : nat * Z) : list num * matrix :=
let '(O_E, V) := st in
let '(i, group) := ig in
let mask := group_mask groups group in
let n_group_at_risk := Np.sum (Np.mask_and at_risk mask) in
let observed := Np.sum (Np.mask_and events_at_t mask) in
let expected := int_div (Np.int64 (n_events * n_group_at_risk)) n_at_risk in
let O_E := Np.iadd i (of_Z observed - expected)%num O_E in
let factor := variance_factor n_events n_at_risk in
(O_E,
 foldl (loop_j groups at_risk n_at_risk n_group_at_risk factor i) V
       (Np.enumerate unique_groups)).

(** Body of [for t in unique_times], guard included. *)
Definition loop_t (durations : list Qc) (events groups unique_groups : list Z)
  (st : list num * matrix) (t : Qc) : list num * matrix :=
let at_risk := at_risk_mask durations t in
let events_at_t := events_at_mask durations events t in
let n_events := Np.sum events_at_t in
let n_at_risk := Np.sum at_risk in
if decide (n_events = 0 ∨ n_at_risk = 0) then st
else
  foldl (loop_i groups unique_groups at_risk events_at_t n_events n_at_risk)
        st (Np.enumerate unique_groups).

Definition event_times (durations : list Qc) (events : list Z) : list Qc :=
Np.unique_Qc (Np.select durations ((λ e, bool_decide (e = 1)) <$> events)).

(** Lines 11-42: the accumulated [O_E] and [V]. *)
Definition accumulate (durations : list Qc) (events groups : list Z)
  : list num * matrix :=
let unique_times := event_times durations events in
let unique_groups := Np.unique_Z groups in
let n_groups := length unique_groups in
foldl (loop_t durations events groups unique_groups)
      (Np.zeros n_groups, Np.zeros2 n_groups n_groups) unique_times.

(** [O_E[:-1]] and [V[:-1, :-1]]. *)
Definition drop_last_vec (v : list num) : list num := removelast v.
Definition drop_last_mat (M : matrix) : matrix := removelast (drop_last_vec <$> M).

Section Engine.
Variable linalg_solve : solver.
Variable chi2_sf : survival_fn.

(** Lines 45-48: the statistic, or [None] when the solver raises. *)
Definition chi2_statistic (durations : list Qc) (events groups : list Z)
  : option num :=
let '(O_E, V) := accumulate durations events groups in
let O_E := drop_last_vec O_E in
let V := drop_last_mat V in
x ← linalg_solve V O_E; Some (Np.dot O_E x).

Definition calculate_logrank (durations : list Qc) (events groups : list Z)
  : num * num :=
let n_groups := length (Np.unique_Z groups) in
let df := Z.of_nat n_groups - 1 in
match chi2_statistic durations events groups with
| Some chi2 => (chi2, chi2_sf chi2 df)
| None => (of_Z 0, of_Z 1)
end.
End Engine.

End LogRank.

(** ** Instances of the library calls

The theorems below hold for every solver and every survival function.
To evaluate the engine on concrete cohorts two instances are fixed.

[Lib.linalg_solve] is Gaussian elimination in exact arithmetic.  As in
LAPACK's [gesv], a pivot is rejected only when it compares equal to zero,
so a NaN pivot is accepted and NaN flows into the solution, and the
solver fails exactly when no pivot is left in some column.  (LAPACK picks
the pivot of largest magnitude; on rationals the choice does not change
the solution.)

[Lib.chi2_sf] is a rational stand-in for the chi-square upper tail: it is
1 at statistics that are not positive, strictly decreasing after that,
and it propagates NaN. *)

Module Lib.

Notation row := (list num * num)%type (only parsing).

(** The first row whose leading coefficient is not zero, with the others. *)
Fixpoint find_pivot (rows : list row) : option (row * list row) :=
match rows with
| [] => None
| r :: rs =>
  match r.1 with
  | a :: _ =>
      if Num.eqb a zero then
        '(p, rest) ← find_pivot rs; Some (p, r :: rest)
      else Some (r, rs)
  | [] => None
  end
end.

Definition axpy (c : num) (u v : list num) : list num :=
zip_with (λ x y, y - c * x)%num u v.

(** Subtract the multiple of the pivot row that clears the first column. *)
Definition eliminate (a : num) (ρ : list num) (β : num) (r : row) : row :=
match r.1 with
| c :: ρ' => (axpy (c / a) ρ ρ', r.2 - (c / a) * β)%num
| [] => r
end.

Fixpoint gauss (n : nat) (rows : list row) : option (list num) :=
match n with
| O => Some []
| S n' =>
  '(p, rest) ← find_pivot rows;
  match p.1 with
  | a :: ρ =>
      y ← gauss n' (eliminate a ρ p.2 <$> rest);
      Some (((p.2 - Np.dot ρ y) / a)%num :: y)
  | [] => None
  end
end.

Definition linalg_solve : solver :=
λ A b, gauss (length A) (zip A b).

Definition chi2_sf : survival_fn :=
λ x _,
match x with
| NaN => NaN
| PInf => zero
| NInf => one
| Fin q => if bool_decide (0 < q)%Qc then Fin (1 / (1 + q))%Qc else one
end.

End Lib.


(** ** The log-rank test as the specification words it

    The definitions of this module follow the specification: risk-set
    statistics over observation triples, and sums, in exact arithmetic, over
    the distinct event times that the specification does not skip.  They
    are compared with [LogRank.calculate_logrank] below. *)

Module LogRankSpec.

Record observation : Type := Obs { duration : Qc; event : Z; group : Z }.

#[global] Instance observation_eq_dec : EqDecision observation.
Proof. solve_decision. Defined.

Definition cohort (durations : list Qc) (events groups : list Z)
    : list observation :=
  zip_with (λ d eg, Obs d eg.1 eg.2) durations (zip events groups).

(** Number of observations satisfying a test. *)
Definition count (p : observation → bool) (c : list observation) : Z :=
  Np.sum (p <$> c).

(** Risk-set statistics at time [t]. *)
Definition is_at_risk (t : Qc) (o : observation) : bool :=
  bool_decide (t ≤ duration o)%Qc.
Definition is_event_at (t : Qc) (o : observation) : bool :=
  bool_decide (duration o = t) && bool_decide (event o = 1).
Definition in_group (g : Z) (o : observation) : bool :=
  bool_decide (group o = g).

Definition at_risk_overall (c : list observation) (t : Qc) : Z :=
  count (is_at_risk t) c.
Definition events_overall (c : list observation) (t : Qc) : Z :=
  count (is_event_at t) c.
Definition at_risk_in (c : list observation) (g : Z) (t : Qc) : Z :=
  count (λ o, is_at_risk t o && in_group g o) c.
Definition events_in (c : list observation) (g : Z) (t : Qc) : Z :=
  count (λ o, is_event_at t o && in_group g o) c.

(** The distinct times with at least one event, ascending, and the distinct
    group labels, ascending. *)
Definition distinct_event_times (c : list observation) : list Qc :=
  Np.unique_Qc (duration <$> filter (λ o, event o = 1) c).
Definition distinct_groups (c : list observation) : list Z :=
  Np.unique_Z (group <$> c).

(** A time is skipped when its aggregate event count or its aggregate
    at-risk count is zero, and also when exactly one subject is at risk
    (the denominator of the factor has the factor at_risk_overall - 1). *)
Definition skipped (c : list observation) (t : Qc) : Prop :=
  events_overall c t = 0 ∨ at_risk_overall c t = 0 ∨ at_risk_overall c t = 1.

#[global] Instance skipped_dec c t : Decision (skipped c t).
Proof. unfold skipped. apply _. Defined.



(** events_at_t * (at_risk_overall - events_at_t)
    / (at_risk_overall^2 * (at_risk_overall - 1)). *)
Definition factor (c : list observation) (t : Qc) : Qc :=
  (Qc_of_Z (events_overall c t * (at_risk_overall c t - events_overall c t))
   / Qc_of_Z (at_risk_overall c t * at_risk_overall c t
              * (at_risk_overall c t - 1)))%Qc.




Section Test.
Variable linalg_solve : solver.
Variable chi2_sf : survival_fn.

End Test.

End LogRankSpec.

(** ** The loops of [calculate_logrank] as sums

    What the loops of [calculate_logrank] add up, written over the
    observation triples: the same 64-bit products and the same divisions as
    the code, one term for every time of the loop. *)

Module LoopSums.
Import LogRankSpec.

(** Sum of [f t] over the times [ts], in the order of [ts]. *)
Definition sum_over (ts : list Qc) (f : Qc → num) : num :=
  foldl (λ acc t, acc + f t)%num zero ts.

Definition hypergeometric_factor (c : list observation) (t : Qc) : num :=
  LogRank.variance_factor (events_overall c t) (at_risk_overall c t).

(** observed_i - expected_i at time [t]. *)
Definition observed_minus_expected_at (c : list observation) (g : Z) (t : Qc)
    : num :=
  (of_Z (events_in c g t)
   - int_div (Np.int64 (events_overall c t * at_risk_in c g t))
             (at_risk_overall c t))%num.

(** The (g, h) entry of the variance contribution at time [t]. *)
Definition variance_at (c : list observation) (g h : Z) (t : Qc) : num :=
  if decide (g = h) then
    (of_Z (Np.int64 (at_risk_in c g t
                     * (at_risk_overall c t - at_risk_in c g t)))
     * hypergeometric_factor c t)%num
  else
    (of_Z (Np.int64 (- at_risk_in c g t * at_risk_in c h t))
     * hypergeometric_factor c t)%num.

Definition observed_minus_expected (c : list observation) (g : Z) : num :=
  sum_over (distinct_event_times c) (observed_minus_expected_at c g).
Definition variance (c : list observation) (g h : Z) : num :=
  sum_over (distinct_event_times c) (variance_at c g h).

(** Entrywise sums of vectors and matrices. *)
Definition vec_add (u v : list num) : list num := zip_with Num.add u v.
Definition mat_add (M N : matrix) : matrix := zip_with vec_add M N.

End LoopSums.

(** The terms one pass of the loops adds to [V] and [O_E], named for the
  proofs about the loops. *)

Module LoopTerms.
Import LogRank.

Definition term_j (groups : list Z) (at_risk : list bool)
  (n_at_risk n_group_at_risk : Z) (factor : num) (i j : nat) (gj : Z) : num :=
if decide (i = j) then
  (of_Z (Np.int64 (n_group_at_risk * (n_at_risk - n_group_at_risk)))
   * factor)%num
else
  (of_Z (Np.int64 (- n_group_at_risk
                   * Np.sum (Np.mask_and at_risk (group_mask groups gj))))
   * factor)%num.

Definition term_i (groups : list Z) (at_risk events_at_t : list bool)
  (n_events n_at_risk : Z) (group : Z) : num :=
(of_Z (Np.sum (Np.mask_and events_at_t (group_mask groups group)))
 - int_div (Np.int64
              (n_events
               * Np.sum (Np.mask_and at_risk (group_mask groups group))))
           n_at_risk)%num.

Definition row_i (groups gs : list Z) (at_risk : list bool)
  (n_events n_at_risk : Z) (i : nat) (group : Z) : list num :=
imap (term_j groups at_risk n_at_risk
        (Np.sum (Np.mask_and at_risk (group_mask groups group)))
        (variance_factor n_events n_at_risk) i) gs.

End LoopTerms.


(** ** Order statistics: [np.median] and [np.percentile] *)

Module Stats.

Definition sort (values : list Qc) : list Qc := merge_sort Qcle values.

(** Entry [i] of a sorted array; the indices used below are in range. *)
Definition at_index (a : list Qc) (i : nat) : Qc := nth i a 0%Qc.

(** [np.median]: the middle entry, or the mean of the two middle entries;
    NaN for an empty array. *)
Definition median (values : list Qc) : num :=
  let a := sort values in
  let n := length a in
  if decide (n = 0)%nat then NaN
  else if Nat.even n then
    Fin ((at_index a (n / 2 - 1) + at_index a (n / 2)) / 2)%Qc
  else Fin (at_index a (n / 2)).

(** [np.percentile(values, q)] for an integer [q] on an array that is not
    empty (linear interpolation between the two nearest ranks): the virtual
    index is (n - 1) * q / 100, split into its integer part and its
    fraction.  The search of [find_optimal_threshold] calls it with three
    values or more; the call of the gene scan, which can meet an empty
    array, is [np_percentile]. *)
Definition percentile (values : list Qc) (q : Z) : num :=
  let a := sort values in
  let n := length a in
  if decide (n = 0)%nat then NaN
  else
    let scaled := (Z.of_nat n - 1) * q in
    let lo := Z.to_nat (scaled / 100) in
    let hi := Nat.min (lo + 1) (n - 1) in
    let gamma := (Qc_of_Z (scaled mod 100) / Qc_of_Z 100)%Qc in
    Fin (at_index a lo + gamma * (at_index a hi - at_index a lo))%Qc.

(** [np.percentile] on any array: an empty array raises [IndexError], here
    [None]. *)
Definition np_percentile (values : list Qc) (q : Z) : option num :=
  match values with
  | [] => None
  | _ :: _ => Some (percentile values q)
  end.

(** The value of [percentile] on a non-empty array. *)
Definition percentile_value (values : list Qc) (q : Z) : Qc :=
  let a := sort values in
  let n := length a in
  let scaled := ((Z.of_nat n - 1) * q)%Z in
  let lo := Z.to_nat (scaled / 100) in
  let hi := Nat.min (lo + 1) (n - 1) in
  (at_index a lo
   + Qc_of_Z (scaled mod 100) / Qc_of_Z 100 * (at_index a hi - at_index a lo))%Qc.

(** [np.arange(lo, hi, 1)]. *)
Definition arange (lo hi : Z) : list Z := seqZ lo (hi - lo).

End Stats.

(** ** The cut-point search: [find_optimal_threshold] *)

Module Threshold.

(** [(values > threshold).astype(int)]. *)
Definition split_at (values : list Qc) (threshold : num) : list Z :=
  (λ v, if (threshold <? Fin v)%num then 1 else 0) <$> values.

(** The shape of the search loop: keep the first candidate whose p-value is
    strictly below the best one so far, among the candidates accepted by
    [valid]. *)
Definition scan_step (valid : num → bool) (pv : num → num)
    (st : num * num) (c : num) : num * num :=
  if valid c then (if (pv c <? st.1)%num then (pv c, c) else st) else st.

Section Search.
Variable linalg_solve : solver.
Variable chi2_sf : survival_fn.

(** Body of [for threshold in percentiles]; the state is
    [(min_p_value, optimal_threshold)]. *)
Definition step (values durations : list Qc) (events : list Z)
    (st : num * num) (threshold : num) : num * num :=
  let groups := split_at values threshold in
  if decide (length (Np.unique_Z groups) < 2)%nat then st
  else
    let p_value :=
      (LogRank.calculate_logrank linalg_solve chi2_sf durations events groups).2 in
    if (p_value <? st.1)%num then (p_value, threshold) else st.

(** A candidate is kept when its split has two groups; its p-value is the
    one [calculate_logrank] returns for that split. *)
Definition two_groups (values : list Qc) (c : num) : bool :=
  bool_decide (2 ≤ length (Np.unique_Z (split_at values c)))%nat.
Definition p_value_at (values durations : list Qc) (events : list Z)
    (c : num) : num :=
  (LogRank.calculate_logrank linalg_solve chi2_sf durations events
     (split_at values c)).2.

Definition candidates (values : list Qc) : list num :=
  Stats.percentile values <$> Stats.arange 20 81.

Definition find_optimal_threshold (values durations : list Qc)
    (events : list Z) : num :=
  if decide (length values < 3)%nat then Stats.median values
  else
    (foldl (step values durations events) (PInf, Stats.median values)
           (candidates values)).2.
End Search.

End Threshold.


(** ** The survival curves: [generate_survival_plot]

    The plotting calls are outside the engine; the embedding returns what is
    handed to them: per group the step curve [(unique_times, survival)] and
    the censoring markers. *)

Module Curve.

Record curve : Type := Curve {
  times : list Qc;
  survival : list num;
  censored : list (Qc * num)
}.

#[global] Instance curve_eq_dec : EqDecision curve.
Proof. solve_decision. Defined.

(** [np.argsort] followed by the two indexings: the observations of the
    group ordered by duration.  (NumPy does not fix the order of ties
    either.) *)
Definition le_duration (a b : Qc * Z) : Prop := (a.1 ≤ b.1)%Qc.

#[global] Instance le_duration_dec : RelDecision le_duration.
Proof. intros a b. unfold le_duration. apply _. Defined.

Definition sort_by_duration (obs : list (Qc * Z)) : list (Qc * Z) :=
  merge_sort le_duration obs.

(** [survival[j:] *= f]. *)
Definition scale_from (j : nat) (f : num) (survival : list num) : list num :=
  take j survival ++ ((λ s, s * f)%num <$> drop j survival).

(** [survival[j - 1]]. *)
Definition read (survival : list num) (i : nat) : num := nth i survival NaN.

(** The loop state: the observations not yet consumed
    ([duration_sorted[idx:]] with their events), [at_risk], [survival] and
    the censoring markers. *)
Record state : Type := State {
  rest : list (Qc * Z);
  at_risk : Z;
  surv : list num;
  marks : list (Qc * num)
}.

(** The [while] loop at step [j], time [t]. *)
Fixpoint drain (t : Qc) (j : nat) (rest : list (Qc * Z)) (at_risk : Z)
    (surv : list num) (marks : list (Qc * num)) : state :=
  match rest with
  | [] => State [] at_risk surv marks
  | (d, ev) :: rest' =>
      if decide (d ≤ t)%Qc then
        if decide (ev ≠ 0) then
          drain t j rest' (at_risk - 1)
                (scale_from j (int_div (at_risk - 1) at_risk) surv) marks
        else
          drain t j rest' (at_risk - 1) surv
                (marks ++ [(d, read surv (j - 1))])
      else State rest at_risk surv marks
  end.

Definition step (st : state) (jt : nat * Qc) : state :=
  drain jt.2 jt.1 (rest st) (at_risk st) (surv st) (marks st).

(** Lines 88-109 for the observations of one group. *)
Definition kaplan_meier (obs : list (Qc * Z)) : curve :=
  let sorted := sort_by_duration obs in
  let unique_times := Np.unique_Qc (0%Qc :: sorted.*1) in
  let survival := replicate (length unique_times) one in
  let at_risk := Z.of_nat (length sorted) in
  let final :=
    foldl step (State sorted at_risk survival [])
          (imap (λ j t, (S j, t)) (tail unique_times)) in
  Curve unique_times (surv final) (marks final).

(** [durations[mask]] and [events[mask]] for one group. *)
Definition group_observations (durations : list Qc) (events groups : list Z)
    (group : Z) : list (Qc * Z) :=
  let mask := LogRank.group_mask groups group in
  zip (Np.select durations mask) (Np.select events mask).

Definition generate_survival_plot (durations : list Qc)
    (events groups : list Z) : list (Z * curve) :=
  (λ group, (group, kaplan_meier (group_observations durations events groups group)))
    <$> Np.unique_Z groups.

(** The values of a curve are well formed when they are numbers that are
    not negative and never increase. *)
Definition well_formed (l : list num) : Prop :=
  ∃ qs, l = Fin <$> qs ∧ Forall (λ q, 0 ≤ q)%Qc qs
        ∧ StronglySorted (λ a b, b ≤ a)%Qc qs.

(** The last value of a curve. *)
Definition final_value (c : curve) : num := List.last (survival c) NaN.

(** Direct counting: the observations without an event at or before the
    last event time. *)
Definition last_event_time (obs : list (Qc * Z)) : option Qc :=
  last (Stats.sort (filter (λ o, o.2 ≠ 0) obs).*1).
Definition event_free (obs : list (Qc * Z)) : Z :=
  match last_event_time obs with
  | Some T =>
      Z.of_nat (length (filter (λ o, ¬ (o.2 ≠ 0 ∧ (o.1 ≤ T)%Qc)) obs))
  | None => Z.of_nat (length obs)
  end.

End Curve.


(** ** Multiple-testing correction

    [multipletests(..., method='fdr_bh')] is a call into statsmodels.  Its
    result is modelled by the procedure below. *)

Module MultipleTesting.

(** Order used to sort p-values: ascending, NaN last. *)
Definition p_le (x y : num) : Prop :=
  is_nan y = true ∨ (is_nan x = false ∧ (y <? x)%num = false).

#[global] Instance p_le_dec : RelDecision p_le.
Proof. intros x y. unfold p_le. apply _. Defined.

Definition rank_le (a b : nat * num) : Prop := p_le a.2 b.2.

#[global] Instance rank_le_dec : RelDecision rank_le.
Proof. intros a b. unfold rank_le. apply _. Defined.

(** [np.minimum]: the smaller of two values, NaN if either is NaN. *)
Definition minimum (x y : num) : num :=
  if is_nan x || is_nan y then NaN else if (y <? x)%num then y else x.

(** Running minimum from the largest rank down to the smallest. *)
Fixpoint running_min (l : list num) : list num :=
  match l with
  | [] => []
  | x :: l' =>
      match running_min l' with
      | [] => [x]
      | (m :: _) as r => minimum x m :: r
      end
  end.

(** Clip to [0, 1]. *)
Definition clip (x : num) : num :=
  if (of_Z 1 <? x)%num then of_Z 1 else if (x <? of_Z 0)%num then of_Z 0 else x.

(** Put the values back at their original positions. *)
Definition restore (n : nat) (indexed : list (nat * num)) : list num :=
  foldl (λ out ia, <[ia.1 := ia.2]> out) (replicate n NaN) indexed.

(** Modelled from the spec: the Benjamini-Hochberg adjustment that
    statsmodels' [multipletests(method='fdr_bh')] computes, which is not part
    of the repository.  Sort ascending, adjusted_i = p_i * n / rank_i, running
    minimum from the largest rank down, clip to [0, 1], restore the original
    order. *)
Definition benjamini_hochberg (pvalues : list num) : list num :=
  let n := length pvalues in
  let ranked := merge_sort rank_le (imap pair pvalues) in
  let scaled :=
    imap (λ k ip, (ip.2 * of_Z (Z.of_nat n) / of_Z (Z.of_nat (S k)))%num) ranked in
  let adjusted := clip <$> running_min scaled in
  restore n (zip ranked.*1 adjusted).

End MultipleTesting.


(** ** The scan driver: [survival]

    Reading the table and writing the CSV files and the images are outside
    the engine.  The table is taken as read: the time and event columns after
    [pd.to_numeric(..., errors='coerce')] (a missing or non-numeric cell is
    [None]), the metadata columns up to [START_GENE] and the gene columns
    after it.  What the run prints, plots and calls is recorded as a trace. *)

Module Driver.

Inductive column : Type :=
  | Numeric (cells : list (option Qc))
  | Categorical (cells : list (option Z)).

Record table : Type := Table {
  time : list (option Qc);
  event : list (option Z);
  metadata : list (string * column);
  gene_data : list (string * list (option Qc))
}.

Inductive kind : Type := Numerical | Categorial.

Record variable_result : Type := VariableResult {
  variable : string;
  variable_kind : kind;
  variable_threshold : option num;
  variable_df : Z;
  variable_p_value : num
}.

Record gene_result : Type := GeneResult {
  gene : string;
  threshold : num;
  p_value : num
}.

Record gene_row : Type := GeneRow {
  row_result : gene_result;
  adjusted_p_value : num
}.

(** The exceptions that end a gene scan: [np.percentile] on a gene without
    a complete row, and the missing ['p_value'] column of an empty
    collection. *)
Inductive error : Type := IndexError | KeyError.

(** What a run does besides returning: the calls of [calculate_logrank],
    the warning for a column that is not found, the plots, and the lines
    reporting a p-value or the number of significant genes. *)
Inductive effect : Type :=
  | CallLogrank (durations : list Qc) (events groups : list Z)
  | Warning (column : string)
  | Plot (column : string) (curves : list (Z * Curve.curve))
  | Report (column : string) (p : num)
  | Significant (count : nat).

Definition M (A : Type) : Type := A * list effect.
Definition ret {A} (a : A) : M A := (a, []).
Definition bind {A B} (m : M A) (f : A → M B) : M B :=
  let r := f m.1 in (r.1, m.2 ++ r.2).
Definition tell (e : effect) : M unit := (tt, [e]).

Notation "'let!' x ':=' m 'in' k" := (bind m (λ x, k))
  (at level 200, x name, m at level 100, k at level 200).
Notation "'do!' m 'in' k" := (bind m (λ _, k))
  (at level 200, m at level 100, k at level 200).

Fixpoint foldlM {A B} (f : A → B → M A) (a : A) (l : list B) : M A :=
  match l with
  | [] => ret a
  | x :: l' => let! a' := f a x in foldlM f a' l'
  end.

(** [mask = ~(durations.isna() | events.isna() | values.isna())] and the
    three indexings by it. *)
Fixpoint clean {V} (time : list (option Qc)) (event : list (option Z))
    (values : list (option V)) : list Qc * list Z * list V :=
  match time, event, values with
  | t :: time', e :: event', v :: values' =>
      let '(ds, es, vs) := clean time' event' values' in
      match t, e, v with
      | Some d, Some e, Some v => (d :: ds, e :: es, v :: vs)
      | _, _, _ => (ds, es, vs)
      end
  | _, _, _ => ([], [], [])
  end.

(** [column in frame.columns] and [frame[column]]. *)
Definition lookup_column {C} (frame : list (string * C)) (name : string)
    : option C :=
  (λ r : nat * (string * C), r.2.2) <$> list_find (λ nc, nc.1 = name) frame.

Section Scan.
Variable linalg_solve : solver.
Variable chi2_sf : survival_fn.
(** [multipletests(p_values, method='fdr_bh')], its adjusted p-values. *)
Variable multipletests : list num → list num.

Definition calculate_logrank (durations : list Qc) (events groups : list Z)
    : M (num * num) :=
  do! tell (CallLogrank durations events groups) in
  ret (LogRank.calculate_logrank linalg_solve chi2_sf durations events groups).

(** [find_optimal_threshold] with its calls of [calculate_logrank]. *)
Definition threshold_step (values durations : list Qc) (events : list Z)
    (st : num * num) (threshold : num) : M (num * num) :=
  let groups := Threshold.split_at values threshold in
  if decide (length (Np.unique_Z groups) < 2)%nat then ret st
  else
    let! r := calculate_logrank durations events groups in
    if (r.2 <? st.1)%num then ret (r.2, threshold) else ret st.

Definition find_optimal_threshold (values durations : list Qc)
    (events : list Z) : M num :=
  if decide (length values < 3)%nat then ret (Stats.median values)
  else
    let! st := foldlM (threshold_step values durations events)
                (PInf, Stats.median values)
                (Threshold.candidates values) in
    ret st.2.

(** One pass of [for column in group_columns], for a numerical column. *)
Definition analyze_numerical (t : table) (name : string)
    (cells : list (option Qc)) : M (list variable_result) :=
  let '(durations, events, values) := clean (time t) (event t) cells in
  let! threshold := find_optimal_threshold values durations events in
  let groups := Threshold.split_at values threshold in
  if decide (length (Np.unique_Z groups) < 2)%nat then ret []
  else
    let! r := calculate_logrank durations events groups in
    do! tell (Plot name (Curve.generate_survival_plot durations events groups)) in
    do! tell (Report name r.2) in
    ret [VariableResult name Numerical (Some threshold) 1 r.2].

(** The same for a categorical column. *)
Definition analyze_categorical (t : table) (name : string)
    (cells : list (option Z)) : M (list variable_result) :=
  let '(durations, events, groups) := clean (time t) (event t) cells in
  let unique_groups := Np.unique_Z groups in
  if decide (length unique_groups < 2)%nat then ret []
  else
    let! r := calculate_logrank durations events groups in
    do! tell (Plot name (Curve.generate_survival_plot durations events groups)) in
    do! tell (Report name r.2) in
    ret [VariableResult name Categorial None
           (Z.of_nat (length unique_groups) - 1) r.2].

(** Body of [for column in group_columns]: the results it appends. *)
Definition analyze_column (t : table) (name : string)
    : M (list variable_result) :=
  match lookup_column (metadata t) name with
  | Some (Numeric cells) => analyze_numerical t name cells
  | Some (Categorical cells) => analyze_categorical t name cells
  | None =>
      match lookup_column (gene_data t) name with
      | Some cells => analyze_numerical t name cells
      | None =>
          if decide (name = "GENES") then ret []
          else do! tell (Warning name) in ret []
      end
  end.

(** A column is degenerate when it is found and its cleaned values fall
    into fewer than two groups: at the chosen threshold for a numerical
    column, by their labels for a categorical one. *)
Definition degenerate_numerical (t : table) (cells : list (option Qc)) : Prop :=
  let '(durations, events, values) := clean (time t) (event t) cells in
  let threshold := (find_optimal_threshold values durations events).1 in
  (length (Np.unique_Z (Threshold.split_at values threshold)) < 2)%nat.

Definition degenerate_categorical (t : table) (cells : list (option Z)) : Prop :=
  let '(durations, events, groups) := clean (time t) (event t) cells in
  (length (Np.unique_Z groups) < 2)%nat.

Definition degenerate (t : table) (name : string) : Prop :=
  match lookup_column (metadata t) name with
  | Some (Numeric cells) => degenerate_numerical t cells
  | Some (Categorical cells) => degenerate_categorical t cells
  | None =>
      match lookup_column (gene_data t) name with
      | Some cells => degenerate_numerical t cells
      | None => False
      end
  end.

Definition analyze_variables (t : table) (group_columns : list string)
    : M (list variable_result) :=
  foldlM (λ results name, let! r := analyze_column t name in ret (results ++ r))
         [] group_columns.

(** Body of [for i, gene in enumerate(genes, 1)]: the results it appends,
    or the exception of line 236. *)
Definition analyze_gene (t : table) (name : string)
    (cells : list (option Qc)) : M (error + list gene_result) :=
  let '(durations, events, values) := clean (time t) (event t) cells in
  match Stats.np_percentile values 50 with
  | None => ret (inl IndexError)
  | Some threshold =>
      let groups := Threshold.split_at values threshold in
      if decide (length (Np.unique_Z groups) < 2)%nat then ret (inr [])
      else
        let! r := calculate_logrank durations events groups in
        ret (inr [GeneResult name threshold r.2])
  end.

(** A gene has no complete row when every row misses the time, the event
    or the value of the gene; it is kept when the split of its cleaned
    values at their median has two groups. *)
Definition gene_without_row (t : table) (nc : string * list (option Qc))
    : Prop :=
  (clean (time t) (event t) nc.2).2 = [].

Definition gene_kept (t : table) (nc : string * list (option Qc)) : Prop :=
  let '(durations, events, values) := clean (time t) (event t) nc.2 in
  (2 ≤ length (Np.unique_Z
                 (Threshold.split_at values (Stats.median values))))%nat.

(** A gene is dropped when it has a complete row and is not kept. *)
Definition gene_dropped (t : table) (nc : string * list (option Qc)) : Prop :=
  ¬ gene_without_row t nc ∧ ¬ gene_kept t nc.

(** The table without its dropped genes. *)
Definition without_dropped (t : table) : table :=
  Table (time t) (event t) (metadata t)
        (filter (λ nc, ¬ gene_dropped t nc) (gene_data t)).

(** The loop over the genes: it ends at the first exception. *)
Fixpoint scan_genes (t : table) (gene_results : list gene_result)
    (genes : list (string * list (option Qc)))
    : M (error + list gene_result) :=
  match genes with
  | [] => ret (inr gene_results)
  | nc :: genes' =>
      let! r := analyze_gene t nc.1 nc.2 in
      match r with
      | inl e => ret (inl e)
      | inr new => scan_genes t (gene_results ++ new) genes'
      end
  end.

Definition analyze_genes (t : table) : M (error + list gene_result) :=
  scan_genes t [] (gene_data t).

(** [sort_values('p_value')]: ascending, NaN last. *)
Definition row_le (a b : gene_row) : Prop :=
  MultipleTesting.p_le (p_value (row_result a)) (p_value (row_result b)).

#[global] Instance row_le_dec : RelDecision row_le.
Proof. intros a b. unfold row_le. apply _. Defined.

(** Lines 251-259.  An empty collection has no ['p_value'] column: pandas
    raises [KeyError]. *)
Definition correct_and_sort (gene_results : list gene_result)
    : M (error + list gene_row) :=
  match gene_results with
  | [] => ret (inl KeyError)
  | _ =>
      let adjusted := multipletests (p_value <$> gene_results) in
      let rows := merge_sort row_le (zip_with GeneRow gene_results adjusted) in
      let significant :=
        filter (λ r, (adjusted_p_value r <? Fin (qc 5 / qc 100)%Qc)%num = true)
               rows in
      do! tell (Significant (length significant)) in
      ret (inr rows)
  end.

Record output : Type := Output {
  variables : list variable_result;
  genes : option (error + list gene_row)
}.

(** [survival]: [variables] is what goes to [survival_variables.csv];
    [genes] is [None] when ['GENES'] is not requested, the exception when
    the gene scan raises one, and otherwise what goes to
    [survival_genes.csv]. *)
Definition survival (t : table) (group_columns : list string) : M output :=
  let! results := analyze_variables t group_columns in
  if decide ("GENES" ∈ group_columns) then
    let! gene_results := analyze_genes t in
    match gene_results with
    | inl e => ret (Output results (Some (inl e)))
    | inr gene_results =>
        let! rows := correct_and_sort gene_results in
        ret (Output results (Some rows))
    end
  else ret (Output results None).
End Scan.

(** An effect is harmless for the log-rank test when it is not a call, or a
    call with two groups or more. *)
Definition two_groups_call (e : effect) : Prop :=
  match e with
  | CallLogrank _ _ groups => (2 ≤ length (Np.unique_Z groups))%nat
  | _ => True
  end.

Definition is_call (e : effect) : Prop :=
  match e with CallLogrank _ _ _ => True | _ => False end.

#[global] Instance effect_eq_dec : EqDecision effect.
Proof. solve_decision. Defined.

#[global] Instance kind_eq_dec : EqDecision kind.
Proof. solve_decision. Defined.

#[global] Instance gene_result_eq_dec : EqDecision gene_result.
Proof. solve_decision. Defined.

#[global] Instance variable_result_eq_dec : EqDecision variable_result.
Proof. solve_decision. Defined.

#[global] Instance gene_row_eq_dec : EqDecision gene_row.
Proof. solve_decision. Defined.

#[global] Instance scan_error_eq_dec : EqDecision error.
Proof. solve_decision. Defined.

#[global] Instance output_eq_dec : EqDecision output.
Proof. solve_decision. Defined.

(** A small table for the examples: five subjects, a two-label and a
    one-label categorical column, a numerical column and three genes, the
    second of them constant. *)
Definition cell (z : Z) : option Qc := Some (qc z).

Definition example_table : table :=
  Table (cell <$> [5; 6; 6; 2; 4]) (Some <$> [1; 0; 1; 1; 1])
        [("stage", Categorical (Some <$> [0; 0; 1; 1; 1]));
         ("site", Categorical (Some <$> [3; 3; 3; 3; 3]));
         ("age", Numeric (cell <$> [10; 20; 30; 40; 50]))]
        [("g1", cell <$> [1; 2; 3; 4; 5]);
         ("g2", cell <$> [1; 1; 1; 1; 1]);
         ("g3", cell <$> [5; 1; 4; 2; 3])].

End Driver.

(** ** Where a censoring marker sits *)

Module Markers.

(** A marker [(d, v)] sits on the step before its time: [v] is the value of
    the curve at the time just before [d], or the first value of the curve
    when [d] is its first time. *)
Definition on_previous_step (times : list Qc) (survival : list num)
    (m : Qc * num) : Prop :=
  ∃ i : nat,
    survival !! i = Some m.2
    ∧ (times !! S i = Some m.1 ∨ (i = 0%nat ∧ times !! 0%nat = Some m.1)).

End Markers.

(** ** What the curves read of an event indicator *)

Module Coding.

(** [if event_sorted[idx]]: an indicator counts as an event when it is not
    zero. *)
Definition truth (ev : Z) : Z := if decide (ev = 0) then 0 else 1.

Definition truth_obs (o : Qc * Z) : Qc * Z := (o.1, truth o.2).

Definition truth_state (st : Curve.state) : Curve.state :=
  Curve.State (truth_obs <$> Curve.rest st) (Curve.at_risk st)
              (Curve.surv st) (Curve.marks st).

End Coding.

(** ** Reading a run of [survival] *)

Module Trace.
Import Driver.

(** The columns warned about, the columns plotted, the lines reporting a
    p-value and the arguments of the calls of [calculate_logrank], each in
    the order of the run. *)
Definition warnings (tr : list effect) : list string :=
  omap (λ e, match e with Warning c => Some c | _ => None end) tr.

Definition plots (tr : list effect) : list string :=
  omap (λ e, match e with Plot c _ => Some c | _ => None end) tr.

Definition reports (tr : list effect) : list (string * num) :=
  omap (λ e, match e with Report c p => Some (c, p) | _ => None end) tr.

Definition calls (tr : list effect) : list (list Qc * list Z * list Z) :=
  omap (λ e, match e with CallLogrank d e g => Some (d, e, g) | _ => None end)
       tr.

(** The three columns of a call have one length, at most [n]. *)
Definition aligned (n : nat) (c : list Qc * list Z * list Z) : Prop :=
  length c.1.1 = length c.1.2 ∧ length c.1.2 = length c.2
  ∧ (length c.1.1 ≤ n)%nat.

(** [column in metadata.columns or column in gene_data.columns]. *)
Definition found (t : table) (name : string) : Prop :=
  name ∈ (metadata t).*1 ∨ name ∈ (gene_data t).*1.

#[global] Instance found_dec t name : Decision (found t name).
Proof. unfold found. apply _. Defined.

(** The calls made by the search of [find_optimal_threshold]: one for each
    candidate with two groups, in the order of the candidates. *)
Definition search_calls (values durations : list Qc) (events : list Z)
    : list effect :=
  if decide (length values < 3)%nat then []
  else
    (λ c, CallLogrank durations events (Threshold.split_at values c))
      <$> filter (λ c, Threshold.two_groups values c = true)
                 (Threshold.candidates values).

(** What one pass of the loop over the columns yields for a numerical and
    for a categorical column, from the cleaned columns: the results it
    appends and what it calls, plots and reports. *)
Section Outcome.
Variable linalg_solve : solver.
Variable chi2_sf : survival_fn.

Definition numerical_outcome (name : string) (d v : list Qc) (e : list Z)
    : M (list variable_result) :=
  let thr := Threshold.find_optimal_threshold linalg_solve chi2_sf v d e in
  let groups := Threshold.split_at v thr in
  let p := (LogRank.calculate_logrank linalg_solve chi2_sf d e groups).2 in
  if decide (length (Np.unique_Z groups) < 2)%nat then
    ([], search_calls v d e)
  else
    ([VariableResult name Numerical (Some thr) 1 p],
     search_calls v d e
     ++ [CallLogrank d e groups;
         Plot name (Curve.generate_survival_plot d e groups);
         Report name p]).

Definition categorical_outcome (name : string) (d : list Qc) (e g : list Z)
    : M (list variable_result) :=
  let p := (LogRank.calculate_logrank linalg_solve chi2_sf d e g).2 in
  if decide (length (Np.unique_Z g) < 2)%nat then ([], [])
  else
    ([VariableResult name Categorial None
        (Z.of_nat (length (Np.unique_Z g)) - 1) p],
     [CallLogrank d e g;
      Plot name (Curve.generate_survival_plot d e g);
      Report name p]).
(** What a result of the gene scan records of its gene column: the median
    of the cleaned values as threshold and the p-value of the split at
    it, which has two groups. *)
Definition from_column (t : table)
    (genes : list (string * list (option Qc))) (r : gene_result) : Prop :=
  ∃ cells d e v,
    (gene r, cells) ∈ genes
    ∧ clean (time t) (event t) cells = (d, e, v)
    ∧ threshold r = Stats.median v
    ∧ p_value r
      = (LogRank.calculate_logrank linalg_solve chi2_sf d e
           (Threshold.split_at v (Stats.median v))).2
    ∧ (2 ≤ length (Np.unique_Z (Threshold.split_at v (Stats.median v))))%nat.
End Outcome.

End Trace.

#[global] Instance degenerate_dec linalg_solve chi2_sf t name :
  Decision (Driver.degenerate linalg_solve chi2_sf t name).
Proof.
  unfold Driver.degenerate, Driver.degenerate_numerical,
    Driver.degenerate_categorical.
  destruct (Driver.lookup_column (Driver.metadata t) name) as [[cells|cells]|].
  - destruct (Driver.clean _ _ cells) as [[d e] v]. apply _.
  - destruct (Driver.clean _ _ cells) as [[d e] v]. apply _.
  - destruct (Driver.lookup_column (Driver.gene_data t) name) as [cells|].
    + destruct (Driver.clean _ _ cells) as [[d e] v]. apply _.
    + apply _.
Defined.

(** * The series-matrix parser: a shallow embedding of [hcc_parser.py]

    The file is taken as read: the lines that [for line in file] yields,
    each a [string] of ASCII characters.  A sample (a [dict] with string
    keys) is the list of its items in insertion order.  What [write_csv]
    hands to the CSV writer is returned as rows of fields.  An exception is
    a value of [error]. *)

Module HccParser.

Inductive error : Type := ValueError | IndexError.

Notation ascii := Ascii.ascii (only parsing).

Definition equals_sign : ascii := Ascii.ascii_of_nat 61.
Definition colon : ascii := Ascii.ascii_of_nat 58.

(** [str.isspace] on an ASCII character: tab, line feed, vertical tab, form
    feed, carriage return, the separators 0x1c to 0x1f and the space. *)
Definition is_space (c : ascii) : bool :=
  let n := Ascii.nat_of_ascii c in
  bool_decide (9 ≤ n ≤ 13 ∨ 28 ≤ n ≤ 32)%nat.

(** [s.strip()]. *)
Fixpoint lstrip (s : string) : string :=
  match s with
  | EmptyString => EmptyString
  | String c s' => if is_space c then lstrip s' else s
  end.

Fixpoint rstrip (s : string) : string :=
  match s with
  | EmptyString => EmptyString
  | String c s' =>
      match rstrip s' with
      | EmptyString => if is_space c then EmptyString else String c EmptyString
      | r => String c r
      end
  end.

Definition strip (s : string) : string := rstrip (lstrip s).

(** [s.startswith(p)]. *)
Fixpoint startswith (s p : string) : bool :=
  match p with
  | EmptyString => true
  | String a p' =>
      match s with
      | EmptyString => false
      | String b s' => bool_decide (a = b) && startswith s' p'
      end
  end.

(** [s.split(sep)] for a separator of one character: the pieces between
    the separators, one piece more than there are separators. *)
Fixpoint split (sep : ascii) (s : string) : list string :=
  match s with
  | EmptyString => [EmptyString]
  | String c s' =>
      if decide (c = sep) then EmptyString :: split sep s'
      else
        match split sep s' with
        | p :: ps => String c p :: ps
        | [] => [String c EmptyString]
        end
  end.

(** [s.split(sep, 1)]: cut at the first separator only. *)
Fixpoint split1 (sep : ascii) (s : string) : list string :=
  match s with
  | EmptyString => [EmptyString]
  | String c s' =>
      if decide (c = sep) then [EmptyString; s']
      else
        match split1 sep s' with
        | p :: ps => String c p :: ps
        | [] => [String c EmptyString]
        end
  end.

(** Whether a character occurs in a string, and the text before the first
    occurrence of a character (the whole string when it does not occur). *)
Fixpoint contains (c : ascii) (s : string) : bool :=
  match s with
  | EmptyString => false
  | String a s' => bool_decide (a = c) || contains c s'
  end.

Fixpoint before (c : ascii) (s : string) : string :=
  match s with
  | EmptyString => EmptyString
  | String a s' => if decide (a = c) then EmptyString else String a (before c s')
  end.

(** A [dict]: [d[k] = v] replaces the value of a key that is present and
    appends a new key; [d.get(k)]. *)
Notation sample := (list (string * string)) (only parsing).

Fixpoint dict_set (k v : string) (d : sample) : sample :=
  match d with
  | [] => [(k, v)]
  | (k', v') :: d' =>
      if decide (k' = k) then (k', v) :: d' else (k', v') :: dict_set k v d'
  end.

Fixpoint dict_get (k : string) (d : sample) : option string :=
  match d with
  | [] => None
  | (k', v') :: d' => if decide (k' = k) then Some v' else dict_get k d'
  end.

Definition accepted : list string :=
  ["etiology"; "ctnnb1 status"; "efs days"; "efs event"; "os days";
   "os event"].

(** [samples.append(current_sample)] under [if current_sample:]. *)
Definition flush (samples : list sample) (current : sample) : list sample :=
  if decide (current = []) then samples else samples ++ [current].

(** Body of [for line in file]; the state is [(samples, current_sample)]. *)
Definition step (st : list sample * sample) (line : string)
    : error + (list sample * sample) :=
  if startswith line "^SAMPLE =" then
    match split equals_sign line !! 1%nat with
    | Some id => inr (flush st.1 st.2, [("sample_id", strip id)])
    | None => inl IndexError
    end
  else if startswith line "!Sample_characteristics_ch1" then
    match split1 colon line with
    | [key; value] =>
        match split equals_sign key !! 1%nat with
        | Some k =>
            if decide (strip k ∈ accepted) then
              inr (st.1, dict_set (strip k) (strip value) st.2)
            else inr st
        | None => inl IndexError
        end
    | _ => inl ValueError
    end
  else inr st.

Fixpoint run (st : list sample * sample) (lines : list string)
    : error + (list sample * sample) :=
  match lines with
  | [] => inr st
  | line :: lines' =>
      match step st line with
      | inl err => inl err
      | inr st' => run st' lines'
      end
  end.

Definition parse_sra_data (lines : list string) : error + list sample :=
  match run ([], []) lines with
  | inl err => inl err
  | inr st => inr (flush st.1 st.2)
  end.

Definition fieldnames : list string :=
  ["sample_id"; "etiology"; "ctnnb1 status"; "efs days"; "efs event";
   "os days"; "os event"].

(** [DictWriter.writerow]: [ValueError] for a key that is not a field name;
    a field that is missing is written as the empty string. *)
Definition writerow (s : sample) : error + list string :=
  if decide (Forall (λ kv, kv.1 ∈ fieldnames) s) then
    inr ((λ f, default EmptyString (dict_get f s)) <$> fieldnames)
  else inl ValueError.

Fixpoint writerows (samples : list sample) : error + list (list string) :=
  match samples with
  | [] => inr []
  | s :: samples' =>
      match writerow s with
      | inl err => inl err
      | inr row =>
          match writerows samples' with
          | inl err => inl err
          | inr rows => inr (row :: rows)
          end
      end
  end.

(** [write_csv]: the header, then one row for each sample (what is already
    in the file when a row fails is not kept). *)
Definition write_csv (samples : list sample) : error + list (list string) :=
  match writerows samples with
  | inl err => inl err
  | inr rows => inr (fieldnames :: rows)
  end.

(** A line of sample characteristics that [parse_sra_data] cannot take
    apart: it has no colon, or no equals sign before its first colon. *)
Definition malformed (line : string) : Prop :=
  startswith line "^SAMPLE =" = false
  ∧ startswith line "!Sample_characteristics_ch1" = true
  ∧ (contains colon line = false
     ∨ contains equals_sign (before colon line) = false).

#[global] Instance malformed_dec line : Decision (malformed line).
Proof. unfold malformed. apply _. Defined.

#[global] Instance error_eq_dec : EqDecision error.
Proof. solve_decision. Defined.

(** A sample has an identifier when its first key is [sample_id]. *)
Definition has_id (s : sample) : Prop :=
  ∃ id rest, s = ("sample_id", id) :: rest.

(** A sample whose keys are field names, each once, and which is not
    empty. *)
Definition well_keyed (s : sample) : Prop :=
  NoDup s.*1 ∧ Forall (λ kv, kv.1 ∈ fieldnames) s ∧ s ≠ [].

(** The state of the loop after [n] lines that start a sample. *)
Definition counted (n : nat) (st : list sample * sample) : Prop :=
  (st.2 = [] → st.1 = [] ∧ n = 0%nat)
  ∧ Forall has_id (tail (flush st.1 st.2))
  ∧ (n ≤ length (flush st.1 st.2) ≤ S n)%nat.

End HccParser.

(** ** Binary64 arithmetic and LAPACK's [gesv]

    [np.linalg.solve] hands the system to LAPACK's [dgesv], which works in
    binary64.  Whether it reports a singular matrix depends on the rounded
    intermediate values: it raises only when a pivot compares equal to
    zero.  [F64] is round-to-nearest-even on the numbers of this
    development, and [Lapack.gesv] is the reference [dgesv] on top of it, an
    instance of the solver like [Lib.linalg_solve].  (The sign of a zero is
    not represented; no comparison of the algorithm reads it.) *)

Module F64.

(** [n >= d * 2^e], for positive [n] and [d]. *)
Definition scaled_ge (n d e : Z) : bool :=
  if 0 <=? e then d * 2 ^ e <=? n else d <=? n * 2 ^ (- e).

(** The quotient [N / D] rounded to the nearest integer, ties to even. *)
Definition nearest_even (N D : Z) : Z :=
  let q := N / D in
  let r := N mod D in
  if 2 * r <? D then q
  else if D <? 2 * r then q + 1
  else if Z.even q then q else q + 1.

(** The binary64 number nearest to [n / d], for positive [n] and [d]:
    53 significant bits, exponents down to 2^-1074 (subnormal numbers),
    overflow to infinity from 2^1024 on. *)
Definition round_pos (n d : positive) : num :=
  let e0 := Z.log2 (Zpos n) - Z.log2 (Zpos d) in
  let e := if scaled_ge (Zpos n) (Zpos d) e0 then e0 else e0 - 1 in
  let k := Z.max (e - 52) (- 1074) in
  if 0 <=? k then
    let m := nearest_even (Zpos n) (Zpos d * 2 ^ k) in
    if 2 ^ 1024 <=? m * 2 ^ k then PInf else Fin (Qc_of_Z (m * 2 ^ k))
  else
    let m := nearest_even (Zpos n * 2 ^ (- k)) (Zpos d) in
    Fin (Q2Qc (Qmake m (Z.to_pos (2 ^ (- k))))).

Definition round (x : num) : num :=
  match x with
  | Fin q =>
      match Qnum (this q) with
      | Z0 => x
      | Zpos n => round_pos n (Qden (this q))
      | Zneg n => opp (round_pos n (Qden (this q)))
      end
  | _ => x
  end.

Definition add (x y : num) : num := round (x + y).
Definition sub (x y : num) : num := round (x - y).
Definition mul (x y : num) : num := round (x * y).
Definition div (x y : num) : num := round (x / y).

(** [abs]. *)
Definition fabs (x : num) : num := if (x <? zero)%num then opp x else x.

End F64.

Module Lapack.

Notation row := (list num * num)%type (only parsing).

(** [idamax]: the index of the first entry of largest magnitude. *)
Fixpoint idamax_from (best : nat) (dmax : num) (i : nat) (col : list num)
    : nat :=
  match col with
  | [] => best
  | x :: col' =>
      if (dmax <? F64.fabs x)%num then idamax_from i (F64.fabs x) (S i) col'
      else idamax_from best dmax (S i) col'
  end.

Definition idamax (col : list num) : nat :=
  match col with
  | [] => 0%nat
  | x :: col' => idamax_from 0 (F64.fabs x) 1 col'
  end.

(** The safe minimum [dlamch('S')], 2^-1022. *)
Definition sfmin : num := Fin (Q2Qc (Qmake 1 (Z.to_pos (2 ^ 1022)))).

(** The multipliers of a column: the entries times the reciprocal of the
    pivot, or divided by it when the pivot is below the safe minimum. *)
Definition multiplier (a c : num) : num :=
  if (F64.fabs a <? sfmin)%num then F64.div c a
  else F64.mul c (F64.div one a).

(** One row of the update [A22 - A21 * A12], and the same step of the
    forward substitution on the right-hand side, which skips a zero. *)
Definition update (a : num) (ρ : list num) (β : num) (r : row) : row :=
  match r.1 with
  | c :: ρ' =>
      let l := multiplier a c in
      (zip_with (λ u y, F64.sub y (F64.mul u l)) ρ ρ',
       if Num.eqb β zero then r.2 else F64.sub r.2 (F64.mul β l))
  | [] => r
  end.

(** The backward substitution for one row: the solved unknowns are taken
    from the last to the first; a zero is skipped. *)
Definition back (ρ : list num) (x : list num) (β : num) : num :=
  foldr (λ ux acc, if Num.eqb ux.2 zero then acc
                   else F64.sub acc (F64.mul ux.2 ux.1))
        β (zip ρ x).

(** [dgetrf] with partial pivoting followed by [dgetrs], on the rows
    [(coefficients, right-hand side)].  A pivot equal to zero is the
    only error ([info > 0]). *)
Fixpoint solve_rows (n : nat) (rows : list row) : option (list num) :=
  match n with
  | O => Some []
  | S n' =>
      let p := idamax ((λ r : row, default zero (head r.1)) <$> rows) in
      match rows !! p, rows with
      | Some (a :: ρ, β), first :: _ =>
          if Num.eqb a zero then None
          else
            x ← solve_rows n' (update a ρ β <$> tail (<[p := first]> rows));
            Some (F64.div (back ρ x β) a :: x)
      | _, _ => None
      end
  end.

(** [np.linalg.solve(A, b)]: the entries are binary64 numbers. *)
Definition gesv : solver :=
  λ A b, solve_rows (length A)
           (zip ((λ r : list num, F64.round <$> r) <$> A) (F64.round <$> b)).


End Lapack.


(** * Properties of the embedding *)

(** ** Arrays, masks and [np.unique] *)

Section ListFacts.
Context {A B : Type}.

Lemma sum_nonneg (m : list bool) : 0 ≤ Np.sum m.
Proof. induction m as [|[] m IH]; simpl; lia. Qed.

Lemma sum_fmap_pos (p : A → bool) (l : list A) (x : A) :
  x ∈ l → p x = true → 1 ≤ Np.sum (p <$> l).
Proof.
  induction 1 as [x l|x y l _ IH]; intros Hp; csimpl.
  - rewrite Hp. pose proof (sum_nonneg (p <$> l)). lia.
  - specialize (IH Hp). destruct (p y); lia.
Qed.

Lemma sum_fmap_le (p q : A → bool) (l : list A) :
  (∀ x, x ∈ l → p x = true → q x = true) →
  Np.sum (p <$> l) ≤ Np.sum (q <$> l).
Proof.
  induction l as [|x l IH]; intros H; csimpl; [lia|].
  assert (Np.sum (p <$> l) ≤ Np.sum (q <$> l))
    by (apply IH; intros; apply H; [by right|done]).
  destruct (p x) eqn:Hp; [rewrite (H x) by (done || left)|destruct (q x)]; lia.
Qed.

Lemma mask_and_fmap (p q : A → bool) (l : list A) :
  Np.mask_and (p <$> l) (q <$> l) = (λ x, p x && q x) <$> l.
Proof. unfold Np.mask_and. induction l; csimpl; [done|by f_equal]. Qed.

Lemma select_fmap (f : A → B) (p : A → bool) (l : list A) :
  Np.select (f <$> l) (p <$> l) = f <$> filter (λ x, p x = true) l.
Proof.
  induction l as [|x l IH]; [done|]. csimpl. rewrite filter_cons.
  destruct (p x) eqn:Hp; csimpl; [by f_equal|done].
Qed.

(** A loop that only alters row [i] is one alteration of row [i]. *)
Lemma foldl_alter_same (h : B → A → A) (i : nat) (ys : list B) (v : list A) :
  foldl (λ v y, alter (h y) i v) v ys
  = alter (λ r, foldl (λ r y, h y r) r ys) i v.
Proof.
  revert v. induction ys as [|y ys IH]; intros v; simpl.
  - symmetry. by apply list_alter_id.
  - rewrite IH, list_alter_alter_eq. done.
Qed.

(** A loop over [enumerate(xs)] that alters entry [j] at step [j] applies
    one function to every entry. *)
Lemma foldl_alter_enum_from (F : nat → B → A → A) (xs : list B) :
  ∀ (k : nat) (pre v : list A),
    length v = length xs → length pre = k →
    foldl (λ v jx, alter (F jx.1 jx.2) jx.1 v) (pre ++ v)
          (imap (λ j x, (k + j, x)%nat) xs)
    = pre ++ zip_with (λ a h, h a) v (imap (λ j x, F (k + j)%nat x) xs).
Proof.
  induction xs as [|x xs IH]; intros k pre v Hv Hpre.
  - destruct v; [done|discriminate].
  - destruct v as [|a v]; [discriminate|].
    rewrite !imap_cons. simpl.
    rewrite alter_app_r_alt by lia.
    replace (k + 0 - length pre)%nat with 0%nat by lia. simpl.
    rewrite (cons_middle _ pre v), app_assoc.
    rewrite (imap_ext _ (λ j x, (S k + j, x)%nat))
      by (intros; simpl; f_equal; lia).
    rewrite IH; [|simpl in Hv; lia|rewrite length_app; simpl; lia].
    rewrite <-app_assoc. simpl. do 3 f_equal.
    apply imap_ext. intros; simpl. f_equal. lia.
Qed.

Lemma foldl_alter_enum (F : nat → B → A → A) (xs : list B) (v : list A) :
  length v = length xs →
  foldl (λ v jx, alter (F jx.1 jx.2) jx.1 v) v (Np.enumerate xs)
  = zip_with (λ a h, h a) v (imap F xs).
Proof.
  intros Hv. pose proof (foldl_alter_enum_from F xs 0 [] v Hv eq_refl) as H.
  simpl in H. exact H.
Qed.
End ListFacts.

Lemma foldl_pair {A B C} (f : C → A → A) (g : C → B → B) (ys : list C) a b :
foldl (λ st y, (f y st.1, g y st.2)) (a, b) ys
= (foldl (λ a y, f y a) a ys, foldl (λ b y, g y b) b ys).
Proof. revert a b. induction ys as [|y ys IH]; intros; simpl; [done|apply IH]. Qed.

Lemma foldl_ext_in {A B} (f g : A → B → A) (l : list B) (a : A) :
(∀ a x, x ∈ l → f a x = g a x) → foldl f a l = foldl g a l.
Proof.
revert a. induction l as [|x l IH]; intros a H; simpl; [done|].
rewrite H by left. apply IH. intros; apply H. by right.
Qed.

(** [np.unique] returns the entries of its argument, strictly ascending. *)
Section UniqueFacts.
Context {A : Type} (lt : A → A → Prop).
Context `{!EqDecision A} `{!RelDecision lt}.
Context `{!StrictOrder lt} `{!Trichotomy lt}.

Lemma elem_of_uinsert (x y : A) (l : list A) :
y ∈ Np.uinsert lt x l ↔ y = x ∨ y ∈ l.
Proof.
induction l as [|z l IH]; simpl.
- rewrite list_elem_of_singleton. set_solver.
- repeat case_decide; subst; set_solver.
Qed.

Lemma elem_of_unique (y : A) (l : list A) : y ∈ Np.unique lt l ↔ y ∈ l.
Proof.
unfold Np.unique. induction l as [|x l IH]; simpl; [done|].
rewrite elem_of_uinsert, IH. set_solver.
Qed.

Lemma uinsert_sorted (x : A) (l : list A) :
StronglySorted lt l → StronglySorted lt (Np.uinsert lt x l).
Proof.
induction 1 as [|z l Hl IH Hz]; simpl.
- repeat constructor.
- repeat case_decide; subst.
  + by constructor.
  + constructor; [by constructor|]. constructor; [done|].
    eapply Forall_impl; [exact Hz|]. intros w Hw. by etrans.
  + constructor; [done|]. apply Forall_forall. intros w Hw.
    apply elem_of_uinsert in Hw as [->|Hw].
    * destruct (trichotomy lt x z) as [?|[?|?]]; done.
    * rewrite Forall_forall in Hz. auto.
Qed.

Lemma unique_sorted (l : list A) : StronglySorted lt (Np.unique lt l).
Proof.
unfold Np.unique. induction l; simpl; [constructor|by apply uinsert_sorted].
Qed.

Lemma sorted_NoDup (l : list A) : StronglySorted lt l → NoDup l.
Proof.
induction 1 as [|z l Hl IH Hz]; constructor; [|done].
intros Hin. rewrite Forall_forall in Hz.
by apply (irreflexivity lt z), Hz.
Qed.

Lemma unique_NoDup (l : list A) : NoDup (Np.unique lt l).
Proof. apply sorted_NoDup, unique_sorted. Qed.

(** Two strictly ascending lists with the same entries are equal. *)
Lemma sorted_same_elements (l1 l2 : list A) :
StronglySorted lt l1 → StronglySorted lt l2 →
(∀ x, x ∈ l1 ↔ x ∈ l2) → l1 = l2.
Proof.
intros H1 H2 Hel. apply (StronglySorted_unique_strong lt); [|done..|].
- intros x1 x2 _ _ Ha Hb. destruct (irreflexivity lt x1). by etrans.
- apply NoDup_Permutation; auto using sorted_NoDup.
Qed.

Lemma unique_same_elements (l1 l2 : list A) :
(∀ x, x ∈ l1 ↔ x ∈ l2) → Np.unique lt l1 = Np.unique lt l2.
Proof.
intros H. apply sorted_same_elements; auto using unique_sorted.
intros x. by rewrite !elem_of_unique.
Qed.
End UniqueFacts.

#[global] Instance Qclt_trichotomy : Trichotomy Qclt.
Proof.
intros x y. destruct (Qc_dec x y) as [[?|?]|?]; auto.
Qed.

#[global] Instance Zlt_trichotomy : Trichotomy Z.lt.
Proof. intros x y. lia. Qed.


(** ** The columns of a cohort and its observation triples *)

Section Bridge.
Import LogRank LogRankSpec LoopSums.

Lemma cohort_length d e g :
  length d = length e → length e = length g →
  length (cohort d e g) = length d.
Proof.
  intros Hde Heg. unfold cohort.
  rewrite length_zip_with_l_eq; [done|]. rewrite length_zip. lia.
Qed.

Lemma duration_cohort d e g :
  length d = length e → length e = length g → duration <$> cohort d e g = d.
Proof.
  revert e g. induction d as [|x d IH]; intros [|y e] [|z g] ??;
    simplify_eq/=; [done|]. f_equal. by apply IH.
Qed.

Lemma event_cohort d e g :
  length d = length e → length e = length g → event <$> cohort d e g = e.
Proof.
  revert e g. induction d as [|x d IH]; intros [|y e] [|z g] ??;
    simplify_eq/=; [done|]. f_equal. by apply IH.
Qed.

Lemma group_cohort d e g :
  length d = length e → length e = length g → group <$> cohort d e g = g.
Proof.
  revert e g. induction d as [|x d IH]; intros [|y e] [|z g] ??;
    simplify_eq/=; [done|]. f_equal. by apply IH.
Qed.

Lemma event_times_cohort d e g :
  length d = length e → length e = length g →
  event_times d e = distinct_event_times (cohort d e g).
Proof.
  unfold event_times, distinct_event_times. intros Hde Heg. f_equal.
  revert e g Hde Heg.
  induction d as [|x d' IH]; intros [|y e'] [|z g'] ??; simplify_eq/=;
    [done|].
  change (cohort (x :: d') (y :: e') (z :: g'))
    with (Obs x y z :: cohort d' e' g').
  rewrite filter_cons. simpl. case_bool_decide; case_decide; try done.
  - csimpl. f_equal. by apply IH.
  - by apply IH.
Qed.

Context (d : list Qc) (e g : list Z).
Context (Hde : length d = length e) (Heg : length e = length g).

Lemma at_risk_mask_cohort t :
  at_risk_mask d t = is_at_risk t <$> cohort d e g.
Proof.
  unfold at_risk_mask. rewrite <-(duration_cohort d e g) at 1 by done.
  by rewrite <-list_fmap_compose.
Qed.

Lemma events_at_mask_cohort t :
  events_at_mask d e t = is_event_at t <$> cohort d e g.
Proof.
  unfold events_at_mask.
  rewrite <-(duration_cohort d e g) at 1 by done.
  rewrite <-(event_cohort d e g) at 2 by done.
  rewrite <-!list_fmap_compose. apply mask_and_fmap.
Qed.

Lemma group_mask_cohort h :
  group_mask g h = in_group h <$> cohort d e g.
Proof.
  unfold group_mask. rewrite <-(group_cohort d e g) at 1 by done.
  by rewrite <-list_fmap_compose.
Qed.

Lemma n_at_risk_cohort t :
  Np.sum (at_risk_mask d t) = at_risk_overall (cohort d e g) t.
Proof. by rewrite at_risk_mask_cohort. Qed.

Lemma n_events_cohort t :
  Np.sum (events_at_mask d e t) = events_overall (cohort d e g) t.
Proof. by rewrite events_at_mask_cohort. Qed.

Lemma n_group_at_risk_cohort t h :
  Np.sum (Np.mask_and (at_risk_mask d t) (group_mask g h))
  = at_risk_in (cohort d e g) h t.
Proof. by rewrite at_risk_mask_cohort, group_mask_cohort, mask_and_fmap. Qed.

Lemma observed_cohort t h :
  Np.sum (Np.mask_and (events_at_mask d e t) (group_mask g h))
  = events_in (cohort d e g) h t.
Proof. by rewrite events_at_mask_cohort, group_mask_cohort, mask_and_fmap. Qed.

Lemma unique_groups_cohort :
  Np.unique_Z g = distinct_groups (cohort d e g).
Proof. unfold distinct_groups. by rewrite group_cohort. Qed.
End Bridge.

(** ** Every time of the loop has an event and a subject at risk *)

Section RiskSets.
Import LogRankSpec.
Context (c : list observation).

Lemma elem_of_distinct_event_times t :
t ∈ distinct_event_times c ↔ ∃ o, o ∈ c ∧ duration o = t ∧ event o = 1.
Proof.
unfold distinct_event_times, Np.unique_Qc.
rewrite elem_of_unique by apply _. rewrite list_elem_of_fmap.
setoid_rewrite list_elem_of_filter. naive_solver.
Qed.

Lemma elem_of_distinct_groups h :
h ∈ distinct_groups c ↔ ∃ o, o ∈ c ∧ group o = h.
Proof.
unfold distinct_groups, Np.unique_Z.
rewrite elem_of_unique by apply _. rewrite list_elem_of_fmap. naive_solver.
Qed.

Lemma distinct_event_times_sorted :
StronglySorted Qclt (distinct_event_times c).
Proof. apply unique_sorted; apply _. Qed.

Lemma distinct_groups_sorted : StronglySorted Z.lt (distinct_groups c).
Proof. apply unique_sorted; apply _. Qed.

Lemma distinct_groups_NoDup : NoDup (distinct_groups c).
Proof. apply unique_NoDup; apply _. Qed.

Lemma events_overall_pos t :
t ∈ distinct_event_times c → 1 ≤ events_overall c t.
Proof.
intros (o & Ho & Hd & He)%elem_of_distinct_event_times.
apply (sum_fmap_pos _ _ o); [done|].
unfold is_event_at. by rewrite !bool_decide_eq_true_2.
Qed.

Lemma events_le_at_risk t : events_overall c t ≤ at_risk_overall c t.
Proof.
apply sum_fmap_le. intros o _. unfold is_event_at, is_at_risk.
intros [Hd _]%andb_prop. apply bool_decide_eq_true in Hd.
apply bool_decide_eq_true. rewrite Hd. apply Qcle_refl.
Qed.

Lemma at_risk_overall_pos t :
t ∈ distinct_event_times c → 1 ≤ at_risk_overall c t.
Proof.
intros Ht. pose proof (events_overall_pos t Ht).
pose proof (events_le_at_risk t). lia.
Qed.
End RiskSets.


(** ** The loops of [calculate_logrank] in closed form *)

Section Loops.
Import LogRank LogRankSpec LoopSums LoopTerms.

Lemma zip_with_apply_add (r : list num) {B} (f : nat → B → num) (xs : list B) :
  zip_with (λ a h, h a) r (imap (λ j x a, a + f j x)%num xs)
  = vec_add r (imap f xs).
Proof.
  unfold vec_add.
  rewrite (imap_ext _ (λ j, (λ y a, a + y)%num ∘ f j)) by done.
  rewrite <-fmap_imap, zip_with_fmap_r. done.
Qed.

(** The loop over [j] adds one term to every entry of a row. *)
Lemma row_loop (f : nat → Z → num) (gs : list Z) (r : list num) :
  length r = length gs →
  foldl (λ r jg, Np.iadd jg.1 (f jg.1 jg.2) r) r (Np.enumerate gs)
  = vec_add r (imap f gs).
Proof.
  intros Hr. unfold Np.iadd.
  rewrite (foldl_alter_enum (λ j x a, a + f j x)%num gs r Hr).
  apply zip_with_apply_add.
Qed.

Lemma loop_j_fold groups at_risk n N_g factor i gs (V : matrix) :
  foldl (loop_j groups at_risk n N_g factor i) V (Np.enumerate gs)
  = alter (λ r, foldl (λ r jg,
                         Np.iadd jg.1
                           (term_j groups at_risk n N_g factor i jg.1 jg.2) r)
                      r (Np.enumerate gs)) i V.
Proof.
  rewrite <-(foldl_alter_same
    (λ jg, Np.iadd jg.1 (term_j groups at_risk n N_g factor i jg.1 jg.2))).
  apply foldl_ext_in. intros W [j gj] _. unfold loop_j, term_j, Np.iadd2.
  simpl. case_decide; subst; done.
Qed.

Lemma zip_with_apply_rows (V : matrix) (gs : list Z)
    (F : nat → Z → list num → list num) (R : nat → Z → list num) :
  (∀ i g r, r ∈ V → F i g r = vec_add r (R i g)) →
  zip_with (λ a h, h a) V (imap F gs) = mat_add V (imap R gs).
Proof.
  unfold mat_add. revert gs F R.
  induction V as [|r V IH]; intros [|g gs] F R H; try done.
  rewrite !imap_cons. simpl. f_equal.
  - apply H. left.
  - apply IH. intros i g' r' Hr'. apply H. by right.
Qed.

(** The loop over [i] adds one term to every entry of [O_E] and one row
    of terms to every row of [V]. *)
Lemma loop_i_fold groups gs at_risk events_at_t n_events n_at_risk
    (O_E : list num) (V : matrix) :
  length O_E = length gs → length V = length gs →
  Forall (λ r, length r = length gs) V →
  foldl (loop_i groups gs at_risk events_at_t n_events n_at_risk)
        (O_E, V) (Np.enumerate gs)
  = (vec_add O_E (term_i groups at_risk events_at_t n_events n_at_risk <$> gs),
     mat_add V (imap (row_i groups gs at_risk n_events n_at_risk) gs)).
Proof.
  intros HO HV Hrows.
  set (fO := λ ig : nat * Z,
         Np.iadd ig.1 (term_i groups at_risk events_at_t n_events n_at_risk ig.2)).
  set (F := λ (i : nat) (group : Z) (r : list num),
         foldl (λ r jg,
                  Np.iadd jg.1
                    (term_j groups at_risk n_at_risk
                       (Np.sum (Np.mask_and at_risk (group_mask groups group)))
                       (variance_factor n_events n_at_risk) i jg.1 jg.2) r)
               r (Np.enumerate gs)).
  set (fV := λ (ig : nat * Z) (W : matrix), alter (F ig.1 ig.2) ig.1 W).
  rewrite (foldl_ext_in _ (λ st ig, (fO ig st.1, fV ig st.2))).
  2:{ intros [O W] [i group] _. unfold loop_i. rewrite loop_j_fold. done. }
  rewrite foldl_pair. f_equal.
  - unfold fO.
    rewrite (row_loop (λ _ g, term_i groups at_risk events_at_t
                                 n_events n_at_risk g) gs O_E HO).
    f_equal. apply (imap_const (term_i groups at_risk events_at_t
                                   n_events n_at_risk)).
  - unfold fV. cbv beta. rewrite (foldl_alter_enum F gs V HV).
    apply zip_with_apply_rows. intros i g r Hr.
    unfold F, row_i. apply row_loop.
    rewrite Forall_forall in Hrows. by apply Hrows.
Qed.
End Loops.


(** ** [calculate_logrank] computes the log-rank test of the specification *)

Section Refinement.
Import LogRank LogRankSpec LoopSums LoopTerms.

Lemma imap_diag_NoDup {C} (gs : list Z) (a : Z → C) (b : Z → Z → C) :
  NoDup gs →
  imap (λ i g, imap (λ j h, if decide (i = j) then a g else b g h) gs) gs
  = (λ g, (λ h, if decide (g = h) then a g else b g h) <$> gs) <$> gs.
Proof.
  intros Hnd. apply list_eq; intros i.
  rewrite list_lookup_imap, list_lookup_fmap.
  destruct (gs !! i) as [g|] eqn:Hi; simpl; [|done]. f_equal.
  apply list_eq; intros j. rewrite list_lookup_imap, list_lookup_fmap.
  destruct (gs !! j) as [h|] eqn:Hj; simpl; [|done]. f_equal.
  repeat case_decide; subst; try done.
  - congruence.
  - destruct H. by eapply NoDup_lookup.
Qed.

Lemma vec_add_fmap {C} (a b : C → num) (l : list C) :
  vec_add (a <$> l) (b <$> l) = (λ x, a x + b x)%num <$> l.
Proof.
  unfold vec_add. rewrite zip_with_fmap_l, zip_with_fmap_r.
  apply zip_with_diag.
Qed.

Lemma mat_add_fmap {C} (A B : C → C → num) (l : list C) :
  mat_add ((λ x, A x <$> l) <$> l) ((λ x, B x <$> l) <$> l)
  = (λ x, (λ y, A x y + B x y)%num <$> l) <$> l.
Proof.
  unfold mat_add. rewrite zip_with_fmap_l, zip_with_fmap_r, zip_with_diag.
  apply list_fmap_ext. intros _ x _. apply vec_add_fmap.
Qed.


Context (d : list Qc) (e g : list Z).
Context (Hde : length d = length e) (Heg : length e = length g).

Let c := cohort d e g.
Let gs := distinct_groups c.

(** One pass of the loop over the times, at a time of the loop. *)
Lemma loop_t_closed (a : Z → num) (A : Z → Z → num) (t : Qc) :
  t ∈ distinct_event_times c →
  loop_t d e g gs (a <$> gs, (λ x, A x <$> gs) <$> gs) t
  = ((λ x, a x + observed_minus_expected_at c x t)%num <$> gs,
     (λ x, (λ y, A x y + variance_at c x y t)%num <$> gs) <$> gs).
Proof.
  intros Ht. unfold loop_t.
  rewrite (n_events_cohort d e g Hde Heg), (n_at_risk_cohort d e g Hde Heg).
  fold c. pose proof (events_overall_pos c t Ht).
  pose proof (at_risk_overall_pos c t Ht).
  rewrite decide_False by lia.
  rewrite loop_i_fold.
  2,3: by rewrite !length_fmap.
  2:{ apply Forall_fmap, Forall_forall. intros x _. simpl.
      by rewrite length_fmap. }
  f_equal.
  - rewrite vec_add_fmap. apply list_fmap_ext. intros _ x _.
    unfold term_i, observed_minus_expected_at.
    rewrite (observed_cohort d e g Hde Heg),
      (n_group_at_risk_cohort d e g Hde Heg). done.
  - rewrite <-mat_add_fmap. f_equal. unfold row_i, term_j.
    rewrite (imap_diag_NoDup gs
      (λ x, of_Z (Np.int64
                    (Np.sum (Np.mask_and (at_risk_mask d t) (group_mask g x))
                     * (at_risk_overall c t
                        - Np.sum (Np.mask_and (at_risk_mask d t)
                                    (group_mask g x)))))
            * variance_factor (events_overall c t) (at_risk_overall c t))%num
      (λ x y, of_Z (Np.int64
                      (- Np.sum (Np.mask_and (at_risk_mask d t) (group_mask g x))
                       * Np.sum (Np.mask_and (at_risk_mask d t)
                                   (group_mask g y))))
              * variance_factor (events_overall c t) (at_risk_overall c t))%num)
      by apply distinct_groups_NoDup.
    apply list_fmap_ext. intros _ x _. apply list_fmap_ext. intros _ y _.
    unfold variance_at, hypergeometric_factor, variance_factor.
    rewrite !(n_group_at_risk_cohort d e g Hde Heg). done.
Qed.

Lemma loop_t_fold (ts : list Qc) :
  ∀ (a : Z → num) (A : Z → Z → num),
    (∀ t, t ∈ ts → t ∈ distinct_event_times c) →
    foldl (loop_t d e g gs) (a <$> gs, (λ x, A x <$> gs) <$> gs) ts
    = ((λ x, foldl (λ acc t, acc + observed_minus_expected_at c x t)%num
                   (a x) ts) <$> gs,
       (λ x, (λ y, foldl (λ acc t, acc + variance_at c x y t)%num
                        (A x y) ts) <$> gs) <$> gs).
Proof.
  induction ts as [|t ts IH]; intros a A Hts; [done|].
  simpl. rewrite loop_t_closed by (apply Hts; left).
  rewrite (IH (λ x, a x + observed_minus_expected_at c x t)%num
              (λ x y, A x y + variance_at c x y t)%num); [done|].
  intros; apply Hts. by right.
Qed.

(** The accumulated [O_E] and [V], entry by entry. *)
Lemma accumulate_closed :
  accumulate d e g
  = (observed_minus_expected c <$> gs,
     (λ x, variance c x <$> gs) <$> gs).
Proof.
  unfold accumulate.
  rewrite (event_times_cohort d e g Hde Heg),
    (unique_groups_cohort d e g Hde Heg).
  fold c gs.
  replace (Np.zeros (length gs)) with ((λ _ : Z, zero) <$> gs).
  2:{ unfold Np.zeros. by apply const_fmap. }
  replace (Np.zeros2 (length gs) (length gs))
    with ((λ _ : Z, (λ _ : Z, zero) <$> gs) <$> gs).
  2:{ unfold Np.zeros2, Np.zeros. apply const_fmap. intros _ _ _.
      by apply const_fmap. }
  by rewrite loop_t_fold.
Qed.
End Refinement.


(** C2, on the code.  With durations 1 and 2, both events, in two groups, the
  loop reaches t = 2 with one event and one subject at risk.  The guard
  only tests for zero, so the pass is not skipped: the factor is 0 / 0 and
  every entry of V becomes NaN. *)
Lemma calculate_logrank_zero_by_zero :
let d := qc <$> [1; 2] in
let e := [1; 1] in
let g := [0; 1] in
LogRank.event_times d e = qc <$> [1; 2]
∧ Np.sum (LogRank.events_at_mask d e (qc 2)) = 1
∧ Np.sum (LogRank.at_risk_mask d (qc 2)) = 1
∧ LogRank.variance_factor 1 1 = NaN
∧ LogRank.accumulate d e g
  = ([Fin (1 / 2)%Qc; Fin (- (1 / 2))%Qc], [[NaN; NaN]; [NaN; NaN]])
∧ LogRank.calculate_logrank Lib.linalg_solve Lib.chi2_sf d e g = (NaN, NaN).
Proof. repeat split; compute_done. Qed.


(** ** Comparisons of floating-point values *)

Section NumOrder.
Lemma ltb_Fin (a b : Qc) : (Fin a <? Fin b)%num = true ↔ (a < b)%Qc.
Proof. simpl. apply bool_decide_eq_true. Qed.

Lemma ltb_irrefl (x : num) : (x <? x)%num = false.
Proof.
  destruct x; simpl; try done. apply bool_decide_eq_false.
  apply (irreflexivity Qclt).
Qed.

Lemma ltb_trans (x y z : num) :
  (x <? y)%num = true → (y <? z)%num = true → (x <? z)%num = true.
Proof.
  destruct x, y, z; simpl; try done.
  rewrite !bool_decide_eq_true. apply Qclt_trans.
Qed.

Lemma ltb_asym (x y : num) :
  (x <? y)%num = true → (y <? x)%num = false.
Proof.
  intros H. destruct (y <? x)%num eqn:H'; [|done].
  pose proof (ltb_trans _ _ _ H H') as Hxx. by rewrite ltb_irrefl in Hxx.
Qed.

(** On numbers, [¬ (y < m)] and [x < m] give [x < y]. *)
Lemma ltb_Fin_total (a b : Qc) :
  (Fin a <? Fin b)%num = false → (Fin b <? Fin a)%num = true ∨ a = b.
Proof.
  simpl. rewrite bool_decide_eq_false, bool_decide_eq_true.
  intros H%Qcnot_lt_le. destruct (Qcle_lt_or_eq _ _ H); auto.
Qed.

Lemma ltb_below (x m : num) (b : Qc) :
  (x <? m)%num = true → (Fin b <? m)%num = false → (x <? Fin b)%num = true.
Proof.
  destruct x as [a| | |], m as [c| | |]; simpl; try done.
  rewrite !bool_decide_eq_true, bool_decide_eq_false.
  intros H1 H2%Qcnot_lt_le. by eapply Qclt_le_trans.
Qed.
End NumOrder.

(** ** A scan that keeps the first strict minimum *)

Section Scan.
Context (valid : num → bool) (pv : num → num).
Notation scan_step := (Threshold.scan_step valid pv).

Lemma scan_result (cs : list num) :
(∀ c, c ∈ cs → valid c = true → ∃ q, pv c = Fin q) →
∀ (m0 t0 : num),
  let r := foldl scan_step (m0, t0) cs in
  (r = (m0, t0)
   ∧ ∀ c, c ∈ cs → valid c = true → (pv c <? m0)%num = false)
  ∨ (∃ k c,
       cs !! k = Some c ∧ valid c = true ∧ r = (pv c, c)
       ∧ (pv c <? m0)%num = true
       ∧ (∀ j c', cs !! j = Some c' → valid c' = true →
                  (pv c' <? pv c)%num = false)
       ∧ (∀ j c', (j < k)%nat → cs !! j = Some c' → valid c' = true →
                  (pv c <? pv c')%num = true)).
Proof.
induction cs as [|c cs IH]; intros Hfin m0 t0; simpl.
{ left. split; [done|]. intros c Hc. by apply elem_of_nil in Hc. }
assert (∀ c', c' ∈ cs → valid c' = true → ∃ q, pv c' = Fin q) as Hfin'
  by (intros; apply Hfin; [by right|done]).
change (scan_step (m0, t0) c)
  with (if valid c then (if (pv c <? m0)%num then (pv c, c) else (m0, t0))
        else (m0, t0)).
destruct (valid c) eqn:Hv; [destruct (pv c <? m0)%num eqn:Hlt|].
- (* the head improves on [m0] *)
  destruct (IH Hfin' (pv c) c) as [[Hr Hno]|(k & c' & Hk & Hv' & Hr & Hlt' & Hmin & Hfirst)].
  + right. exists 0%nat, c. split_and!; [done..| |].
    * intros [|j] c' Hj Hv'; simplify_eq/=; [apply ltb_irrefl|].
      apply Hno; [by eapply list_elem_of_lookup_2|done].
    * intros j c' Hj. lia.
  + right. exists (S k), c'. split_and!; [done..| | |].
    * by eapply ltb_trans.
    * intros [|j] c'' Hj Hv''; simplify_eq/=; [by apply ltb_asym|].
      by eapply Hmin.
    * intros [|j] c'' Hjk Hj Hv''; simplify_eq/=; [done|].
      eapply Hfirst; [|done..]. lia.
- (* the head is valid but does not improve *)
  destruct (Hfin c) as [q Hq]; [left|done|].
  destruct (IH Hfin' m0 t0) as [[Hr Hno]|(k & c' & Hk & Hv' & Hr & Hlt' & Hmin & Hfirst)].
  + left. split; [done|]. intros c' [->|Hc']%elem_of_cons Hv'; auto.
  + right. exists (S k), c'. split_and!; [done..| |].
    * intros [|j] c'' Hj Hv''; simplify_eq/=; [|by eapply Hmin].
      destruct (pv c'' <? pv c')%num eqn:Hcc; [|done].
      pose proof (ltb_trans _ _ _ Hcc Hlt') as Hx. congruence.
    * intros [|j] c'' Hjk Hj Hv''; simplify_eq/=.
      -- rewrite Hq. eapply ltb_below; [done|]. by rewrite <-Hq.
      -- eapply Hfirst; [|done..]. lia.
- (* the head is skipped *)
  destruct (IH Hfin' m0 t0) as [[Hr Hno]|(k & c' & Hk & Hv' & Hr & Hlt' & Hmin & Hfirst)].
  + left. split; [done|]. intros c' [->|Hc']%elem_of_cons Hv'; [congruence|auto].
  + right. exists (S k), c'. split_and!; [done..| |].
    * intros [|j] c'' Hj Hv''; simplify_eq/=; [congruence|by eapply Hmin].
    * intros [|j] c'' Hjk Hj Hv''; simplify_eq/=; [congruence|].
      eapply Hfirst; [|done..]. lia.
Qed.

(** Whatever the p-values are, the scan returns its default or one of the
  valid candidates. *)
Lemma scan_result_elem (cs : list num) (m0 t0 : num) :
(foldl scan_step (m0, t0) cs).2 = t0
∨ ∃ c, c ∈ cs ∧ valid c = true ∧ (foldl scan_step (m0, t0) cs).2 = c.
Proof.
revert m0 t0. induction cs as [|c cs IH]; intros m0 t0; simpl; [by left|].
change (scan_step (m0, t0) c)
  with (if valid c then (if (pv c <? m0)%num then (pv c, c) else (m0, t0))
        else (m0, t0)).
destruct (valid c) eqn:Hv; [destruct (pv c <? m0)%num|].
- destruct (IH (pv c) c) as [->|(c' & ? & ? & ->)].
  + right. exists c. split; [left|done].
  + right. exists c'. split; [by right|done].
- destruct (IH m0 t0) as [->|(c' & ? & ? & ->)]; [by left|].
  right. exists c'. split; [by right|done].
- destruct (IH m0 t0) as [->|(c' & ? & ? & ->)]; [by left|].
  right. exists c'. split; [by right|done].
Qed.
End Scan.


(** ** Order statistics *)

Section OrderStatistics.
Import Stats.
Local Open Scope Qc_scope.

Lemma sort_sorted (l : list Qc) : StronglySorted Qcle (sort l).
Proof. apply StronglySorted_merge_sort; apply _. Qed.

Lemma sort_length (l : list Qc) : length (sort l) = length l.
Proof. unfold sort. by rewrite merge_sort_Permutation. Qed.

Lemma at_index_mono (a : list Qc) :
  StronglySorted Qcle a →
  ∀ i j : nat, (i ≤ j)%nat → (j < length a)%nat → at_index a i ≤ at_index a j.
Proof.
  unfold at_index. induction 1 as [|x a Ha IH Hx]; intros i j Hij Hj.
  { simpl in Hj. lia. }
  destruct i as [|i], j as [|j]; simpl in *; try lia.
  - apply Qcle_refl.
  - rewrite Forall_forall in Hx. apply Hx.
    apply list_elem_of_In, nth_In. lia.
  - apply IH; lia.
Qed.

(** Linear interpolation between two ordered values stays between them
    and grows with the weight. *)
Lemma lerp_bounds (x y γ : Qc) :
  x ≤ y → 0 ≤ γ → γ ≤ 1 → x ≤ x + γ * (y - x) ∧ x + γ * (y - x) ≤ y.
Proof.
  intros Hxy H0 H1.
  assert (0 ≤ y - x) as Hd.
  { apply (Qcplus_le_mono_r _ _ x). by ring_simplify. }
  split.
  - rewrite <-(Qcplus_0_r x) at 1. apply Qcplus_le_mono_l.
    by apply Qcmult_nonneg_nonneg.
  - replace y with (x + 1 * (y - x)) at 2 by ring.
    apply Qcplus_le_mono_l. by apply Qcmult_le_mono_nonneg_r.
Qed.

Lemma lerp_mono (x y γ1 γ2 : Qc) :
  x ≤ y → γ1 ≤ γ2 → x + γ1 * (y - x) ≤ x + γ2 * (y - x).
Proof.
  intros Hxy Hγ. apply Qcplus_le_mono_l. apply Qcmult_le_mono_nonneg_r; [|done].
  apply (Qcplus_le_mono_r _ _ x). by ring_simplify.
Qed.

Lemma percentile_Fin (values : list Qc) (q : Z) :
  values ≠ [] → percentile values q = Fin (percentile_value values q).
Proof.
  intros Hne. unfold percentile, percentile_value.
  rewrite decide_False; [done|]. rewrite sort_length. by destruct values.
Qed.

Lemma Qc_of_Z_le (n m : Z) : (n ≤ m)%Z → Qc_of_Z n ≤ Qc_of_Z m.
Proof. apply (proj1 (Z2Qc_inj_le n m)). Qed.

Lemma Qc_of_Z_nonneg (n : Z) : (0 ≤ n)%Z → 0 ≤ Qc_of_Z n.
Proof. rewrite <-Z2Qc_inj_0. apply Qc_of_Z_le. Qed.

Lemma Qc_of_Z_pos (n : Z) : (0 < n)%Z → 0 < Qc_of_Z n.
Proof. rewrite <-Z2Qc_inj_0. apply (proj1 (Z2Qc_inj_lt 0 n)). Qed.

Lemma Qc_of_Z_nonzero (n : Z) : n ≠ 0%Z → Qc_of_Z n ≠ 0.
Proof. rewrite <-Z2Qc_inj_0. intros Hn ?%Z2Qc_inj. done. Qed.

Lemma fraction_bounds (r : Z) :
  (0 ≤ r < 100)%Z → 0 ≤ Qc_of_Z r / Qc_of_Z 100 ∧ Qc_of_Z r / Qc_of_Z 100 ≤ 1.
Proof.
  intros Hr.
  assert (0 < / Qc_of_Z 100) as Hinv
    by (apply Qcinv_pos, Qc_of_Z_pos; lia).
  split.
  - apply Qcmult_nonneg_nonneg; [|by apply Qclt_le_weak].
    apply Qc_of_Z_nonneg. lia.
  - replace 1 with (Qc_of_Z 100 / Qc_of_Z 100)
      by (apply Qcmult_inv_r, Qc_of_Z_nonzero; lia).
    apply Qcmult_le_mono_nonneg_r; [by apply Qclt_le_weak|].
    apply Qc_of_Z_le. lia.
Qed.

Lemma fraction_mono (r1 r2 : Z) :
  (r1 ≤ r2)%Z → Qc_of_Z r1 / Qc_of_Z 100 ≤ Qc_of_Z r2 / Qc_of_Z 100.
Proof.
  intros Hr. apply Qcmult_le_mono_nonneg_r; [|by apply Qc_of_Z_le].
  apply Qclt_le_weak, Qcinv_pos, Qc_of_Z_pos. lia.
Qed.

(** [percentile] does not decrease with the requested rank. *)
Lemma percentile_value_mono (values : list Qc) (q1 q2 : Z) :
  values ≠ [] → (0 ≤ q1)%Z → (q1 ≤ q2)%Z → (q2 ≤ 100)%Z →
  percentile_value values q1 ≤ percentile_value values q2.
Proof.
  intros Hne H0 H12 H100. unfold percentile_value.
  pose proof (sort_sorted values) as Hs.
  assert (length (sort values) ≠ 0%nat) as Hn
    by (rewrite sort_length; by destruct values).
  set (a := sort values) in *. set (n := length a) in *.
  set (s1 := ((Z.of_nat n - 1) * q1)%Z). set (s2 := ((Z.of_nat n - 1) * q2)%Z).
  assert (0 ≤ s1 ≤ s2)%Z as Hs12 by (unfold s1, s2; nia).
  assert (s2 ≤ (Z.of_nat n - 1) * 100)%Z as Hs2 by (unfold s2; nia).
  pose proof (Z.div_mod s1 100 ltac:(lia)) as E1.
  pose proof (Z.div_mod s2 100 ltac:(lia)) as E2.
  pose proof (Z.mod_pos_bound s1 100 ltac:(lia)) as B1.
  pose proof (Z.mod_pos_bound s2 100 ltac:(lia)) as B2.
  set (l1 := (s1 / 100)%Z) in *. set (l2 := (s2 / 100)%Z) in *.
  set (r1 := (s1 mod 100)%Z) in *. set (r2 := (s2 mod 100)%Z) in *.
  assert (0 ≤ l1 ≤ l2 ∧ l2 ≤ Z.of_nat n - 1)%Z as [Hl12 Hl2] by lia.
  pose proof (fraction_bounds r1 B1) as [G10 G11].
  pose proof (fraction_bounds r2 B2) as [G20 G21].
  set (lo1 := Z.to_nat l1). set (lo2 := Z.to_nat l2).
  set (hi1 := ((lo1 + 1) `min` (n - 1))%nat).
  set (hi2 := ((lo2 + 1) `min` (n - 1))%nat).
  assert (at_index a lo1 ≤ at_index a hi1) as A1
    by (apply at_index_mono; [done|lia..]).
  assert (at_index a lo2 ≤ at_index a hi2) as A2
    by (apply at_index_mono; [done|lia..]).
  destruct (decide (l1 = l2)) as [Heq|Hneq].
  - assert (lo1 = lo2) as -> by (unfold lo1, lo2; by rewrite Heq).
    apply lerp_mono; [done|]. apply fraction_mono. lia.
  - pose proof (lerp_bounds _ _ _ A1 G10 G11) as [_ U1].
    pose proof (lerp_bounds _ _ _ A2 G20 G21) as [L2 _].
    assert (at_index a hi1 ≤ at_index a lo2) as Hmid
      by (apply at_index_mono; [done|lia..]).
    eapply Qcle_trans; [exact U1|]. eapply Qcle_trans; [exact Hmid|exact L2].
Qed.

(** [np.median] is the 50th percentile. *)
Lemma median_percentile_50 (values : list Qc) :
  median values = percentile values 50.
Proof.
  unfold median, percentile.
  set (a := sort values). set (n := length a).
  case_decide as Hn; [done|].
  destruct (Nat.even n) eqn:He.
  - apply Nat.even_spec in He as [m Hm].
    assert ((Z.of_nat n - 1) * 50 = 100 * (Z.of_nat m - 1) + 50)%Z as Hs by lia.
    rewrite Hs.
    rewrite <-(Z.div_unique (100 * (Z.of_nat m - 1) + 50) 100 (Z.of_nat m - 1) 50)
      by lia.
    rewrite <-(Z.mod_unique (100 * (Z.of_nat m - 1) + 50) 100 (Z.of_nat m - 1) 50)
      by lia.
    replace (n / 2)%nat with m by (rewrite Hm; apply Nat.div_unique_exact; lia).
    replace (Z.to_nat (Z.of_nat m - 1)) with (m - 1)%nat by lia.
    replace ((m - 1 + 1) `min` (n - 1))%nat with m by lia.
    f_equal.
    assert (Qc_of_Z 50 / Qc_of_Z 100 = 1 / 2) as -> by (by apply Qc_is_canon).
    field. done.
  - assert (Nat.odd n = true) as [m Hm]%Nat.odd_spec
      by (by rewrite <-Nat.negb_even, He).
    assert ((Z.of_nat n - 1) * 50 = 100 * Z.of_nat m + 0)%Z as Hs by lia.
    rewrite Hs.
    rewrite <-(Z.div_unique (100 * Z.of_nat m + 0) 100 (Z.of_nat m) 0) by lia.
    rewrite <-(Z.mod_unique (100 * Z.of_nat m + 0) 100 (Z.of_nat m) 0) by lia.
    replace (n / 2)%nat with m
      by (rewrite Hm; apply (Nat.div_unique _ 2 m 1); lia).
    rewrite Nat2Z.id. f_equal.
    assert (Qc_of_Z 0 / Qc_of_Z 100 = 0) as -> by (by apply Qc_is_canon).
    ring.
Qed.
End OrderStatistics.


(** ** The cut-point search *)

Section ThresholdFacts.
Import Stats Threshold.
Context (linalg_solve : solver) (chi2_sf : survival_fn).
Context (values durations : list Qc) (events : list Z).

Notation valid := (two_groups values).
Notation pv := (p_value_at linalg_solve chi2_sf values durations events).

Lemma step_scan (st : num * num) (c : num) :
  step linalg_solve chi2_sf values durations events st c
  = scan_step valid pv st c.
Proof.
  unfold step, scan_step, two_groups, p_value_at.
  case_decide; case_bool_decide; try lia; done.
Qed.

Lemma search_scan (st : num * num) (cs : list num) :
  foldl (step linalg_solve chi2_sf values durations events) st cs
  = foldl (scan_step valid pv) st cs.
Proof. apply foldl_ext_in. intros; apply step_scan. Qed.

Lemma length_candidates : length (candidates values) = 61%nat.
Proof. unfold candidates, arange. by rewrite length_fmap, length_seqZ. Qed.

Lemma lookup_candidates (k : nat) (c : num) :
  candidates values !! k = Some c
  ↔ (k < 61)%nat ∧ c = percentile values (20 + Z.of_nat k).
Proof.
  unfold candidates, arange. rewrite list_lookup_fmap, fmap_Some.
  setoid_rewrite lookup_seqZ. split.
  - intros (q & [-> ?] & ->). split; [lia|done].
  - intros [? ->]. eexists. split; [split; [done|lia]|done].
Qed.

Lemma elem_of_candidates (c : num) :
  c ∈ candidates values
  ↔ ∃ q, (20 ≤ q ≤ 80)%Z ∧ c = percentile values q.
Proof.
  rewrite list_elem_of_lookup. setoid_rewrite lookup_candidates. split.
  - intros (k & ? & ->). exists (20 + Z.of_nat k). split; [lia|done].
  - intros (q & ? & ->). exists (Z.to_nat (q - 20)). split; [lia|].
    f_equal. lia.
Qed.

Lemma leb_Fin (a b : Qc) : Num.leb (Fin a) (Fin b) = true ↔ (a ≤ b)%Qc.
Proof.
  unfold Num.leb. simpl. rewrite orb_true_iff, !bool_decide_eq_true. split.
  - intros [?| ->]; [by apply Qclt_le_weak|apply Qcle_refl].
  - intros H. destruct (Qcle_lt_or_eq _ _ H); auto.
Qed.

(** Every candidate, and the median, lies between the 20th and the 80th
    percentile. *)
Lemma candidate_in_range (c : num) :
  values ≠ [] → c ∈ candidates values →
  Num.leb (percentile values 20) c = true
  ∧ Num.leb c (percentile values 80) = true.
Proof.
  intros Hne (q & Hq & ->)%elem_of_candidates.
  rewrite !percentile_Fin by done. rewrite !leb_Fin.
  split; apply percentile_value_mono; try done; lia.
Qed.

Lemma median_in_range :
  values ≠ [] →
  Num.leb (percentile values 20) (median values) = true
  ∧ Num.leb (median values) (percentile values 80) = true.
Proof.
  intros Hne. rewrite median_percentile_50.
  rewrite !percentile_Fin by done. rewrite !leb_Fin.
  split; apply percentile_value_mono; try done; lia.
Qed.
End ThresholdFacts.

Section ThresholdClaims.
Import Stats Threshold.
Context (linalg_solve : solver) (chi2_sf : survival_fn).

(** With fewer than three observations the threshold is the median. *)
Lemma find_optimal_threshold_small (values durations : list Qc)
  (events : list Z) :
(length values < 3)%nat →
find_optimal_threshold linalg_solve chi2_sf values durations events
= median values.
Proof. intros H. unfold find_optimal_threshold. by rewrite decide_True. Qed.

(** With three observations or more the threshold is the median or one of
  the 61 candidates that split the values into two groups. *)
Lemma find_optimal_threshold_cases (values durations : list Qc)
  (events : list Z) :
(3 ≤ length values)%nat →
let r := find_optimal_threshold linalg_solve chi2_sf values durations events in
r = median values
∨ ∃ c, c ∈ candidates values ∧ two_groups values c = true ∧ r = c.
Proof.
intros H. unfold find_optimal_threshold. rewrite decide_False by lia.
rewrite search_scan. apply scan_result_elem.
Qed.

(** For every input with at least three observations the returned
  threshold lies between the 20th and the 80th percentile of the values,
  whatever the p-values are. *)
Theorem find_optimal_threshold_range (values durations : list Qc)
  (events : list Z) :
(3 ≤ length values)%nat →
let r := find_optimal_threshold linalg_solve chi2_sf values durations events in
Num.leb (percentile values 20) r = true
∧ Num.leb r (percentile values 80) = true.
Proof.
intros H r.
assert (values ≠ []) as Hne by (destruct values; [simpl in H; lia|done]).
destruct (find_optimal_threshold_cases values durations events H)
  as [Hr|(c & Hc & _ & Hr)]; fold r in Hr; rewrite Hr.
- by apply median_in_range.
- by apply candidate_in_range.
Qed.

(** When every two-group candidate has a number as its p-value, the search
  over the 61 percentiles (20th to 80th, in ascending percentile order)
  returns the first candidate that attains the minimal p-value among the
  candidates with two groups, and the median when no candidate has two
  groups. *)
Theorem find_optimal_threshold_first_minimum (values durations : list Qc)
  (events : list Z) :
(3 ≤ length values)%nat →
(∀ c, c ∈ candidates values → two_groups values c = true →
      is_fin (p_value_at linalg_solve chi2_sf values durations events c) = true) →
let r := find_optimal_threshold linalg_solve chi2_sf values durations events in
let pv := p_value_at linalg_solve chi2_sf values durations events in
length (candidates values) = 61%nat
∧ (∀ k c, candidates values !! k = Some c
          ↔ (k < 61)%nat ∧ c = percentile values (20 + Z.of_nat k))
∧ ((∀ c, c ∈ candidates values → two_groups values c = false) →
   r = median values)
∧ ((∃ c, c ∈ candidates values ∧ two_groups values c = true) →
   ∃ k c,
     candidates values !! k = Some c ∧ two_groups values c = true ∧ r = c
     ∧ (∀ j c', candidates values !! j = Some c' →
                two_groups values c' = true → Num.leb (pv c) (pv c') = true)
     ∧ (∀ j c', (j < k)%nat → candidates values !! j = Some c' →
                two_groups values c' = true → (pv c <? pv c')%num = true)).
Proof.
intros Hlen Hfin' r pv.
assert (∀ c, c ∈ candidates values → two_groups values c = true →
             ∃ q, pv c = Fin q) as Hfin.
{ intros c Hc Hv. specialize (Hfin' c Hc Hv). fold pv in Hfin'.
  destruct (pv c); try done. by eexists. }
clear Hfin'.
split; [apply length_candidates|]. split; [apply lookup_candidates|].
unfold r, find_optimal_threshold. rewrite decide_False by lia.
rewrite search_scan.
destruct (scan_result (two_groups values) pv (candidates values) Hfin
            PInf (median values))
  as [[Hr Hno]|(k & c & Hk & Hv & Hr & Hlt & Hmin & Hfirst)];
  unfold pv in *; clear pv.
- split; [intros _; by rewrite Hr|].
  intros (c & Hc & Hv). destruct (Hfin c Hc Hv) as [q Hq].
  specialize (Hno c Hc Hv). rewrite Hq in Hno. done.
- split.
  { intros Hnone. apply list_elem_of_lookup_2 in Hk.
    rewrite (Hnone c Hk) in Hv. done. }
  intros _. exists k, c. split_and!; [done|done|by rewrite Hr| |done].
  intros j c' Hj Hv'. specialize (Hmin j c' Hj Hv').
  destruct (Hfin c (list_elem_of_lookup_2 _ _ _ Hk) Hv) as [q Hq].
  destruct (Hfin c' (list_elem_of_lookup_2 _ _ _ Hj) Hv') as [q' Hq'].
  rewrite Hq, Hq' in *.
  apply leb_Fin. apply ltb_Fin_total in Hmin as [?%ltb_Fin| ->].
  + by apply Qclt_le_weak.
  + apply Qcle_refl.
Qed.
End ThresholdClaims.

Lemma find_optimal_threshold_range_witness :
let values := qc <$> [1; 2; 3] in
let durations := qc <$> [1; 2; 3] in
let events := [1; 1; 0] in
let r := Threshold.find_optimal_threshold Lib.linalg_solve Lib.chi2_sf
         values durations events in
(3 ≤ length values)%nat
∧ Num.leb (Stats.percentile values 20) r = true
∧ Num.leb r (Stats.percentile values 80) = true.
Proof.
split; [simpl; lia|].
apply (find_optimal_threshold_range Lib.linalg_solve Lib.chi2_sf
       (qc <$> [1; 2; 3]) (qc <$> [1; 2; 3]) [1; 1; 0]).
simpl; lia.
Defined.

Lemma find_optimal_threshold_first_minimum_witness :
let values := qc <$> [1; 2; 3] in
let durations := qc <$> [1; 2; 3] in
let events := [1; 1; 0] in
let r := Threshold.find_optimal_threshold Lib.linalg_solve Lib.chi2_sf
         values durations events in
let pv := Threshold.p_value_at Lib.linalg_solve Lib.chi2_sf
          values durations events in
((∃ c, c ∈ Threshold.candidates values
     ∧ Threshold.two_groups values c = true) →
∃ k c,
 Threshold.candidates values !! k = Some c
 ∧ Threshold.two_groups values c = true ∧ r = c
 ∧ (∀ j c', Threshold.candidates values !! j = Some c' →
            Threshold.two_groups values c' = true →
            Num.leb (pv c) (pv c') = true)
 ∧ (∀ j c', (j < k)%nat → Threshold.candidates values !! j = Some c' →
            Threshold.two_groups values c' = true →
            (pv c <? pv c')%num = true)).
Proof.
refine (proj2 (proj2 (proj2
(find_optimal_threshold_first_minimum Lib.linalg_solve Lib.chi2_sf
   (qc <$> [1; 2; 3]) (qc <$> [1; 2; 3]) [1; 1; 0] _ _)))).
- simpl; lia.
- rewrite <-Forall_forall. compute_done.
Defined.

(** C4, on the code.  Values 1, 2, 3 with durations 1, 2, 3, all events.
Each of the 61 candidates splits the values into two groups, the first
of them is 7/5, and the p-value of every split is NaN (the pass at t = 3
divides 0 by 0), so no candidate is ever below the running minimum and
the median, 2, is returned.  With the last event censored instead, no
pass divides by zero and the search returns the first candidate. *)
Lemma find_optimal_threshold_all_nan :
let values := qc <$> [1; 2; 3] in
let durations := qc <$> [1; 2; 3] in
Threshold.candidates values !! 0%nat = Some (Fin (qc 7 / qc 5)%Qc)
∧ Forall (λ c, Threshold.two_groups values c = true
             ∧ Threshold.p_value_at Lib.linalg_solve Lib.chi2_sf
                 values durations [1; 1; 1] c = NaN)
       (Threshold.candidates values)
∧ Threshold.find_optimal_threshold Lib.linalg_solve Lib.chi2_sf
  values durations [1; 1; 1] = Fin (qc 2)
∧ Threshold.find_optimal_threshold Lib.linalg_solve Lib.chi2_sf
  values durations [1; 1; 0] = Fin (qc 7 / qc 5)%Qc.
Proof. split_and!; compute_done. Qed.


(** ** The survival curve *)

Section CurveFacts.
Import Curve.
Local Open Scope Qc_scope.
Notation well_formed := Curve.well_formed.

Lemma int_div_Fin (a b : Z) :
  b ≠ 0%Z → int_div a b = Fin (Qc_of_Z a / Qc_of_Z b).
Proof.
  intros Hb. unfold int_div, of_Z. simpl.
  rewrite bool_decide_eq_false_2; [done|]. by apply Qc_of_Z_nonzero.
Qed.

(** The factor of one event, with [at_risk] subjects left. *)
Lemma event_factor_bounds (n : Z) :
  (1 ≤ n)%Z →
  0 ≤ Qc_of_Z (n - 1) / Qc_of_Z n ∧ Qc_of_Z (n - 1) / Qc_of_Z n ≤ 1.
Proof.
  intros Hn.
  assert (0 < / Qc_of_Z n) as Hinv by (apply Qcinv_pos, Qc_of_Z_pos; lia).
  split.
  - apply Qcmult_nonneg_nonneg; [|by apply Qclt_le_weak].
    apply Qc_of_Z_nonneg. lia.
  - replace 1 with (Qc_of_Z n / Qc_of_Z n)
      by (apply Qcmult_inv_r, Qc_of_Z_nonzero; lia).
    apply Qcmult_le_mono_nonneg_r; [by apply Qclt_le_weak|].
    apply Qc_of_Z_le. lia.
Qed.

Lemma length_scale_from (j : nat) (f : num) (l : list num) :
  length (scale_from j f l) = length l.
Proof.
  unfold scale_from. rewrite length_app, length_fmap, length_take, length_drop.
  lia.
Qed.

Lemma head_scale_from (j : nat) (f : num) (l : list num) :
  (1 ≤ j)%nat → head (scale_from j f l) = head l.
Proof. intros Hj. destruct j; [lia|]. by destruct l. Qed.

Lemma last_scale_from (j : nat) (f : num) (l : list num) :
  (j < length l)%nat →
  List.last (scale_from j f l) NaN = (List.last l NaN * f)%num.
Proof.
  intros Hj. unfold scale_from.
  rewrite <-(take_drop j l) at 3.
  assert (drop j l ≠ []) as Hne.
  { intros H. apply (f_equal length) in H. rewrite length_drop in H.
    simpl in H. lia. }
  destruct (drop j l) as [|x k] eqn:Hd using rev_ind; [done|]. clear IHk.
  rewrite fmap_app. simpl. rewrite !app_assoc, !last_last. done.
Qed.

(** A curve is well formed when its values are numbers between 0 and 1 that
    never increase. *)
Lemma good_scale_from (j : nat) (φ : Qc) (qs : list Qc) :
  0 ≤ φ → φ ≤ 1 →
  Forall (λ q, 0 ≤ q) qs → StronglySorted (λ a b, b ≤ a) qs →
  ∃ qs', scale_from j (Fin φ) (Fin <$> qs) = Fin <$> qs'
         ∧ Forall (λ q, 0 ≤ q) qs' ∧ StronglySorted (λ a b, b ≤ a) qs'.
Proof.
  intros H0 H1 Hpos Hs.
  exists (take j qs ++ ((λ q, q * φ) <$> drop j qs)). split_and!.
  - unfold scale_from. rewrite fmap_app, fmap_take, !fmap_drop.
    rewrite <-!list_fmap_compose. done.
  - apply Forall_app. split; [by apply Forall_take|].
    apply Forall_fmap. eapply Forall_impl; [by apply Forall_drop|].
    intros q Hq. simpl. by apply Qcmult_nonneg_nonneg.
  - rewrite <-(take_drop j qs) in Hs. apply StronglySorted_app in Hs
      as (Hcross & Hs1 & Hs2).
    apply StronglySorted_app. split_and!; [|done|].
    + intros a b Ha (b' & -> & Hb')%list_elem_of_fmap.
      eapply Qcle_trans; [|by apply Hcross].
      rewrite <-(Qcmult_1_r b') at 2.
      apply Qcmult_le_mono_nonneg_l; [|done].
      rewrite Forall_forall in Hpos. apply Hpos.
      by apply (subseteq_drop j qs).
    + apply (StronglySorted_fmap _ (λ a b, b ≤ a)); [|done].
      intros a b Hab. by apply Qcmult_le_mono_nonneg_r.
Qed.

(** One run of the [while] loop keeps the invariants of the state. *)
Lemma drain_invariant (t : Qc) (j : nat) (rest : list (Qc * Z)) :
  ∀ (at_risk : Z) (surv : list num) (marks : list (Qc * num)),
    (1 ≤ j)%nat → at_risk = Z.of_nat (length rest) → well_formed surv →
    let st := drain t j rest at_risk surv marks in
    Curve.at_risk st = Z.of_nat (length (Curve.rest st))
    ∧ well_formed (Curve.surv st)
    ∧ length (Curve.surv st) = length surv
    ∧ head (Curve.surv st) = head surv
    ∧ (∃ k, rest = k ++ Curve.rest st).
Proof.
  induction rest as [|[d ev] rest IH]; intros ar sv mk Hj Har Hwf; simpl.
  { split_and!; try done. by exists []. }
  case_decide as Hd; [|simpl; split_and!; try done; by exists []].
  case_decide as Hev.
  - destruct Hwf as (qs & -> & Hpos & Hs).
    simpl in Har. rewrite int_div_Fin by lia.
    destruct (event_factor_bounds ar ltac:(lia)) as [F0 F1].
    destruct (good_scale_from j _ qs F0 F1 Hpos Hs) as (qs' & Hq & Hpos' & Hs').
    destruct (IH (ar - 1)%Z (scale_from j (Fin (Qc_of_Z (ar - 1) / Qc_of_Z ar))
                               (Fin <$> qs)) mk Hj)
      as (I1 & I2 & I3 & I4 & k & I5).
    + simpl in Har. lia.
    + rewrite Hq. by exists qs'.
    + split_and!; try done.
      * by rewrite I3, length_scale_from.
      * by rewrite I4, head_scale_from.
      * exists ((d, ev) :: k). simpl. by f_equal.
  - simpl in Har.
    destruct (IH (ar - 1)%Z sv (mk ++ [(d, read sv (j - 1))]) Hj)
      as (I1 & I2 & I3 & I4 & k & I5); [lia|done|].
    split_and!; try done. exists ((d, ev) :: k). simpl. by f_equal.
Qed.

(** The loop over the times keeps them as well. *)
Lemma fold_invariant (jts : list (nat * Qc)) :
  ∀ st : state,
    Forall (λ jt, 1 ≤ jt.1)%nat jts →
    Curve.at_risk st = Z.of_nat (length (Curve.rest st)) →
    well_formed (Curve.surv st) →
    let st' := foldl step st jts in
    Curve.at_risk st' = Z.of_nat (length (Curve.rest st'))
    ∧ well_formed (Curve.surv st')
    ∧ length (Curve.surv st') = length (Curve.surv st)
    ∧ head (Curve.surv st') = head (Curve.surv st)
    ∧ (∃ k, Curve.rest st = k ++ Curve.rest st').
Proof.
  induction jts as [|[j t] jts IH]; intros st Hj Har Hwf; simpl.
  { split_and!; try done. by exists []. }
  inv Hj.
  destruct (drain_invariant t j (Curve.rest st) (Curve.at_risk st)
              (Curve.surv st) (marks st)) as (D1 & D2 & D3 & D4 & k1 & D5);
    [done..|].
  destruct (IH (step st (j, t))) as (I1 & I2 & I3 & I4 & k2 & I5); [done..|].
  split_and!; try done.
  - by rewrite I3.
  - by rewrite I4.
  - exists (k1 ++ k2). rewrite <-app_assoc, <-I5. done.
Qed.
End CurveFacts.

Section SortedEnds.
Context {A : Type} (R : relation A).

Lemma StronglySorted_lookup (l : list A) (i j : nat) (a b : A) :
  StronglySorted R l → (i < j)%nat → l !! i = Some a → l !! j = Some b → R a b.
Proof.
  intros Hs. revert i j. induction Hs as [|x l Hl IH Hx]; intros i j Hij Hi Hj.
  { by rewrite lookup_nil in Hi. }
  destruct i as [|i], j as [|j]; simplify_eq/=; try lia.
  - rewrite Forall_forall in Hx. apply Hx. by eapply list_elem_of_lookup_2.
  - eapply (IH i j); [lia|done..].
Qed.

Lemma StronglySorted_head (l : list A) (x y : A) :
  StronglySorted R l → head l = Some x → y ∈ l → x = y ∨ R x y.
Proof.
  intros Hs Hx Hy. destruct Hs as [|z l Hl Hz]; simplify_eq/=.
  apply elem_of_cons in Hy as [->|Hy]; [by left|right].
  rewrite Forall_forall in Hz. auto.
Qed.

Lemma StronglySorted_last (l : list A) (x y : A) :
  StronglySorted R l → last l = Some x → y ∈ l → y = x ∨ R y x.
Proof.
  intros Hs Hx Hy. destruct l as [|z l] using rev_ind; [done|]. clear IHl.
  rewrite last_snoc in Hx. simplify_eq.
  apply StronglySorted_app in Hs as (Hcross & _ & _).
  apply elem_of_app in Hy as [Hy|Hy%list_elem_of_singleton]; [right|by left].
  apply Hcross; [done|]. by apply list_elem_of_singleton.
Qed.
End SortedEnds.


Section CurveTheorems.
Import Curve.
Local Open Scope Qc_scope.
Notation well_formed := Curve.well_formed.

Lemma sorted_durations_perm (obs : list (Qc * Z)) :
  sort_by_duration obs ≡ₚ obs.
Proof. apply merge_sort_Permutation. Qed.

Lemma well_formed_ones (m : nat) : well_formed (replicate m one).
Proof.
  exists (replicate m 1). split_and!.
  - rewrite fmap_replicate. unfold one, of_Z. by rewrite Z2Qc_inj_1.
  - apply Forall_replicate. by compute.
  - induction m; simpl; constructor; [done|].
    apply Forall_replicate. apply Qcle_refl.
Qed.

Lemma steps_from_one (ts : list Qc) :
  Forall (λ jt : nat * Qc, 1 ≤ jt.1 ∧ jt.1 < S (length ts))%nat
         (imap (λ j t, (S j, t)) ts).
Proof.
  apply Forall_forall. intros [j t] Hjt. apply list_elem_of_lookup in Hjt as [k Hk].
  rewrite list_lookup_imap in Hk. apply fmap_Some in Hk as (t' & Hk & ?).
  simplify_eq/=. apply lookup_lt_Some in Hk. lia.
Qed.

(** The state after the loop over the times. *)
Lemma kaplan_meier_invariants (obs : list (Qc * Z)) :
  let c := kaplan_meier obs in
  times c = Np.unique_Qc (0 :: (sort_by_duration obs).*1)
  ∧ well_formed (survival c)
  ∧ length (survival c) = length (times c)
  ∧ head (survival c) = Some one.
Proof.
  unfold kaplan_meier. cbn [times survival].
  set (ut := Np.unique_Qc (0 :: (sort_by_duration obs).*1)).
  destruct (fold_invariant (imap (λ j t, (S j, t)) (tail ut))
              (State (sort_by_duration obs)
                 (Z.of_nat (length (sort_by_duration obs)))
                 (replicate (length ut) one) []))
    as (_ & I2 & I3 & I4 & _).
  - eapply Forall_impl; [apply steps_from_one|]. by intros ? [? _].
  - done.
  - apply well_formed_ones.
  - cbn [surv] in *. split_and!; [done|done|by rewrite I3, length_replicate|].
    rewrite I4. assert (0 ∈ ut) as H0.
    { apply elem_of_unique; [apply _..|]. left. }
    destruct ut; [by apply elem_of_nil in H0|done].
Qed.

(** With no negative duration the first time of a curve is 0. *)
Lemma unique_times_head (ds : list Qc) :
  Forall (λ d, 0 ≤ d) ds → head (Np.unique_Qc (0 :: ds)) = Some 0.
Proof.
  intros Hpos.
  pose proof (unique_sorted Qclt (0 :: ds)) as Hs. fold Np.unique_Qc in Hs.
  assert (0 ∈ Np.unique_Qc (0 :: ds)) as H0
    by (apply elem_of_unique; [apply _..|left]).
  destruct (Np.unique_Qc (0 :: ds)) as [|x l] eqn:E;
    [by apply elem_of_nil in H0|].
  simpl. f_equal.
  assert (x ∈ 0 :: ds) as Hx.
  { apply (elem_of_unique Qclt). unfold Np.unique_Qc in E. rewrite E. left. }
  destruct (StronglySorted_head Qclt (x :: l) x 0 Hs eq_refl H0) as [->|Hlt];
    [done|].
  apply elem_of_cons in Hx as [->|Hx]; [done|].
  rewrite Forall_forall in Hpos. specialize (Hpos x Hx).
  destruct (Qclt_not_le _ _ Hlt Hpos).
Qed.

(** The values of a well-formed curve never increase. *)
Lemma well_formed_monotone (l : list num) (i j : nat) (x y : num) :
  well_formed l → (i ≤ j)%nat → l !! i = Some x → l !! j = Some y →
  Num.leb y x = true.
Proof.
  intros (qs & -> & _ & Hs) Hij Hi Hj.
  rewrite list_lookup_fmap in Hi, Hj.
  apply fmap_Some in Hi as (a & Hi & ->). apply fmap_Some in Hj as (b & Hj & ->).
  apply leb_Fin. destruct (decide (i = j)) as [->|Hne].
  - simplify_eq. apply Qcle_refl.
  - apply (StronglySorted_lookup _ qs i j a b Hs); [lia|done..].
Qed.
End CurveTheorems.


(** ** The final value of a curve without censoring *)

Section CurveFinal.
Import Curve.
Local Open Scope Qc_scope.

(** While every remaining observation is an event, the last value of the
    curve is (subjects left) / (subjects of the group). *)
Lemma drain_all_events (t : Qc) (j : nat) (N : Z) (rest : list (Qc * Z)) :
  ∀ (ar : Z) (sv : list num) (mk : list (Qc * num)),
    Forall (λ o, o.2 ≠ 0%Z) rest → ar = Z.of_nat (length rest) →
    (j < length sv)%nat → N ≠ 0%Z →
    List.last sv NaN = Fin (Qc_of_Z ar / Qc_of_Z N) →
    let st := drain t j rest ar sv mk in
    Curve.at_risk st = Z.of_nat (length (Curve.rest st))
    ∧ length (Curve.surv st) = length sv
    ∧ List.last (Curve.surv st) NaN = Fin (Qc_of_Z (Curve.at_risk st) / Qc_of_Z N)
    ∧ (∃ k, rest = k ++ Curve.rest st)
    ∧ (Forall (λ o, o.1 ≤ t) rest → Curve.rest st = []).
Proof.
  induction rest as [|[d ev] rest IH]; intros ar sv mk Hev Har Hj HN Hlast; simpl.
  { split_and!; try done. by exists []. }
  apply Forall_cons in Hev as [Hev1 Hev2]. simpl in *.
  case_decide as Hd.
  2:{ simpl. split_and!; try done; [by exists []|].
      intros [? _]%Forall_cons. done. }
  rewrite decide_True by done.
  destruct (IH (ar - 1)%Z (scale_from j (int_div (ar - 1) ar) sv) mk)
    as (I1 & I2 & I3 & (k & I4) & I5); try done.
  - lia.
  - by rewrite length_scale_from.
  - rewrite last_scale_from by done. rewrite Hlast, int_div_Fin by lia.
    simpl. f_equal. field. split; apply Qc_of_Z_nonzero; lia.
  - split_and!; try done.
    + by rewrite I2, length_scale_from.
    + exists ((d, ev) :: k). simpl. by f_equal.
    + intros [_ ?]%Forall_cons. auto.
Qed.

Lemma fold_all_events (N : Z) (jts : list (nat * Qc)) :
  ∀ st : state,
    Forall (λ o, o.2 ≠ 0%Z) (Curve.rest st) →
    Curve.at_risk st = Z.of_nat (length (Curve.rest st)) →
    Forall (λ jt, jt.1 < length (Curve.surv st))%nat jts → N ≠ 0%Z →
    List.last (Curve.surv st) NaN
    = Fin (Qc_of_Z (Curve.at_risk st) / Qc_of_Z N) →
    let st' := foldl step st jts in
    Forall (λ o, o.2 ≠ 0%Z) (Curve.rest st')
    ∧ Curve.at_risk st' = Z.of_nat (length (Curve.rest st'))
    ∧ length (Curve.surv st') = length (Curve.surv st)
    ∧ List.last (Curve.surv st') NaN
      = Fin (Qc_of_Z (Curve.at_risk st') / Qc_of_Z N)
    ∧ (∃ k, Curve.rest st = k ++ Curve.rest st').
Proof.
  induction jts as [|[j t] jts IH]; intros st Hev Har Hj HN Hlast; simpl.
  { split_and!; try done. by exists []. }
  apply Forall_cons in Hj as [Hj1 Hj2]. simpl in *.
  destruct (drain_all_events t j N (Curve.rest st) (Curve.at_risk st)
              (Curve.surv st) (marks st)) as (D1 & D2 & D3 & (k1 & D4) & _);
    try done.
  destruct (IH (step st (j, t))) as (I0 & I1 & I2 & I3 & (k2 & I4)); try done.
  - unfold step. simpl. rewrite D4 in Hev. by apply Forall_app in Hev as [_ ?].
  - unfold step. simpl. by rewrite D2.
  - split_and!; try done.
    + by rewrite I2.
    + exists (k1 ++ k2). rewrite <-app_assoc, <-I4. done.
Qed.

Lemma last_replicate {A} (n : nat) (x d : A) :
  n ≠ 0%nat → List.last (replicate n x) d = x.
Proof.
  destruct n as [|n]; [done|]. intros _. by rewrite replicate_S_end, last_last.
Qed.

(** With no censored observation, no negative duration and a positive one,
    the curve ends at 0. *)
Lemma kaplan_meier_all_events (obs : list (Qc * Z)) :
  Forall (λ o, o.2 ≠ 0%Z) obs → Forall (λ o, 0 ≤ o.1) obs →
  Exists (λ o, 0 < o.1) obs →
  final_value (kaplan_meier obs) = Fin 0.
Proof.
  intros Hev Hpos Hex. unfold final_value, kaplan_meier. cbn [survival].
  set (sorted := sort_by_duration obs).
  set (ut := Np.unique_Qc (0 :: sorted.*1)).
  assert (sorted ≡ₚ obs) as Hperm by apply sorted_durations_perm.
  assert (StronglySorted Qclt ut) as Hs by (apply unique_sorted; apply _).
  assert (∀ x, x ∈ ut ↔ x = 0 ∨ x ∈ sorted.*1) as Hut.
  { intros x. unfold ut, Np.unique_Qc. rewrite elem_of_unique by apply _.
    by rewrite elem_of_cons. }
  apply Exists_exists in Hex as ([d ev] & Ho & Hd). simpl in Hd.
  assert (d ∈ sorted.*1) as Hds.
  { apply list_elem_of_fmap. exists (d, ev). split; [done|]. by rewrite Hperm. }
  assert (length obs ≠ 0%nat) as Hlen by (destruct obs; [by apply elem_of_nil in Ho|done]).
  assert (length sorted = length obs) as Hlen' by (by rewrite Hperm).
  (* the times are 0, ..., tm with tm the largest duration *)
  assert (d ∈ ut) as Hdu by (apply Hut; by right).
  destruct ut as [|t0 tl] eqn:Eut; [by apply elem_of_nil in Hdu|].
  assert (tl ≠ []) as Htl.
  { intros Htl0.
    assert (d = t0) as E1
      by (apply list_elem_of_singleton; rewrite <-Htl0; apply Hut; by right).
    assert (0 = t0) as E2
      by (apply list_elem_of_singleton; rewrite <-Htl0; apply Hut; by left).
    rewrite E1, <-E2 in Hd. by apply (irreflexivity Qclt 0). }
  destruct tl as [|tm tl _] using rev_ind; [done|]. clear Htl.
  assert (∀ x, x ∈ sorted.*1 → x ≤ tm) as Hmax.
  { intros x Hx.
    destruct (StronglySorted_last Qclt (t0 :: tl ++ [tm]) tm x Hs) as [->|Hlt].
    - by rewrite app_comm_cons, last_snoc.
    - apply Hut. by right.
    - apply Qcle_refl.
    - by apply Qclt_le_weak. }
  simpl tail. rewrite imap_app, foldl_app. simpl.
  set (N := Z.of_nat (length sorted)).
  assert (N ≠ 0%Z) as HN by (unfold N; lia).
  destruct (fold_all_events N (imap (λ j t, (S j, t)) tl)
              (State sorted N (replicate (length (t0 :: tl ++ [tm])) one) []))
    as (I0 & I1 & I2 & I3 & (k & I4)); cbn [Curve.rest Curve.at_risk Curve.surv].
  - rewrite Hperm. done.
  - done.
  - rewrite length_replicate. cbn [length]. rewrite length_app. cbn [length].
    eapply Forall_impl; [apply steps_from_one|]. intros [j t] [_ ?].
    cbn [fst] in *. lia.
  - done.
  - rewrite last_replicate by done. unfold one, of_Z. f_equal.
    rewrite Z2Qc_inj_1. symmetry. apply Qcmult_inv_r. by apply Qc_of_Z_nonzero.
  - cbn [Curve.rest Curve.at_risk Curve.surv] in *.
    set (st1 := foldl step _ _) in *.
    destruct (drain_all_events tm (S (length tl + 0)) N (rest st1) (at_risk st1)
                (surv st1) (marks st1)) as (D1 & D2 & D3 & _ & D5); try done.
    + rewrite I2, length_replicate. cbn [length]. rewrite length_app.
      cbn [length]. lia.
    + unfold step. simpl. rewrite D3, D1, D5.
      * f_equal. change (Z.of_nat (length (@nil (Qc * Z)))) with 0%Z.
        rewrite Z2Qc_inj_0. apply Qcmult_0_l.
      * apply Forall_forall. intros o Hin. apply Hmax.
        apply list_elem_of_fmap. exists o. split; [done|].
        rewrite I4. apply elem_of_app. by right.
Qed.
End CurveFinal.


Section CurveClaims.
Import Curve.
Local Open Scope Qc_scope.

Lemma elem_of_select {A} (x : A) (l : list A) (mask : list bool) :
  x ∈ Np.select l mask → x ∈ l.
Proof.
  revert mask. induction l as [|y l IH]; intros [|[] mask] Hx; simpl in *;
    try (by apply elem_of_nil in Hx).
  - apply elem_of_cons in Hx as [->|Hx]; [left|right; eauto].
  - right; eauto.
Qed.

Lemma group_observations_durations (durations : list Qc)
    (events groups : list Z) (group : Z) :
  Forall (λ d, 0 ≤ d) durations →
  Forall (λ o, 0 ≤ o.1) (group_observations durations events groups group).
Proof.
  intros Hpos. apply Forall_forall. intros [d ev] Ho. simpl.
  rewrite Forall_forall in Hpos. apply Hpos.
  apply elem_of_zip_l in Ho. by eapply elem_of_select.
Qed.

Lemma filter_all {A} (P : A → Prop) `{!∀ x, Decision (P x)} (l : list A) :
  Forall P l → filter P l = l.
Proof.
  induction 1 as [|x l Hx Hl IH]; [done|].
  rewrite filter_cons_True by done. by f_equal.
Qed.

Lemma filter_none {A} (P : A → Prop) `{!∀ x, Decision (P x)} (l : list A) :
  Forall (λ x, ¬ P x) l → filter P l = [].
Proof.
  induction 1 as [|x l Hx Hl IH]; [done|]. by rewrite filter_cons_False.
Qed.

(** Without censoring nobody is free of an event at the last event time. *)
Lemma event_free_all_events (obs : list (Qc * Z)) :
  Forall (λ o, o.2 ≠ 0%Z) obs → obs ≠ [] → event_free obs = 0%Z.
Proof.
  intros Hev Hne. unfold event_free, last_event_time.
  rewrite (filter_all (λ o : Qc * Z, o.2 ≠ 0%Z) obs Hev).
  pose proof (sort_sorted obs.*1) as Hs.
  assert (Stats.sort obs.*1 ≡ₚ obs.*1) as Hp by apply merge_sort_Permutation.
  destruct (last (Stats.sort obs.*1)) as [T|] eqn:HT.
  - rewrite filter_none; [done|].
    apply Forall_forall. intros o Ho Hno. apply Hno.
    rewrite Forall_forall in Hev. split; [by apply Hev|].
    destruct (StronglySorted_last Qcle _ T o.1 Hs HT) as [->|?]; [|apply Qcle_refl|done].
    rewrite Hp. apply list_elem_of_fmap. by exists o.
  - apply last_None in HT. apply (f_equal length) in HT.
    rewrite Hp, length_fmap in HT. destruct obs; done.
Qed.

(** C6, as amended.  For every group of every input with no negative
    duration, the curve starts at the point (0, 1), its times strictly
    increase and its survival values never increase; and when the group has
    no censored observation and at least one positive duration, the final
    value is the number of subjects without an event at or before the last
    event time, divided by the number of subjects of the group. *)
Theorem survival_curve_shape (durations : list Qc) (events groups : list Z)
    (group : Z) (c : curve) :
  (group, c) ∈ generate_survival_plot durations events groups →
  Forall (λ d, 0 ≤ d) durations →
  let obs := group_observations durations events groups group in
  head (times c) = Some 0
  ∧ head (survival c) = Some one
  ∧ length (survival c) = length (times c)
  ∧ StronglySorted Qclt (times c)
  ∧ (∀ i j x y, (i ≤ j)%nat →
                survival c !! i = Some x → survival c !! j = Some y →
                Num.leb y x = true)
  ∧ (Forall (λ o, o.2 ≠ 0%Z) obs → Exists (λ o, 0 < o.1) obs →
     final_value c = int_div (event_free obs) (Z.of_nat (length obs))).
Proof.
  intros Hin Hpos obs.
  apply list_elem_of_fmap in Hin as (? & [= <- ->] & Hg). fold obs.
  pose proof (group_observations_durations durations events groups group Hpos)
    as Hobs. fold obs in Hobs.
  destruct (kaplan_meier_invariants obs) as (Ht & Hwf & Hlen & Hhead).
  split_and!; try done.
  - rewrite Ht. apply unique_times_head.
    apply Forall_fmap. eapply Forall_impl; [|by intros ? H; exact H].
    by rewrite sorted_durations_perm.
  - rewrite Ht. apply unique_sorted; apply _.
  - intros i j x y. by apply well_formed_monotone.
  - intros Hev Hex.
    assert (obs ≠ []) as Hne.
    { intros E. rewrite E in Hex. by apply Exists_nil in Hex. }
    rewrite kaplan_meier_all_events, event_free_all_events by done.
    rewrite int_div_Fin by (destruct obs; [done|simpl; lia]).
    f_equal. rewrite Z2Qc_inj_0. symmetry. apply Qcmult_0_l.
Qed.
End CurveClaims.

Lemma survival_curve_shape_witness :
  let durations := qc <$> [5; 6; 6; 2; 4] in
  let events := [1; 1; 1; 1; 1] in
  let groups := [0; 0; 1; 1; 1] in
  let obs := Curve.group_observations durations events groups 1 in
  let c := Curve.kaplan_meier obs in
  ((1, c) ∈ Curve.generate_survival_plot durations events groups
   ∧ Forall (λ d, 0 ≤ d)%Qc durations
   ∧ Forall (λ o, o.2 ≠ 0) obs ∧ Exists (λ o, 0 < o.1)%Qc obs)
  ∧ head (Curve.times c) = Some 0%Qc
  ∧ head (Curve.survival c) = Some one
  ∧ Curve.final_value c
    = int_div (Curve.event_free obs) (Z.of_nat (length obs)).
Proof.
  assert ((1, Curve.kaplan_meier
                (Curve.group_observations (qc <$> [5; 6; 6; 2; 4])
                   [1; 1; 1; 1; 1] [0; 0; 1; 1; 1] 1))
          ∈ Curve.generate_survival_plot (qc <$> [5; 6; 6; 2; 4])
              [1; 1; 1; 1; 1] [0; 0; 1; 1; 1]) as Hin by compute_done.
  assert (Forall (λ d, 0 ≤ d)%Qc (qc <$> [5; 6; 6; 2; 4])) as Hpos
    by compute_done.
  split; [split_and!; [done|done|compute_done|compute_done]|].
  destruct (survival_curve_shape _ _ _ _ _ Hin Hpos)
    as (H1 & H2 & _ & _ & _ & H6).
  split_and!; [done|done|]. apply H6; compute_done.
Defined.

(** C6 as stated fails when every duration of a group is 0: the group has
    no censored observation and nobody is free of an event, yet the curve
    is the single point (0, 1) and its final value is 1. *)
Lemma survival_curve_all_zero :
  let durations := [qc 0] in
  let events := [1] in
  let groups := [0] in
  let obs := Curve.group_observations durations events groups 0 in
  Curve.generate_survival_plot durations events groups
  = [(0, Curve.Curve [qc 0] [one] [])]
  ∧ Forall (λ o, o.2 ≠ 0) obs
  ∧ Curve.final_value (Curve.kaplan_meier obs) = of_Z 1
  ∧ int_div (Curve.event_free obs) (Z.of_nat (length obs)) = of_Z 0.
Proof. split_and!; compute_done. Qed.


(** ** The scan driver *)

Section DriverFacts.
Import Driver.
Context (linalg_solve : solver) (chi2_sf : survival_fn).
Context (multipletests : list num → list num).

Notation calculate_logrank := (Driver.calculate_logrank linalg_solve chi2_sf).
Notation find_optimal_threshold :=
  (Driver.find_optimal_threshold linalg_solve chi2_sf).
Notation analyze_column := (Driver.analyze_column linalg_solve chi2_sf).
Notation analyze_variables := (Driver.analyze_variables linalg_solve chi2_sf).
Notation analyze_gene := (Driver.analyze_gene linalg_solve chi2_sf).
Notation analyze_genes := (Driver.analyze_genes linalg_solve chi2_sf).
Notation survival := (Driver.survival linalg_solve chi2_sf multipletests).

Lemma bind_value {A B} (m : M A) (f : A → M B) : (bind m f).1 = (f m.1).1.
Proof. done. Qed.

Lemma bind_trace {A B} (m : M A) (f : A → M B) :
  (bind m f).2 = m.2 ++ (f m.1).2.
Proof. done. Qed.

Lemma foldlM_trace {A B} (P : effect → Prop) (f : A → B → M A) (l : list B) :
  (∀ a x, x ∈ l → Forall P (f a x).2) → ∀ a, Forall P (foldlM f a l).2.
Proof.
  induction l as [|x l IH]; intros Hf a; simpl; [constructor|].
  apply Forall_app. split; [apply Hf; left|].
  apply IH. intros; apply Hf. by right.
Qed.

(** A loop that appends what each item yields collects, in order, what the
    items yield. *)
Lemma foldlM_append {A B} (g : B → M (list A)) (l : list B) (acc : list A) :
  (foldlM (λ results x, bind (g x) (λ r, ret (results ++ r))) acc l).1
  = acc ++ mjoin ((λ x, (g x).1) <$> l)
  ∧ (foldlM (λ results x, bind (g x) (λ r, ret (results ++ r))) acc l).2
    = mjoin ((λ x, (g x).2) <$> l).
Proof.
  revert acc. induction l as [|x l IH]; intros acc; simpl.
  { by rewrite app_nil_r. }
  destruct (IH (acc ++ (g x).1)) as [IH1 IH2]. split.
  - rewrite IH1. by rewrite <-app_assoc.
  - rewrite IH2. by rewrite app_nil_r.
Qed.

(** *** Every call of the log-rank test has two groups or more *)

Lemma calculate_logrank_call d e g :
  (2 ≤ length (Np.unique_Z g))%nat → Forall two_groups_call (calculate_logrank d e g).2.
Proof. intros H. repeat constructor. done. Qed.

Lemma threshold_step_calls values d e st c :
  Forall two_groups_call (threshold_step linalg_solve chi2_sf values d e st c).2.
Proof.
  unfold threshold_step. case_decide; [constructor|].
  rewrite bind_trace. apply Forall_app. split.
  - apply calculate_logrank_call. lia.
  - by destruct (_ <? _)%num.
Qed.

Lemma find_optimal_threshold_calls values d e :
  Forall two_groups_call (find_optimal_threshold values d e).2.
Proof.
  unfold Driver.find_optimal_threshold. case_decide; [constructor|].
  rewrite bind_trace, app_nil_r. apply foldlM_trace.
  intros; apply threshold_step_calls.
Qed.

Lemma analyze_numerical_calls t name cells :
  Forall two_groups_call (analyze_numerical linalg_solve chi2_sf t name cells).2.
Proof.
  unfold analyze_numerical.
  destruct (clean (time t) (event t) cells) as [[d e] v].
  rewrite bind_trace. apply Forall_app. split;
    [apply find_optimal_threshold_calls|].
  case_decide; [constructor|].
  rewrite bind_trace. apply Forall_app. split;
    [apply calculate_logrank_call; lia|].
  repeat constructor.
Qed.

Lemma analyze_categorical_calls t name cells :
  Forall two_groups_call (analyze_categorical linalg_solve chi2_sf t name cells).2.
Proof.
  unfold analyze_categorical.
  destruct (clean (time t) (event t) cells) as [[d e] g].
  case_decide; [constructor|].
  rewrite bind_trace. apply Forall_app. split;
    [apply calculate_logrank_call; lia|].
  repeat constructor.
Qed.

Lemma analyze_column_calls t name :
  Forall two_groups_call (analyze_column t name).2.
Proof.
  unfold Driver.analyze_column.
  destruct (lookup_column (metadata t) name) as [[cells|cells]|].
  - apply analyze_numerical_calls.
  - apply analyze_categorical_calls.
  - destruct (lookup_column (gene_data t) name) as [cells|].
    + apply analyze_numerical_calls.
    + case_decide; repeat constructor.
Qed.

Lemma analyze_gene_calls t name cells :
  Forall two_groups_call (analyze_gene t name cells).2.
Proof.
  unfold Driver.analyze_gene.
  destruct (clean (time t) (event t) cells) as [[d e] v].
  destruct (Stats.np_percentile v 50) as [thr|]; [|constructor].
  case_decide; [constructor|].
  rewrite bind_trace, app_nil_r. apply calculate_logrank_call. lia.
Qed.

(** What holds of the trace of every gene holds of the trace of the loop
    over the genes, wherever it ends. *)
Lemma scan_genes_trace (P : effect → Prop) t genes :
  (∀ nc, nc ∈ genes → Forall P (analyze_gene t nc.1 nc.2).2) →
  ∀ acc, Forall P (scan_genes linalg_solve chi2_sf t acc genes).2.
Proof.
  induction genes as [|nc genes IH]; intros H acc; [constructor|].
  cbn [scan_genes]. rewrite bind_trace.
  apply Forall_app. split; [apply H; left|].
  destruct (analyze_gene t nc.1 nc.2).1 as [err|new]; [constructor|].
  apply IH. intros; apply H. by right.
Qed.

(** The trace of a run: the variables, then the genes, then the count. *)
Lemma survival_trace_cases (t : table) (cols : list string) :
  (survival t cols).2
  = (analyze_variables t cols).2
    ++ (if decide ("GENES" ∈ cols) then
          (analyze_genes t).2
          ++ match (analyze_genes t).1 with
             | inl _ => []
             | inr rs => (correct_and_sort multipletests rs).2
             end
        else []).
Proof.
  unfold Driver.survival. rewrite bind_trace. f_equal.
  case_decide; [|done]. rewrite bind_trace. f_equal.
  destruct (analyze_genes t).1 as [err|rs]; [done|].
  by rewrite bind_trace, app_nil_r.
Qed.

Lemma survival_calls t cols : Forall two_groups_call (survival t cols).2.
Proof.
  rewrite survival_trace_cases. apply Forall_app. split.
  { apply foldlM_trace. intros a x _. rewrite bind_trace, app_nil_r.
    apply analyze_column_calls. }
  case_decide; [|constructor].
  apply Forall_app. split.
  { apply scan_genes_trace. intros nc _. apply analyze_gene_calls. }
  destruct (analyze_genes t).1 as [err|rs]; [constructor|].
  unfold correct_and_sort. destruct rs; repeat constructor.
Qed.

(** *** A degenerate column leaves no result, plot, report or warning *)

Lemma analyze_column_degenerate t name :
  degenerate linalg_solve chi2_sf t name →
  (analyze_column t name).1 = []
  ∧ Forall is_call (analyze_column t name).2.
Proof.
  unfold degenerate, Driver.analyze_column.
  assert (∀ values d e, Forall is_call (find_optimal_threshold values d e).2)
    as Hsearch.
  { intros values d e. unfold Driver.find_optimal_threshold.
    case_decide; [constructor|]. rewrite bind_trace, app_nil_r.
    apply foldlM_trace. intros a c _. unfold threshold_step.
    case_decide; [constructor|]. rewrite bind_trace.
    apply Forall_app. split; [repeat constructor|by destruct (_ <? _)%num]. }
  assert (∀ cells, degenerate_numerical linalg_solve chi2_sf t cells →
            (analyze_numerical linalg_solve chi2_sf t name cells).1 = []
            ∧ Forall is_call
                (analyze_numerical linalg_solve chi2_sf t name cells).2)
    as Hnum.
  { intros cells. unfold degenerate_numerical, analyze_numerical.
    destruct (clean (time t) (event t) cells) as [[d e] v]. intros Hdeg.
    rewrite bind_value, bind_trace. rewrite decide_True by done.
    split; [done|]. rewrite app_nil_r. apply Hsearch. }
  destruct (lookup_column (metadata t) name) as [[cells|cells]|]; [by apply Hnum| |].
  - unfold degenerate_categorical, analyze_categorical.
    destruct (clean (time t) (event t) cells) as [[d e] g]. intros Hdeg.
    rewrite decide_True by done. split; [done|constructor].
  - destruct (lookup_column (gene_data t) name) as [cells|]; [by apply Hnum|done].
Qed.

Lemma analyze_variables_collect t cols :
  (analyze_variables t cols).1 = mjoin ((λ c, (analyze_column t c).1) <$> cols)
  ∧ (analyze_variables t cols).2 = mjoin ((λ c, (analyze_column t c).2) <$> cols).
Proof. apply (foldlM_append (analyze_column t) cols []). Qed.

Lemma survival_variables t cols :
  variables (survival t cols).1 = (analyze_variables t cols).1.
Proof.
  unfold Driver.survival. rewrite bind_value. case_decide; [|done].
  rewrite bind_value. by destruct (analyze_genes t).1.
Qed.
End DriverFacts.


Section DriverClaims.
Import Driver.
Context (linalg_solve : solver) (chi2_sf : survival_fn).
Context (multipletests : list num → list num).

Notation analyze_column := (Driver.analyze_column linalg_solve chi2_sf).
Notation analyze_variables := (Driver.analyze_variables linalg_solve chi2_sf).
Notation analyze_gene := (Driver.analyze_gene linalg_solve chi2_sf).
Notation analyze_genes := (Driver.analyze_genes linalg_solve chi2_sf).
Notation survival := (Driver.survival linalg_solve chi2_sf multipletests).

(** C7, as amended.  A column whose partition has fewer than two groups is
    skipped silently: it yields no result, and no plot, report or warning
    (what it leaves in the trace are the calls of the threshold search).
    Every call of the log-rank test made by a run has two groups or more,
    and the run goes on: its results are those of the other columns, in
    order. *)
Theorem degenerate_column_skipped (t : table) (before after : list string)
    (name : string) :
  degenerate linalg_solve chi2_sf t name →
  let cols := before ++ name :: after in
  (analyze_column t name).1 = []
  ∧ Forall is_call (analyze_column t name).2
  ∧ Forall two_groups_call (survival t cols).2
  ∧ variables (survival t cols).1
    = mjoin ((λ c, (analyze_column t c).1) <$> before)
      ++ mjoin ((λ c, (analyze_column t c).1) <$> after)
  ∧ variables (survival t cols).1 = variables (survival t (before ++ after)).1.
Proof.
  intros Hdeg cols.
  destruct (analyze_column_degenerate linalg_solve chi2_sf t name Hdeg)
    as [Hres Htrace].
  split_and!; [done|done|apply survival_calls| |].
  - rewrite survival_variables.
    rewrite (proj1 (analyze_variables_collect linalg_solve chi2_sf t cols)).
    unfold cols. rewrite fmap_app, fmap_cons, join_app. simpl.
    by rewrite Hres.
  - rewrite !survival_variables.
    rewrite !(proj1 (analyze_variables_collect linalg_solve chi2_sf t _)).
    unfold cols. rewrite !fmap_app, fmap_cons, !join_app. simpl.
    by rewrite Hres.
Qed.
End DriverClaims.

Lemma degenerate_column_skipped_witness :
  let run := Driver.survival Lib.linalg_solve Lib.chi2_sf
               MultipleTesting.benjamini_hochberg Driver.example_table in
  Driver.degenerate Lib.linalg_solve Lib.chi2_sf Driver.example_table "site"
  ∧ (Driver.analyze_column Lib.linalg_solve Lib.chi2_sf
       Driver.example_table "site").1 = []
  ∧ Forall Driver.two_groups_call (run ["stage"; "site"; "age"]).2
  ∧ Driver.variables (run ["stage"; "site"; "age"]).1
    = Driver.variables (run ["stage"; "age"]).1.
Proof.
  assert (Driver.degenerate Lib.linalg_solve Lib.chi2_sf
            Driver.example_table "site") as Hdeg by (vm_compute; lia).
  split; [exact Hdeg|].
  destruct (degenerate_column_skipped Lib.linalg_solve Lib.chi2_sf
              MultipleTesting.benjamini_hochberg Driver.example_table
              ["stage"] ["age"] "site" Hdeg) as (H1 & _ & H3 & _ & H5).
  split_and!; [exact H1|exact H3|exact H5].
Defined.

(** C7 as stated fails on the warning: a run over the one-label column
    "site" alone skips it, returns no result, and its trace is empty, so no
    warning is surfaced. *)
Lemma degenerate_column_no_warning :
  Driver.survival Lib.linalg_solve Lib.chi2_sf
    MultipleTesting.benjamini_hochberg Driver.example_table ["site"]
  = (Driver.Output [] None, []).
Proof. compute_done. Qed.


(** ** The gene scan *)

Section POrder.
Import MultipleTesting.

Lemma ltb_not_nan_trans (x y z : num) :
  is_nan x = false → is_nan y = false →
  (y <? x)%num = false → (z <? y)%num = false → (z <? x)%num = false.
Proof.
  destruct x as [a| | |], y as [b| | |], z as [c| | |]; simpl; try done.
  rewrite !bool_decide_eq_false. intros _ _ H1%Qcnot_lt_le H2%Qcnot_lt_le.
  apply Qcle_not_lt. by etrans.
Qed.

#[global] Instance p_le_total : Total p_le.
Proof.
  intros x y. unfold p_le.
  destruct (is_nan y) eqn:Hy; [by left; left|].
  destruct (is_nan x) eqn:Hx; [by right; left|].
  destruct (y <? x)%num eqn:Hlt; [|by left; right].
  right; right. split; [done|]. by apply ltb_asym.
Qed.

#[global] Instance p_le_trans : Transitive p_le.
Proof.
  intros x y z. unfold p_le. intros Hxy [Hz|[Hy Hyz]]; [by left|].
  destruct Hxy as [Hy'|[Hx Hxy]]; [congruence|].
  right. split; [done|]. by eapply ltb_not_nan_trans.
Qed.

#[global] Instance row_le_total : Total Driver.row_le.
Proof. intros a b. apply p_le_total. Qed.

#[global] Instance row_le_trans : Transitive Driver.row_le.
Proof. intros a b c. apply p_le_trans. Qed.
End POrder.

Lemma filter_length_split {A} (P : A → Prop) `{!∀ x, Decision (P x)}
    (l : list A) :
  (length (filter P l) + length (filter (λ x, ¬ P x) l) = length l)%nat.
Proof.
  induction l as [|x l IH]; [done|].
  rewrite !filter_cons. destruct (decide (P x)) as [HP|HP].
  - rewrite decide_False by tauto. simpl. lia.
  - rewrite decide_True by done. simpl. lia.
Qed.

Section GeneScan.
Import Driver.
Context (linalg_solve : solver) (chi2_sf : survival_fn).
Context (multipletests : list num → list num).

Notation analyze_gene := (Driver.analyze_gene linalg_solve chi2_sf).
Notation analyze_genes := (Driver.analyze_genes linalg_solve chi2_sf).
Notation scan_genes := (Driver.scan_genes linalg_solve chi2_sf).
Notation survival := (Driver.survival linalg_solve chi2_sf multipletests).
Notation logrank := (LogRank.calculate_logrank linalg_solve chi2_sf).
Notation from_column := (Trace.from_column linalg_solve chi2_sf).

(** One pass of the loop over the genes: a gene without a complete row
    raises; a dropped gene yields nothing at all; a kept gene yields one
    result, at the median, after one call of the log-rank test. *)
Lemma analyze_gene_cases (t : table) (nc : string * list (option Qc)) :
  (gene_without_row t nc ∧ analyze_gene t nc.1 nc.2 = (inl IndexError, []))
  ∨ (gene_dropped t nc ∧ analyze_gene t nc.1 nc.2 = (inr [], []))
  ∨ (¬ gene_without_row t nc ∧ gene_kept t nc
     ∧ ∃ d e v, clean (time t) (event t) nc.2 = (d, e, v)
         ∧ analyze_gene t nc.1 nc.2
           = (inr [GeneResult nc.1 (Stats.median v)
                     (logrank d e (Threshold.split_at v (Stats.median v))).2],
              [CallLogrank d e (Threshold.split_at v (Stats.median v))])).
Proof.
  unfold gene_dropped, gene_without_row, gene_kept, Driver.analyze_gene.
  destruct (clean (time t) (event t) nc.2) as [[d e] v] eqn:Hc.
  cbn [snd]. destruct v as [|x v]; [by left|right].
  cbn [Stats.np_percentile]. rewrite <-median_percentile_50.
  case_decide as Hlen.
  - left. split; [split; [done|lia]|done].
  - right. split; [done|]. split; [lia|]. by exists d, e, (x :: v).
Qed.

Lemma analyze_gene_is_call (t : table) (nc : string * list (option Qc)) :
  Forall is_call (analyze_gene t nc.1 nc.2).2.
Proof.
  destruct (analyze_gene_cases t nc)
    as [[_ ->]|[[_ ->]|(_ & _ & d & e & v & _ & ->)]]; repeat constructor.
Qed.

Lemma analyze_genes_is_call (t : table) : Forall is_call (analyze_genes t).2.
Proof.
  apply scan_genes_trace. intros nc _. apply analyze_gene_is_call.
Qed.

(** The loop over the genes: it raises when some gene has no complete row;
    otherwise it returns the results of the kept genes, in the order of
    the columns, after one call for each of them. *)
Lemma scan_genes_cases (t : table) (genes : list (string * list (option Qc))) :
  ∀ acc,
    (Exists (gene_without_row t) genes
     ∧ (scan_genes t acc genes).1 = inl IndexError)
    ∨ (Forall (λ nc, ¬ gene_without_row t nc) genes
       ∧ ∃ kept,
           (scan_genes t acc genes).1 = inr (acc ++ kept)
           ∧ gene <$> kept = fst <$> filter (gene_kept t) genes
           ∧ length (scan_genes t acc genes).2 = length kept
           ∧ Forall (from_column t genes) kept).
Proof.
  induction genes as [|nc genes IH]; intros acc.
  { right. split; [constructor|]. exists []. by rewrite app_nil_r. }
  cbn [Driver.scan_genes]. rewrite bind_value, bind_trace.
  destruct (analyze_gene_cases t nc)
    as [[Hw Ha]|[[Hd Ha]|(Hnw & Hk & d & e & v & Hc & Ha)]];
    rewrite Ha; cbn [fst snd].
  - left. split; [by left|done].
  - rewrite app_nil_r.
    destruct (IH acc) as [[Hex Hv]|(Hall & kept & Hv & Hn & Hl & Hr)].
    + left. split; [by right|done].
    + right. split; [constructor; [apply Hd|done]|].
      exists kept. split_and!; [done| |done|].
      * rewrite filter_cons. by rewrite decide_False by apply Hd.
      * eapply Forall_impl; [exact Hr|].
        intros r (cells & d & e & v & Hin & Hrest).
        exists cells, d, e, v. split; [by right|done].
  - set (res := GeneResult nc.1 (Stats.median v)
                  (logrank d e (Threshold.split_at v (Stats.median v))).2).
    destruct (IH (acc ++ [res]))
      as [[Hex Hv]|(Hall & kept & Hv & Hn & Hl & Hr)].
    + left. split; [by right|done].
    + right. split; [by constructor|].
      exists (res :: kept). split_and!.
      * rewrite Hv. by rewrite <-app_assoc.
      * rewrite filter_cons. rewrite decide_True by done. csimpl.
        by f_equal.
      * simpl. by f_equal.
      * constructor.
        -- exists nc.2, d, e, v. split_and!; try done.
           ++ destruct nc. left.
           ++ unfold gene_kept in Hk. by rewrite Hc in Hk.
        -- eapply Forall_impl; [exact Hr|].
           intros r (cells & d' & e' & v' & Hin & Hrest).
           exists cells, d', e', v'. split; [by right|done].
Qed.

(** A dropped gene can be erased from the table: the loop does the same
    without it. *)
Lemma scan_genes_erase (t : table) (genes : list (string * list (option Qc))) :
  ∀ acc,
    scan_genes t acc (filter (λ nc, ¬ gene_dropped t nc) genes)
    = scan_genes t acc genes.
Proof.
  induction genes as [|nc genes IH]; intros acc; [done|].
  rewrite filter_cons. destruct (decide (¬ gene_dropped t nc)) as [Hn|Hd].
  - cbn [Driver.scan_genes]. unfold bind.
    destruct (analyze_gene t nc.1 nc.2) as [[err|new] tr]; cbn [fst snd];
      [done|]. by rewrite IH.
  - apply dec_stable in Hd.
    destruct (analyze_gene_cases t nc)
      as [[Hw _]|[[_ Ha]|(_ & Hk & _)]];
      [by destruct Hd| |by destruct Hd].
    cbn [Driver.scan_genes]. rewrite Ha. unfold bind. cbn [fst snd].
    rewrite app_nil_r, IH. by destruct (scan_genes t acc genes).
Qed.

Lemma scan_genes_table (t t' : table)
    (genes : list (string * list (option Qc))) :
  time t' = time t → event t' = event t →
  ∀ acc, scan_genes t' acc genes = scan_genes t acc genes.
Proof.
  intros Ht He. induction genes as [|nc genes IH]; intros acc; [done|].
  cbn [Driver.scan_genes]. unfold Driver.analyze_gene. rewrite Ht, He.
  unfold bind.
  destruct (clean (time t) (event t) nc.2) as [[d e] v].
  destruct (Stats.np_percentile v 50) as [thr|]; [|done].
  case_decide; cbn [fst snd ret]; by rewrite IH.
Qed.

Lemma analyze_genes_without_dropped (t : table) :
  analyze_genes (without_dropped t) = analyze_genes t.
Proof.
  unfold Driver.analyze_genes.
  rewrite (scan_genes_table t (without_dropped t)) by done.
  unfold without_dropped. cbn [gene_data]. apply scan_genes_erase.
Qed.

(** What a run returns for the genes. *)
Lemma survival_genes (t : table) (cols : list string) :
  genes (survival t cols).1
  = if decide ("GENES" ∈ cols) then
      Some match (analyze_genes t).1 with
           | inl err => inl err
           | inr kept => (correct_and_sort multipletests kept).1
           end
    else None.
Proof.
  unfold Driver.survival. rewrite bind_value.
  case_decide; [|done]. rewrite bind_value.
  by destruct (analyze_genes t).1.
Qed.

(** Lines 251-259 on a collection that is not empty. *)
Lemma correct_and_sort_rows (kept : list gene_result) (rows : list gene_row) :
  (correct_and_sort multipletests kept).1 = inr rows →
  kept ≠ []
  ∧ rows = merge_sort row_le
             (zip_with GeneRow kept (multipletests (p_value <$> kept)))
  ∧ (correct_and_sort multipletests kept).2
    = [Significant
         (length (filter (λ r, (adjusted_p_value r
                                <? Fin (qc 5 / qc 100)%Qc)%num = true)
                         rows))].
Proof.
  unfold correct_and_sort. destruct kept as [|r kept]; [done|].
  intros [= <-]. done.
Qed.

Lemma filter_dropped_length (t : table)
    (genes : list (string * list (option Qc))) :
  Forall (λ nc, ¬ gene_without_row t nc) genes →
  (length (filter (gene_kept t) genes)
   + length (filter (gene_dropped t) genes) = length genes)%nat.
Proof.
  induction 1 as [|nc genes Hnc _ IH]; [done|].
  rewrite !filter_cons.
  destruct (decide (gene_kept t nc)) as [Hk|Hk].
  - rewrite decide_False by (unfold gene_dropped; tauto). simpl. lia.
  - rewrite decide_True by (unfold gene_dropped; tauto). simpl. lia.
Qed.

(** C9.  When the gene scan is requested and produces its table, every gene
    result comes from a gene column split at the median of its cleaned
    values, records that median as its threshold and carries the p-value of
    the log-rank test of that split; the loop makes one call of the log-rank
    test per result and nothing else (no threshold search).  The table is
    the results with their adjusted p-values, sorted by ascending raw
    p-value, and the reported count is the number of rows whose adjusted
    p-value is below 0.05. *)
Theorem gene_scan_output (t : table) (cols : list string)
    (rows : list gene_row) :
  "GENES" ∈ cols →
  genes (survival t cols).1 = Some (inr rows) →
  ∃ kept,
    (analyze_genes t).1 = inr kept
    ∧ (∀ r, r ∈ kept →
       ∃ cells d e v,
         (gene r, cells) ∈ gene_data t
         ∧ clean (time t) (event t) cells = (d, e, v)
         ∧ threshold r = Stats.median v
         ∧ p_value r
           = (LogRank.calculate_logrank linalg_solve chi2_sf d e
                (Threshold.split_at v (Stats.median v))).2
         ∧ (2 ≤ length (Np.unique_Z
                          (Threshold.split_at v (Stats.median v))))%nat)
    ∧ Forall is_call (analyze_genes t).2
    ∧ length (analyze_genes t).2 = length kept
    ∧ rows ≡ₚ zip_with GeneRow kept (multipletests (p_value <$> kept))
    ∧ StronglySorted row_le rows
    ∧ last (survival t cols).2
      = Some (Significant
                (length (filter (λ r, (adjusted_p_value r
                                       <? Fin (qc 5 / qc 100)%Qc)%num = true)
                                rows))).
Proof.
  intros HG Hrows. rewrite survival_genes, decide_True in Hrows by done.
  pose proof (survival_trace_cases linalg_solve chi2_sf multipletests t cols)
    as Htr. rewrite decide_True in Htr by done.
  unfold Driver.analyze_genes in *.
  destruct (scan_genes_cases t (gene_data t) [])
    as [[_ Hv]|(_ & kept & Hv & _ & Hl & Hr)];
    rewrite Hv in Hrows, Htr; [done|].
  cbn [app] in *. injection Hrows as Hrows.
  destruct (correct_and_sort_rows kept rows Hrows) as (_ & Hsort & Hcount).
  exists kept. split_and!; [done| |apply analyze_genes_is_call|done| | |].
  - intros r Hr'. rewrite Forall_forall in Hr. exact (Hr r Hr').
  - rewrite Hsort. apply merge_sort_Permutation.
  - rewrite Hsort. apply StronglySorted_merge_sort; apply _.
  - rewrite Htr, Hcount, !app_assoc. apply last_snoc.
Qed.

(** C10.  A gene whose median split has fewer than two groups leaves
    nothing behind: its pass returns no result and has an empty trace (no
    warning, no placeholder), and the whole gene scan, results, trace and
    exception included, is the scan of the table without the dropped
    genes.  When the scan produces its table, the results are those of the
    kept genes, in column order, after one call each; the correction is
    applied to their p-values only, so the size of the family is the number
    of genes scanned minus the number of genes dropped. *)
Theorem gene_scan_drops_degenerate (t : table) :
  (∀ nc, gene_dropped t nc → analyze_gene t nc.1 nc.2 = (inr [], []))
  ∧ analyze_genes (without_dropped t) = analyze_genes t
  ∧ (∀ cols, genes (survival (without_dropped t) cols).1
             = genes (survival t cols).1)
  ∧ (∀ cols rows,
       "GENES" ∈ cols → genes (survival t cols).1 = Some (inr rows) →
       ∃ kept,
         (analyze_genes t).1 = inr kept
         ∧ gene <$> kept = fst <$> filter (gene_kept t) (gene_data t)
         ∧ Forall is_call (analyze_genes t).2
         ∧ length (analyze_genes t).2 = length kept
         ∧ rows ≡ₚ zip_with GeneRow kept (multipletests (p_value <$> kept))
         ∧ (length (p_value <$> kept)
            + length (filter (gene_dropped t) (gene_data t))
            = length (gene_data t))%nat).
Proof.
  split_and!.
  - intros nc Hd.
    destruct (analyze_gene_cases t nc)
      as [[Hw _]|[[_ Ha]|(_ & Hk & _)]];
      [by destruct Hd|done|by destruct Hd].
  - apply analyze_genes_without_dropped.
  - intros cols. rewrite !survival_genes.
    by rewrite analyze_genes_without_dropped.
  - intros cols rows HG Hrows.
    rewrite survival_genes, decide_True in Hrows by done.
    unfold Driver.analyze_genes in *.
    destruct (scan_genes_cases t (gene_data t) [])
      as [[_ Hv]|(Hall & kept & Hv & Hn & Hl & _)];
      rewrite Hv in Hrows; [done|].
    cbn [app] in *. injection Hrows as Hrows.
    destruct (correct_and_sort_rows kept rows Hrows) as (_ & Hsort & _).
    exists kept.
    split_and!; [done|done|apply analyze_genes_is_call|done| |].
    + rewrite Hsort. apply merge_sort_Permutation.
    + rewrite length_fmap, <-(length_fmap gene), Hn, length_fmap.
      by apply filter_dropped_length.
Qed.
End GeneScan.

Lemma gene_scan_output_witness :
  let run := Driver.survival Lib.linalg_solve Lib.chi2_sf
               MultipleTesting.benjamini_hochberg Driver.example_table
               ["GENES"] in
  ∃ rows,
    ("GENES" ∈ ["GENES"] ∧ Driver.genes run.1 = Some (inr rows))
    ∧ StronglySorted Driver.row_le rows
    ∧ (Driver.gene ∘ Driver.row_result) <$> rows = ["g1"; "g3"].
Proof.
  intros run.
  destruct (Driver.genes run.1) as [[err|rows]|] eqn:Hrows;
    try (vm_compute in Hrows; discriminate).
  exists rows.
  assert ("GENES" ∈ ["GENES"]) as HG by (apply list_elem_of_singleton; done).
  destruct (gene_scan_output Lib.linalg_solve Lib.chi2_sf
              MultipleTesting.benjamini_hochberg Driver.example_table
              ["GENES"] rows HG Hrows)
    as (kept & _ & _ & _ & _ & _ & Hsorted & _).
  split_and!; [done|done|done|].
  vm_compute in Hrows. injection Hrows as <-. reflexivity.
Defined.

Lemma gene_scan_drops_degenerate_witness :
  let scan := λ t, Driver.survival Lib.linalg_solve Lib.chi2_sf
                     MultipleTesting.benjamini_hochberg t ["GENES"] in
  let other :=
    Driver.Table (Driver.time Driver.example_table)
      (Driver.event Driver.example_table) []
      [("g1", Driver.cell <$> [1; 2; 3; 4; 5]);
       ("g2", Driver.cell <$> [1; 1; 1; 2; 2]);
       ("g3", Driver.cell <$> [5; 1; 4; 2; 3])] in
  let adjusted := λ t,
    match Driver.genes (scan t).1 with
    | Some (inr rows) =>
        (λ r, (Driver.gene (Driver.row_result r), Driver.adjusted_p_value r))
          <$> rows
    | _ => []
    end in
  ∃ rows,
    ("GENES" ∈ ["GENES"]
     ∧ Driver.genes (scan Driver.example_table).1 = Some (inr rows))
    ∧ Driver.gene_dropped Driver.example_table
        ("g2", Driver.cell <$> [1; 1; 1; 1; 1])
    ∧ length rows = 2%nat
    ∧ adjusted Driver.example_table
      = [("g1", Fin (qc 19 / qc 50)%Qc); ("g3", Fin (qc 433 / qc 435)%Qc)]
    ∧ adjusted other
      = [("g1", Fin (qc 57 / qc 200)%Qc); ("g2", Fin (qc 57 / qc 200)%Qc);
         ("g3", Fin (qc 433 / qc 435)%Qc)].
Proof.
  intros scan other adjusted.
  destruct (Driver.genes (scan Driver.example_table).1)
    as [[err|rows]|] eqn:Hrows;
    try (vm_compute in Hrows; discriminate).
  exists rows.
  assert ("GENES" ∈ ["GENES"]) as HG by (apply list_elem_of_singleton; done).
  destruct (gene_scan_drops_degenerate Lib.linalg_solve Lib.chi2_sf
              MultipleTesting.benjamini_hochberg Driver.example_table)
    as (_ & _ & _ & Hcorr).
  destruct (Hcorr ["GENES"] rows HG Hrows)
    as (kept & Hkept & _ & _ & _ & Hperm & _).
  assert (length kept = 2%nat) as Hlen.
  { vm_compute in Hkept. by injection Hkept as <-. }
  split_and!; [done|done| | | |].
  - split; [by vm_compute|]. vm_compute. lia.
  - rewrite Hperm, length_zip_with_l_eq; [done|].
    rewrite Hlen. vm_compute in Hkept. injection Hkept as <-. reflexivity.
  - unfold adjusted. rewrite Hrows. vm_compute in Hrows.
    injection Hrows as <-. compute_done.
  - compute_done.
Defined.

(** ** The search, whatever the p-values are *)

Section ScanAny.
Context (valid : num → bool) (pv : num → num).
Notation scan_step := (Threshold.scan_step valid pv).

Lemma ltb_below_any (x m b : num) :
(x <? m)%num = true → (b <? m)%num = false →
is_nan b = true ∨ (x <? b)%num = true.
Proof.
intros H1 H2. destruct b as [q| | |]; [right; by eapply ltb_below| | |by left].
- right. by destruct x, m.
- by destruct x, m.
Qed.

(** The scan keeps the first candidate that no valid candidate beats; a
  candidate whose p-value is NaN never replaces the running minimum. *)
Lemma scan_result_any (cs : list num) :
∀ (m0 t0 : num),
  let r := foldl scan_step (m0, t0) cs in
  (r = (m0, t0)
   ∧ ∀ c, c ∈ cs → valid c = true → (pv c <? m0)%num = false)
  ∨ (∃ k c,
       cs !! k = Some c ∧ valid c = true ∧ r = (pv c, c)
       ∧ (pv c <? m0)%num = true
       ∧ (∀ j c', cs !! j = Some c' → valid c' = true →
                  (pv c' <? pv c)%num = false)
       ∧ (∀ j c', (j < k)%nat → cs !! j = Some c' → valid c' = true →
                  is_nan (pv c') = true ∨ (pv c <? pv c')%num = true)).
Proof.
induction cs as [|c cs IH]; intros m0 t0; simpl.
{ left. split; [done|]. intros c Hc. by apply elem_of_nil in Hc. }
change (scan_step (m0, t0) c)
  with (if valid c then (if (pv c <? m0)%num then (pv c, c) else (m0, t0))
        else (m0, t0)).
destruct (valid c) eqn:Hv; [destruct (pv c <? m0)%num eqn:Hlt|].
- destruct (IH (pv c) c)
    as [[Hr Hno]|(k & c' & Hk & Hv' & Hr & Hlt' & Hmin & Hfirst)].
  + right. exists 0%nat, c. split_and!; [done..| |].
    * intros [|j] c' Hj Hv'; simplify_eq/=; [apply ltb_irrefl|].
      apply Hno; [by eapply list_elem_of_lookup_2|done].
    * intros j c' Hj. lia.
  + right. exists (S k), c'. split_and!; [done..| | |].
    * by eapply ltb_trans.
    * intros [|j] c'' Hj Hv''; simplify_eq/=; [by apply ltb_asym|].
      by eapply Hmin.
    * intros [|j] c'' Hjk Hj Hv''; simplify_eq/=; [by right|].
      eapply Hfirst; [|done..]. lia.
- destruct (IH m0 t0)
    as [[Hr Hno]|(k & c' & Hk & Hv' & Hr & Hlt' & Hmin & Hfirst)].
  + left. split; [done|]. intros c' [->|Hc']%elem_of_cons Hv'; auto.
  + right. exists (S k), c'. split_and!; [done..| |].
    * intros [|j] c'' Hj Hv''; simplify_eq/=; [|by eapply Hmin].
      destruct (pv c'' <? pv c')%num eqn:Hcc; [|done].
      pose proof (ltb_trans _ _ _ Hcc Hlt') as Hx. congruence.
    * intros [|j] c'' Hjk Hj Hv''; simplify_eq/=.
      -- by eapply ltb_below_any.
      -- eapply Hfirst; [|done..]. lia.
- destruct (IH m0 t0)
    as [[Hr Hno]|(k & c' & Hk & Hv' & Hr & Hlt' & Hmin & Hfirst)].
  + left. split; [done|].
    intros c' [->|Hc']%elem_of_cons Hv'; [congruence|auto].
  + right. exists (S k), c'. split_and!; [done..| |].
    * intros [|j] c'' Hj Hv''; simplify_eq/=; [congruence|by eapply Hmin].
    * intros [|j] c'' Hjk Hj Hv''; simplify_eq/=; [congruence|].
      eapply Hfirst; [|done..]. lia.
Qed.
End ScanAny.

Section ThresholdSearch.
Import Stats Threshold.
Context (linalg_solve : solver) (chi2_sf : survival_fn).

(** X1.  For every input that is not empty the returned threshold lies
  between the 20th and the 80th percentile of the values, whatever the
  durations, the events and the p-values are. *)
Theorem find_optimal_threshold_in_range (values durations : list Qc)
  (events : list Z) :
values ≠ [] →
let r := find_optimal_threshold linalg_solve chi2_sf values durations events in
Num.leb (percentile values 20) r = true
∧ Num.leb r (percentile values 80) = true.
Proof.
intros Hne r. unfold r.
destruct (decide (length values < 3)%nat) as [Hlt|Hge].
- rewrite find_optimal_threshold_small by done. by apply median_in_range.
- destruct (find_optimal_threshold_cases linalg_solve chi2_sf values durations
              events ltac:(lia)) as [Hr|(c & Hc & _ & Hr)]; rewrite Hr.
  + by apply median_in_range.
  + by apply candidate_in_range.
Qed.

(** X2.  With three values or more, the search returns the first of the 61
  candidates that has two groups and a p-value no other two-group
  candidate is below, so the candidates before it either have a larger
  p-value or NaN as their p-value.  A candidate whose p-value is NaN or
  plus infinity is never returned, and the median is returned exactly when
  no two-group candidate has a p-value below plus infinity. *)
Theorem find_optimal_threshold_search (values durations : list Qc)
  (events : list Z) :
(3 ≤ length values)%nat →
let r := find_optimal_threshold linalg_solve chi2_sf values durations events in
let pv := p_value_at linalg_solve chi2_sf values durations events in
(r = median values
 ∧ ∀ c, c ∈ candidates values → two_groups values c = true →
        (pv c <? PInf)%num = false)
∨ (∃ k c,
     candidates values !! k = Some c ∧ two_groups values c = true ∧ r = c
     ∧ (pv c <? PInf)%num = true
     ∧ (∀ j c', candidates values !! j = Some c' →
                two_groups values c' = true → (pv c' <? pv c)%num = false)
     ∧ (∀ j c', (j < k)%nat → candidates values !! j = Some c' →
                two_groups values c' = true →
                is_nan (pv c') = true ∨ (pv c <? pv c')%num = true)).
Proof.
intros Hlen r pv. unfold r, find_optimal_threshold.
rewrite decide_False by lia. rewrite search_scan.
destruct (scan_result_any (two_groups values) pv (candidates values)
            PInf (median values))
  as [[Hr Hno]|(k & c & Hk & Hv & Hr & Hlt & Hmin & Hfirst)];
  unfold pv in *.
- left. split; [by rewrite Hr|done].
- right. exists k, c. split_and!; try done. by rewrite Hr.
Qed.
End ThresholdSearch.

Lemma find_optimal_threshold_in_range_witness :
let values := qc <$> [4; 1] in
let r := Threshold.find_optimal_threshold Lib.linalg_solve Lib.chi2_sf
         values (qc <$> [1; 2]) [1; 1] in
values ≠ []
∧ Num.leb (Stats.percentile values 20) r = true
∧ Num.leb r (Stats.percentile values 80) = true.
Proof.
split; [done|].
apply (find_optimal_threshold_in_range Lib.linalg_solve Lib.chi2_sf
         (qc <$> [4; 1]) (qc <$> [1; 2]) [1; 1]).
done.
Defined.

Lemma find_optimal_threshold_search_witness :
let values := qc <$> [1; 2; 3] in
let durations := qc <$> [1; 2; 3] in
let events := [1; 1; 1] in
let r := Threshold.find_optimal_threshold Lib.linalg_solve Lib.chi2_sf
         values durations events in
let pv := Threshold.p_value_at Lib.linalg_solve Lib.chi2_sf
          values durations events in
(3 ≤ length values)%nat
∧ ((r = Stats.median values
    ∧ ∀ c, c ∈ Threshold.candidates values →
           Threshold.two_groups values c = true →
           (pv c <? PInf)%num = false)
   ∨ (∃ k c,
        Threshold.candidates values !! k = Some c
        ∧ Threshold.two_groups values c = true ∧ r = c
        ∧ (pv c <? PInf)%num = true
        ∧ (∀ j c', Threshold.candidates values !! j = Some c' →
                   Threshold.two_groups values c' = true →
                   (pv c' <? pv c)%num = false)
        ∧ (∀ j c', (j < k)%nat →
                   Threshold.candidates values !! j = Some c' →
                   Threshold.two_groups values c' = true →
                   is_nan (pv c') = true ∨ (pv c <? pv c')%num = true))).
Proof.
split; [simpl; lia|].
apply (find_optimal_threshold_search Lib.linalg_solve Lib.chi2_sf
         (qc <$> [1; 2; 3]) (qc <$> [1; 2; 3]) [1; 1; 1]).
simpl; lia.
Defined.

(** ** What [calculate_logrank] reads and what it accumulates *)

Section LogRankFacts.
Import LogRank LogRankSpec LoopSums.

Lemma sum_perm (m m' : list bool) : m ≡ₚ m' → Np.sum m = Np.sum m'.
Proof.
induction 1 as [|b m m' _ IH|a b m|m1 m2 m3 _ IH1 _ IH2]; simpl; lia.
Qed.

Lemma count_perm (p : observation → bool) (c c' : list observation) :
c ≡ₚ c' → count p c = count p c'.
Proof. intros H. unfold count. apply sum_perm. by apply fmap_Permutation. Qed.

Lemma distinct_groups_perm (c c' : list observation) :
c ≡ₚ c' → distinct_groups c = distinct_groups c'.
Proof.
intros H. apply (sorted_same_elements Z.lt); [apply distinct_groups_sorted..|].
intros x. rewrite !elem_of_distinct_groups.
split; intros (o & Ho & ?); exists o; (split; [|done]).
- by rewrite <-H.
- by rewrite H.
Qed.

Lemma distinct_event_times_perm (c c' : list observation) :
c ≡ₚ c' → distinct_event_times c = distinct_event_times c'.
Proof.
intros H. apply (sorted_same_elements Qclt); [apply distinct_event_times_sorted..|].
intros x. rewrite !elem_of_distinct_event_times.
split; intros (o & Ho & ?); exists o; (split; [|done]).
- by rewrite <-H.
- by rewrite H.
Qed.

Lemma cohort_zip (d : list Qc) (e g : list Z) :
cohort d e g = (λ x, Obs x.1 x.2.1 x.2.2) <$> zip d (zip e g).
Proof.
unfold cohort. generalize (zip e g) as l.
induction d as [|x d IH]; intros [|y l]; simpl; try done.
f_equal. apply IH.
Qed.

Lemma sum_over_ext (ts : list Qc) (f f' : Qc → num) :
(∀ t, t ∈ ts → f t = f' t) → sum_over ts f = sum_over ts f'.
Proof.
intros H. unfold sum_over. apply foldl_ext_in. intros a t Ht.
by rewrite H.
Qed.

Lemma int64_small (z : Z) : - 2 ^ 63 ≤ z < 2 ^ 63 → Np.int64 z = z.
Proof.
intros H. unfold Np.int64.
change (2 ^ 64) with 18446744073709551616.
change (2 ^ 63) with 9223372036854775808 in *.
rewrite Z.mod_small by lia. lia.
Qed.

Lemma add_nan_r (x : num) : (x + NaN)%num = NaN.
Proof. by destruct x. Qed.

Lemma mul_nan_r (x : num) : (x * NaN)%num = NaN.
Proof. by destruct x. Qed.

Lemma foldl_add_nan (ts : list Qc) (f : Qc → num) :
foldl (λ acc t, acc + f t)%num NaN ts = NaN.
Proof. induction ts as [|t ts IH]; [done|]. simpl. apply IH. Qed.

Lemma sum_over_nan (ts : list Qc) (f : Qc → num) (t : Qc) :
t ∈ ts → f t = NaN → sum_over ts f = NaN.
Proof.
intros Ht Hf. unfold sum_over. generalize zero as a.
induction ts as [|s ts IH]; intros a; [by apply elem_of_nil in Ht|].
simpl. apply elem_of_cons in Ht as [<-|Ht].
- rewrite Hf, add_nan_r. apply foldl_add_nan.
- by apply IH.
Qed.

Lemma sum_over_fin (ts : list Qc) (f : Qc → num) :
(∀ t, t ∈ ts → is_fin (f t) = true) → is_fin (sum_over ts f) = true.
Proof.
unfold sum_over, zero, of_Z. generalize (Qc_of_Z 0) as q.
induction ts as [|t ts IH]; intros q H; [done|]. simpl.
pose proof (H t ltac:(left)) as Ht.
destruct (f t) as [q'| | |]; try done. simpl.
apply IH. intros; apply H. by right.
Qed.

Context (d : list Qc) (e g : list Z).
Context (Hde : length d = length e) (Heg : length e = length g).

Let c := cohort d e g.
Let gs := distinct_groups c.

Lemma observed_minus_expected_at_fin (h : Z) (t : Qc) :
t ∈ distinct_event_times c →
is_fin (observed_minus_expected_at c h t) = true.
Proof.
intros Ht. pose proof (at_risk_overall_pos c t Ht).
unfold observed_minus_expected_at. rewrite int_div_Fin by lia. done.
Qed.

Lemma hypergeometric_factor_single (t : Qc) :
t ∈ distinct_event_times c → at_risk_overall c t = 1 →
hypergeometric_factor c t = NaN.
Proof.
intros Ht H1. pose proof (events_overall_pos c t Ht).
pose proof (events_le_at_risk c t).
unfold hypergeometric_factor. rewrite H1.
replace (events_overall c t) with 1 by lia. done.
Qed.

Lemma hypergeometric_factor_fin (t : Qc) :
2 ≤ at_risk_overall c t ≤ 2 ^ 21 →
is_fin (hypergeometric_factor c t) = true.
Proof.
intros H1. unfold hypergeometric_factor, variance_factor.
rewrite int_div_Fin; [done|].
change (2 ^ 21) with 2097152 in H1.
rewrite (int64_small (at_risk_overall c t * at_risk_overall c t))
  by (change (2 ^ 63) with 9223372036854775808; nia).
rewrite int64_small by (change (2 ^ 63) with 9223372036854775808; nia).
nia.
Qed.

Lemma variance_at_single (x y : Z) (t : Qc) :
t ∈ distinct_event_times c → at_risk_overall c t = 1 →
variance_at c x y t = NaN.
Proof.
intros Ht H1. unfold variance_at.
rewrite hypergeometric_factor_single by done.
case_decide; apply mul_nan_r.
Qed.

Lemma variance_at_fin (x y : Z) (t : Qc) :
2 ≤ at_risk_overall c t ≤ 2 ^ 21 →
is_fin (variance_at c x y t) = true.
Proof.
intros H1. unfold variance_at.
pose proof (hypergeometric_factor_fin t H1) as Hf.
destruct (hypergeometric_factor c t); try done. by case_decide.
Qed.

Lemma variance_at_sym (x y : Z) (t : Qc) :
variance_at c x y t = variance_at c y x t.
Proof.
unfold variance_at. repeat case_decide; subst; try done.
do 3 f_equal. lia.
Qed.

Lemma accumulate_lookup (i j : nat) (r : list num) (v : num) :
(accumulate d e g).2 !! i = Some r → r !! j = Some v →
∃ x y, gs !! i = Some x ∧ gs !! j = Some y ∧ v = variance c x y.
Proof.
rewrite (accumulate_closed d e g Hde Heg). fold c gs. simpl.
rewrite list_lookup_fmap. intros Hr.
destruct (gs !! i) as [x|] eqn:Hx; simplify_eq/=.
rewrite list_lookup_fmap. intros Hv.
destruct (gs !! j) as [y|] eqn:Hy; simplify_eq/=.
by exists x, y.
Qed.

(** X3.  The test on line 25 never succeeds: at every time of the loop at
  least one event is counted and at least as many subjects are at risk, so
  no pass is skipped and the pass is the loop over the groups. *)
Theorem logrank_guard_never_taken (unique_groups : list Z)
  (st : list num * matrix) (t : Qc) :
t ∈ event_times d e →
let n_events := Np.sum (events_at_mask d e t) in
let n_at_risk := Np.sum (at_risk_mask d t) in
1 ≤ n_events ∧ n_events ≤ n_at_risk
∧ loop_t d e g unique_groups st t
  = foldl (loop_i g unique_groups (at_risk_mask d t) (events_at_mask d e t)
             n_events n_at_risk)
          st (Np.enumerate unique_groups).
Proof.
intros Ht n_events n_at_risk.
rewrite (event_times_cohort d e g Hde Heg) in Ht. fold c in Ht.
pose proof (events_overall_pos c t Ht) as H1.
pose proof (events_le_at_risk c t) as H2.
unfold c in H1, H2.
rewrite <-(n_events_cohort d e g Hde Heg) in H1, H2.
rewrite <-(n_at_risk_cohort d e g Hde Heg) in H2.
fold n_events in H1, H2. fold n_at_risk in H2.
split_and!; [done..|].
unfold loop_t. fold n_events n_at_risk. by rewrite decide_False by lia.
Qed.

(** X4.  The accumulated O - E holds numbers only.  When some time of the
  loop has exactly one subject at risk (the largest duration belongs to one
  subject, who has an event), every entry of V is NaN.  When every time of
  the loop has at least two subjects at risk, and at most 2^21 of them, so
  that the 64-bit product in the denominator of the factor does not wrap,
  V holds numbers only. *)
Theorem logrank_variance_nan :
Forall (λ x, is_fin x = true) (accumulate d e g).1
∧ ((∃ t, t ∈ event_times d e ∧ Np.sum (at_risk_mask d t) = 1) →
   Forall (Forall (λ x, x = NaN)) (accumulate d e g).2)
∧ ((∀ t, t ∈ event_times d e → 2 ≤ Np.sum (at_risk_mask d t) ≤ 2 ^ 21) →
   Forall (Forall (λ x, is_fin x = true)) (accumulate d e g).2).
Proof.
rewrite (accumulate_closed d e g Hde Heg),
  (event_times_cohort d e g Hde Heg). fold c gs. simpl.
split_and!.
- apply Forall_fmap, Forall_forall. intros h _. simpl.
  apply sum_over_fin. intros t Ht. by apply observed_minus_expected_at_fin.
- intros (t & Ht & H1).
  rewrite (n_at_risk_cohort d e g Hde Heg) in H1. fold c in H1.
  apply Forall_fmap, Forall_forall. intros x _. simpl.
  apply Forall_fmap, Forall_forall. intros y _. simpl.
  apply (sum_over_nan _ _ t Ht). by apply variance_at_single.
- intros H1.
  apply Forall_fmap, Forall_forall. intros x _. simpl.
  apply Forall_fmap, Forall_forall. intros y _. simpl.
  apply sum_over_fin. intros t Ht. apply variance_at_fin.
  specialize (H1 t Ht).
  by rewrite (n_at_risk_cohort d e g Hde Heg) in H1.
Qed.

(** X5.  With n the number of distinct group labels, the accumulated O - E
  has n entries and V is an n by n matrix that is symmetric, entry by
  entry. *)
Theorem logrank_variance_symmetric :
let n := length (Np.unique_Z g) in
length (accumulate d e g).1 = n
∧ length (accumulate d e g).2 = n
∧ Forall (λ r, length r = n) (accumulate d e g).2
∧ ∀ i j ri rj x y,
    (accumulate d e g).2 !! i = Some ri → ri !! j = Some x →
    (accumulate d e g).2 !! j = Some rj → rj !! i = Some y →
    x = y.
Proof.
intros n. split_and!.
- rewrite (accumulate_closed d e g Hde Heg). simpl. rewrite length_fmap.
  unfold n. by rewrite (unique_groups_cohort d e g Hde Heg).
- rewrite (accumulate_closed d e g Hde Heg). simpl. rewrite length_fmap.
  unfold n. by rewrite (unique_groups_cohort d e g Hde Heg).
- rewrite (accumulate_closed d e g Hde Heg). simpl.
  apply Forall_fmap, Forall_forall. intros x _. simpl. rewrite length_fmap.
  unfold n. by rewrite (unique_groups_cohort d e g Hde Heg).
- intros i j ri rj x y Hi Hx Hj Hy.
  destruct (accumulate_lookup i j ri x Hi Hx) as (a & b & Ha & Hb & ->).
  destruct (accumulate_lookup j i rj y Hj Hy) as (b' & a' & Hb' & Ha' & ->).
  simplify_eq. unfold variance. apply sum_over_ext. intros t _.
  apply variance_at_sym.
Qed.
End LogRankFacts.

Section LogRankOrder.
Import LogRank LogRankSpec LoopSums.
Variable linalg_solve : solver.
Variable chi2_sf : survival_fn.

Lemma accumulate_perm (d d' : list Qc) (e g e' g' : list Z) :
length d = length e → length e = length g →
length d' = length e' → length e' = length g' →
cohort d e g ≡ₚ cohort d' e' g' →
accumulate d e g = accumulate d' e' g'.
Proof.
intros Hde Heg Hde' Heg' H.
rewrite (accumulate_closed d e g Hde Heg),
  (accumulate_closed d' e' g' Hde' Heg').
rewrite <-(distinct_groups_perm _ _ H).
assert (∀ p, count p (cohort d e g) = count p (cohort d' e' g')) as Hc
  by (intros; by apply count_perm).
f_equal.
- apply list_fmap_ext. intros _ x _. unfold observed_minus_expected.
  rewrite <-(distinct_event_times_perm _ _ H).
  apply sum_over_ext. intros t _.
  unfold observed_minus_expected_at, events_in, events_overall, at_risk_in,
    at_risk_overall.
  by rewrite !Hc.
- apply list_fmap_ext. intros _ x _. apply list_fmap_ext. intros _ y _.
  unfold variance. rewrite <-(distinct_event_times_perm _ _ H).
  apply sum_over_ext. intros t _.
  unfold variance_at, hypergeometric_factor, events_overall, at_risk_in,
    at_risk_overall.
  by rewrite !Hc.
Qed.

(** X6.  The statistic and the p-value do not depend on the order of the
  observations: two inputs whose (duration, event, group) triples are the
  same up to their order give the same result, for instance an input and
  its reversal. *)
Theorem calculate_logrank_order (d d' : list Qc) (e g e' g' : list Z) :
length d = length e → length e = length g →
length d' = length e' → length e' = length g' →
zip d (zip e g) ≡ₚ zip d' (zip e' g') →
calculate_logrank linalg_solve chi2_sf d e g
= calculate_logrank linalg_solve chi2_sf d' e' g'.
Proof.
intros Hde Heg Hde' Heg' H.
assert (cohort d e g ≡ₚ cohort d' e' g') as Hc.
{ rewrite !cohort_zip. by apply fmap_Permutation. }
unfold calculate_logrank, chi2_statistic.
rewrite (accumulate_perm d d' e g e' g') by done.
rewrite (unique_groups_cohort d e g Hde Heg),
  (unique_groups_cohort d' e' g' Hde' Heg').
by rewrite (distinct_groups_perm _ _ Hc).
Qed.

Lemma events_at_mask_coding (d : list Qc) (e e' : list Z) (t : Qc) :
(λ x, bool_decide (x = 1)) <$> e = (λ x, bool_decide (x = 1)) <$> e' →
events_at_mask d e t = events_at_mask d e' t.
Proof. intros H. unfold events_at_mask. by rewrite H. Qed.

(** X7.  Of the event column the test reads only which entries are equal to
  1: two event columns that agree on that give the same result, so an
  indicator with any other value counts as censored. *)
Theorem calculate_logrank_event_coding (d : list Qc) (e e' g : list Z) :
(λ x, bool_decide (x = 1)) <$> e = (λ x, bool_decide (x = 1)) <$> e' →
calculate_logrank linalg_solve chi2_sf d e g
= calculate_logrank linalg_solve chi2_sf d e' g.
Proof.
intros H.
assert (accumulate d e g = accumulate d e' g) as Ha.
{ unfold accumulate, event_times. rewrite H.
  apply foldl_ext_in. intros st t _. unfold loop_t.
  by rewrite (events_at_mask_coding d e e' t H). }
unfold calculate_logrank, chi2_statistic. by rewrite Ha.
Qed.
End LogRankOrder.

Lemma logrank_guard_never_taken_witness :
let d := qc <$> [5; 6; 6; 2; 4] in
let e := [1; 0; 1; 1; 1] in
let g := [0; 0; 1; 1; 1] in
(length d = length e ∧ length e = length g
 ∧ qc 6 ∈ LogRank.event_times d e)
∧ 1 ≤ Np.sum (LogRank.events_at_mask d e (qc 6))
∧ Np.sum (LogRank.events_at_mask d e (qc 6))
  ≤ Np.sum (LogRank.at_risk_mask d (qc 6)).
Proof.
assert (qc 6 ∈ LogRank.event_times (qc <$> [5; 6; 6; 2; 4]) [1; 0; 1; 1; 1])
  as H by (compute_done).
split; [split_and!; [reflexivity..|exact H]|].
pose proof (logrank_guard_never_taken (qc <$> [5; 6; 6; 2; 4])
  [1; 0; 1; 1; 1] [0; 0; 1; 1; 1] eq_refl eq_refl [0; 1]
  (Np.zeros 2, Np.zeros2 2 2) (qc 6) H) as (H1 & H2 & _).
split; [exact H1|exact H2].
Defined.

Lemma logrank_variance_nan_witness :
let d := qc <$> [1; 2] in
let e := [1; 1] in
let g := [0; 1] in
(length d = length e ∧ length e = length g
 ∧ ∃ t, t ∈ LogRank.event_times d e
        ∧ Np.sum (LogRank.at_risk_mask d t) = 1)
∧ Forall (λ x, is_fin x = true) (LogRank.accumulate d e g).1
∧ Forall (Forall (λ x, x = NaN)) (LogRank.accumulate d e g).2.
Proof.
assert (∃ t, t ∈ LogRank.event_times (qc <$> [1; 2]) [1; 1]
             ∧ Np.sum (LogRank.at_risk_mask (qc <$> [1; 2]) t) = 1) as H.
{ exists (qc 2). split; [|reflexivity].
  compute_done. }
split; [split_and!; [reflexivity..|exact H]|].
pose proof (logrank_variance_nan (qc <$> [1; 2]) [1; 1] [0; 1]
  eq_refl eq_refl) as (H1 & H2 & _).
split; [exact H1|exact (H2 H)].
Defined.

Lemma logrank_variance_symmetric_witness :
let d := qc <$> [5; 6; 6; 2; 4] in
let e := [1; 0; 1; 1; 1] in
let g := [0; 0; 1; 1; 2] in
(length d = length e ∧ length e = length g)
∧ length (LogRank.accumulate d e g).1 = 3%nat
∧ length (LogRank.accumulate d e g).2 = 3%nat.
Proof.
split; [split; reflexivity|].
pose proof (logrank_variance_symmetric (qc <$> [5; 6; 6; 2; 4])
  [1; 0; 1; 1; 1] [0; 0; 1; 1; 2] eq_refl eq_refl) as (H1 & H2 & _).
split; [exact H1|exact H2].
Defined.

Lemma calculate_logrank_order_witness :
let d := qc <$> [5; 6; 6; 2; 4] in
let e := [1; 0; 1; 1; 1] in
let g := [0; 0; 1; 1; 1] in
(length d = length e ∧ length e = length g
 ∧ zip d (zip e g) ≡ₚ zip (reverse d) (zip (reverse e) (reverse g)))
∧ LogRank.calculate_logrank Lib.linalg_solve Lib.chi2_sf d e g
  = LogRank.calculate_logrank Lib.linalg_solve Lib.chi2_sf
      (reverse d) (reverse e) (reverse g).
Proof.
assert (zip (qc <$> [5; 6; 6; 2; 4]) (zip [1; 0; 1; 1; 1] [0; 0; 1; 1; 1])
        ≡ₚ zip (reverse (qc <$> [5; 6; 6; 2; 4]))
               (zip (reverse [1; 0; 1; 1; 1]) (reverse [0; 0; 1; 1; 1])))
  as H.
{ change (zip (reverse (qc <$> [5; 6; 6; 2; 4]))
              (zip (reverse [1; 0; 1; 1; 1]) (reverse [0; 0; 1; 1; 1])))
    with (reverse (zip (qc <$> [5; 6; 6; 2; 4])
                       (zip [1; 0; 1; 1; 1] [0; 0; 1; 1; 1]))).
  symmetry. apply reverse_Permutation. }
split; [split_and!; [reflexivity..|exact H]|].
exact (calculate_logrank_order Lib.linalg_solve Lib.chi2_sf
  (qc <$> [5; 6; 6; 2; 4]) (reverse (qc <$> [5; 6; 6; 2; 4]))
  [1; 0; 1; 1; 1] [0; 0; 1; 1; 1] (reverse [1; 0; 1; 1; 1])
  (reverse [0; 0; 1; 1; 1]) eq_refl eq_refl eq_refl eq_refl H).
Defined.

Lemma calculate_logrank_event_coding_witness :
let d := qc <$> [5; 6; 6; 2; 4] in
let g := [0; 0; 1; 1; 1] in
LogRank.calculate_logrank Lib.linalg_solve Lib.chi2_sf d [1; 2; 1; 0; 1] g
= LogRank.calculate_logrank Lib.linalg_solve Lib.chi2_sf d [1; 0; 1; 0; 1] g.
Proof.
exact (calculate_logrank_event_coding Lib.linalg_solve Lib.chi2_sf
  (qc <$> [5; 6; 6; 2; 4]) [1; 2; 1; 0; 1] [1; 0; 1; 0; 1] [0; 0; 1; 1; 1]
  eq_refl).
Defined.

(** ** The censoring markers and the values of a curve, for every input *)

#[global] Instance le_duration_trans : Transitive Curve.le_duration.
Proof. intros a b c. unfold Curve.le_duration. apply Qcle_trans. Qed.

#[global] Instance le_duration_total : Total Curve.le_duration.
Proof.
intros a b. unfold Curve.le_duration.
destruct (Qclt_le_dec a.1 b.1) as [H|H]; [left; by apply Qclt_le_weak|by right].
Qed.

Section MarkerFacts.
Import Curve Markers.
Local Open Scope Qc_scope.
Notation well_formed := Curve.well_formed.

Lemma sort_by_duration_sorted (obs : list (Qc * Z)) :
StronglySorted le_duration (sort_by_duration obs).
Proof. apply StronglySorted_merge_sort; apply _. Qed.

Lemma take_scale_from (j : nat) (f : num) (l : list num) :
take j (scale_from j f l) = take j l.
Proof.
unfold scale_from. rewrite take_app, take_take, Nat.min_id, length_take.
destruct (decide (j ≤ length l)%nat).
- replace (j - j `min` length l)%nat with 0%nat by lia. simpl.
  by rewrite app_nil_r.
- rewrite (drop_ge l j) by lia. simpl. by rewrite take_nil, app_nil_r.
Qed.

Lemma on_previous_step_take_le (ut : list Qc) (sv : list num) (j j' : nat)
  (m : Qc * num) :
(j ≤ j')%nat →
on_previous_step ut (take j sv) m → on_previous_step ut (take j' sv) m.
Proof.
intros Hj (i & Hi & H). exists i. split; [|done].
apply lookup_take_Some in Hi as [Hi ?]. apply lookup_take_Some.
split; [done|lia].
Qed.

Lemma on_previous_step_take (ut : list Qc) (sv : list num) (j : nat)
  (m : Qc * num) :
on_previous_step ut (take j sv) m → on_previous_step ut sv m.
Proof.
intros (i & Hi & H). exists i. split; [|done].
by apply lookup_take_Some in Hi as [Hi ?].
Qed.

(** One run of the [while] loop: what it consumes, the markers it adds and
  the part of the curve it leaves alone. *)
Lemma drain_marks (t : Qc) (j : nat) (rest : list (Qc * Z)) :
∀ (ar : Z) (sv : list num) (mk : list (Qc * num)),
  ∃ k, rest = k ++ Curve.rest (drain t j rest ar sv mk)
       ∧ Forall (λ o, o.1 ≤ t) k
       ∧ (marks (drain t j rest ar sv mk)).*1
         = mk.*1 ++ (filter (λ o, o.2 = 0%Z) k).*1
       ∧ (∀ o, head (Curve.rest (drain t j rest ar sv mk)) = Some o →
               t < o.1)
       ∧ length (surv (drain t j rest ar sv mk)) = length sv
       ∧ take j (surv (drain t j rest ar sv mk)) = take j sv.
Proof.
induction rest as [|[d ev] rest IH]; intros ar sv mk; simpl.
{ exists []. split_and!; try done. by rewrite app_nil_r. }
case_decide as Hd.
2:{ exists []. simpl. split_and!; try done; [by rewrite app_nil_r|].
    intros o [= <-]. simpl. by apply Qcnot_le_lt. }
case_decide as Hev.
- destruct (IH (ar - 1)%Z (scale_from j (int_div (ar - 1) ar) sv) mk)
    as (k & E & Hk & Hm & Hh & Hl & Ht).
  exists ((d, ev) :: k). split_and!.
  + simpl. by f_equal.
  + by constructor.
  + rewrite Hm. by rewrite filter_cons_False.
  + done.
  + by rewrite Hl, length_scale_from.
  + by rewrite Ht, take_scale_from.
- assert (ev = 0%Z) as Hev0
    by (destruct (decide (ev = 0%Z)); [done|by destruct Hev]).
  destruct (IH (ar - 1)%Z sv (mk ++ [(d, read sv (j - 1)%nat)]))
    as (k & E & Hk & Hm & Hh & Hl & Ht).
  exists ((d, ev) :: k). split_and!; try done.
  + simpl. by f_equal.
  + by constructor.
  + rewrite Hm, fmap_app, filter_cons_True by done. simpl.
    by rewrite <-app_assoc.
Qed.

Lemma fold_marks (jts : list (nat * Qc)) :
∀ st : state,
  ∃ k, Curve.rest st = k ++ Curve.rest (foldl step st jts)
       ∧ (marks (foldl step st jts)).*1
         = (marks st).*1 ++ (filter (λ o, o.2 = 0%Z) k).*1.
Proof.
induction jts as [|[j t] jts IH]; intros st; simpl.
{ exists []. by rewrite !app_nil_r. }
destruct (drain_marks t j (Curve.rest st) (at_risk st) (surv st) (marks st))
  as (k1 & E1 & _ & M1 & _).
destruct (IH (step st (j, t))) as (k2 & E2 & M2).
exists (k1 ++ k2). split.
- rewrite <-app_assoc, <-E2. exact E1.
- rewrite M2. unfold step. cbn [fst snd].
  rewrite M1, filter_app, fmap_app. by rewrite app_assoc.
Qed.

(** A marker added at step [j] sits on the step before its time. *)
Lemma drain_heights (ut : list Qc) (t : Qc) (j : nat)
  (rest : list (Qc * Z)) :
∀ (ar : Z) (sv : list num) (mk : list (Qc * num)),
  StronglySorted Qclt ut → ut !! j = Some t →
  (1 ≤ j)%nat → (j ≤ length sv)%nat →
  Forall (λ o, o.1 ∈ ut
               ∧ ∀ i t', (1 ≤ i < j)%nat → ut !! i = Some t' → t' < o.1)
         rest →
  Forall (on_previous_step ut (take j sv)) mk →
  Forall (on_previous_step ut (take j (surv (drain t j rest ar sv mk))))
         (marks (drain t j rest ar sv mk)).
Proof.
induction rest as [|[d ev] rest IH]; intros ar sv mk Hs Hj H1 Hlen Hrest Hmk;
  simpl; [done|].
apply Forall_cons in Hrest as [[Hin Hlow] Hrest]. simpl in Hin, Hlow.
case_decide as Hd; [|done].
case_decide as Hev.
- apply IH; try done.
  + by rewrite length_scale_from.
  + by rewrite take_scale_from.
- apply IH; try done.
  apply Forall_app. split; [done|]. constructor; [|done].
  exists (j - 1)%nat. simpl. split.
  { destruct (lookup_lt_is_Some_2 sv (j - 1)%nat) as [v Hv]; [lia|].
    apply lookup_take_Some. split; [|lia].
    rewrite Hv. f_equal. symmetry. unfold read. by apply nth_lookup_Some. }
  apply list_elem_of_lookup in Hin as [m Hm].
  assert (m ≤ j)%nat as Hmj.
  { destruct (decide (m ≤ j)%nat) as [|Hn]; [done|]. exfalso.
    pose proof (StronglySorted_lookup Qclt ut j m t d Hs ltac:(lia) Hj Hm)
      as Hlt.
    by destruct (Qclt_not_le _ _ Hlt). }
  destruct (decide (m = j)) as [->|Hne].
  { left. by replace (S (j - 1)) with j by lia. }
  destruct (decide (m = 0)%nat) as [->|Hm0].
  2:{ exfalso. apply (irreflexivity Qclt d). apply (Hlow m); [lia|done]. }
  destruct (decide (j = 1)%nat) as [->|Hj1]; [by right|].
  exfalso.
  destruct (lookup_lt_is_Some_2 ut 1%nat) as [t1 Ht1].
  { apply lookup_lt_Some in Hj. lia. }
  pose proof (Hlow 1%nat t1 ltac:(lia) Ht1) as Hlt1.
  pose proof (StronglySorted_lookup Qclt ut 0 1 d t1 Hs ltac:(lia) Hm Ht1)
    as Hlt2.
  apply (irreflexivity Qclt d). by etrans.
Qed.

Lemma fold_heights (ut ts : list Qc) :
∀ (j0 : nat) (st : state),
  StronglySorted Qclt ut → (1 ≤ j0)%nat → drop j0 ut = ts →
  length (surv st) = length ut →
  StronglySorted le_duration (Curve.rest st) →
  Forall (λ o, o.1 ∈ ut
               ∧ ∀ i t', (1 ≤ i < j0)%nat → ut !! i = Some t' → t' < o.1)
         (Curve.rest st) →
  Forall (on_previous_step ut (take j0 (surv st))) (marks st) →
  Forall (on_previous_step ut
            (surv (foldl step st (imap (λ k t, (j0 + k, t)%nat) ts))))
         (marks (foldl step st (imap (λ k t, (j0 + k, t)%nat) ts))).
Proof.
induction ts as [|t ts IH]; intros j0 st Hs Hj0 Hdrop Hlen Hsorted Hrest Hmk.
{ simpl. eapply Forall_impl; [done|]. intros m. apply on_previous_step_take. }
assert (ut !! j0 = Some t) as Hj.
{ rewrite <-(Nat.add_0_r j0), <-lookup_drop, Hdrop. done. }
assert (drop (S j0) ut = ts) as Hdrop'.
{ replace (S j0) with (j0 + 1)%nat by lia. by rewrite <-drop_drop, Hdrop. }
cbn [imap foldl].
rewrite (imap_ext _ (λ k t, (S j0 + k, t)%nat))
  by (intros; simpl; f_equal; lia).
rewrite Nat.add_0_r.
destruct (drain_marks t j0 (Curve.rest st) (at_risk st) (surv st) (marks st))
  as (k & E & Hk & Hm & Hh & Hl & Ht).
pose proof (drain_heights ut t j0 (Curve.rest st) (at_risk st) (surv st)
              (marks st) Hs Hj Hj0) as Hd.
assert (j0 < length ut)%nat as Hlt by (by apply lookup_lt_Some in Hj).
apply IH; try done; unfold step; cbn [fst snd].
- lia.
- by rewrite Hl.
- rewrite E in Hsorted. by apply StronglySorted_app_1_r in Hsorted.
- apply Forall_forall. intros o Ho.
  assert (o ∈ Curve.rest st) as Ho'
    by (rewrite E; apply elem_of_app; by right).
  rewrite Forall_forall in Hrest. destruct (Hrest o Ho') as [Hin Hlow].
  split; [done|]. intros i t' Hi Hi'.
  destruct (decide (i = j0)) as [->|Hne]; [|apply (Hlow i); [lia|done]].
  rewrite Hj in Hi'. injection Hi' as <-.
  rewrite E in Hsorted. apply StronglySorted_app_1_r in Hsorted.
  destruct (Curve.rest (drain t j0 (Curve.rest st) (at_risk st) (surv st)
                          (marks st))) as [|o1 r]; [by apply elem_of_nil in Ho|].
  specialize (Hh o1 eq_refl).
  destruct (StronglySorted_head le_duration (o1 :: r) o1 o Hsorted eq_refl Ho)
    as [->|Hle]; [done|].
  by eapply Qclt_le_trans.
- eapply Forall_impl; [apply Hd; [lia|done|done]|].
  intros m. apply on_previous_step_take_le. lia.
Qed.

(** Every marker of a curve sits on the step before its time. *)
Lemma kaplan_meier_marker_heights (obs : list (Qc * Z)) :
Forall (on_previous_step (times (kaplan_meier obs))
          (survival (kaplan_meier obs)))
       (censored (kaplan_meier obs)).
Proof.
unfold kaplan_meier. cbn [times survival censored].
set (sorted := sort_by_duration obs).
set (ut := Np.unique_Qc (0 :: sorted.*1)).
assert (drop 1 ut = tail ut) as Hdrop by (by destruct ut).
apply (fold_heights ut (tail ut) 1
         (State sorted (Z.of_nat (length sorted))
            (replicate (length ut) one) [])); cbn [Curve.rest surv marks].
- apply unique_sorted; apply _.
- lia.
- done.
- by rewrite length_replicate.
- apply sort_by_duration_sorted.
- apply Forall_forall. intros o Ho. split; [|intros; lia].
  apply elem_of_unique; [apply _..|]. right.
  apply list_elem_of_fmap. by exists o.
- constructor.
Qed.

(** With a duration that is not zero the times of a curve end with the
  largest duration. *)
Lemma unique_times_last (ds : list Qc) :
Exists (λ d, d ≠ 0) ds →
∃ t0 tl tm, Np.unique_Qc (0 :: ds) = t0 :: tl ++ [tm]
            ∧ Forall (λ d, d ≤ tm) ds.
Proof.
intros Hex. set (ut := Np.unique_Qc (0 :: ds)).
assert (StronglySorted Qclt ut) as Hs by (apply unique_sorted; apply _).
assert (∀ x, x ∈ ut ↔ x = 0 ∨ x ∈ ds) as Hut.
{ intros x. unfold ut, Np.unique_Qc. rewrite elem_of_unique by apply _.
  by rewrite elem_of_cons. }
apply Exists_exists in Hex as (d & Hd & Hd0).
assert (d ∈ ut) as Hdu by (apply Hut; by right).
destruct ut as [|t0 tl] eqn:Eut; [by apply elem_of_nil in Hdu|].
destruct tl as [|tm tl _] using rev_ind.
{ exfalso. apply Hd0.
  assert (d = t0) as E1 by (by apply list_elem_of_singleton).
  assert (0 = t0) as E2 by (apply list_elem_of_singleton, Hut; by left).
  by rewrite E1, <-E2. }
exists t0, tl, tm. split; [done|]. apply Forall_forall. intros x Hx.
destruct (StronglySorted_last Qclt (t0 :: tl ++ [tm]) tm x Hs) as [->|Hlt].
- by rewrite app_comm_cons, last_snoc.
- apply Hut. by right.
- apply Qcle_refl.
- by apply Qclt_le_weak.
Qed.

Lemma kaplan_meier_marker_times (obs : list (Qc * Z)) :
Exists (λ o, o.1 ≠ 0) obs →
(censored (kaplan_meier obs)).*1
= (filter (λ o, o.2 = 0%Z) (sort_by_duration obs)).*1.
Proof.
intros Hex. unfold kaplan_meier. cbn [censored].
set (sorted := sort_by_duration obs).
assert (sorted ≡ₚ obs) as Hperm by apply sorted_durations_perm.
destruct (unique_times_last sorted.*1) as (t0 & tl & tm & Eut & Hmax).
{ apply Exists_exists in Hex as (o & Ho & Hd). apply Exists_exists.
  exists o.1. split; [|done]. apply list_elem_of_fmap. exists o.
  split; [done|]. by rewrite Hperm. }
rewrite Eut. cbn [tail]. rewrite imap_app, foldl_app. cbn [imap foldl].
destruct (fold_marks (imap (λ j t, (S j, t)) tl)
            (State sorted (Z.of_nat (length sorted))
               (replicate (length (t0 :: tl ++ [tm])) one) []))
  as (k1 & E1 & M1).
cbn [Curve.rest marks] in E1, M1.
set (st1 := foldl step _ _) in *.
unfold step. cbn [fst snd].
destruct (drain_marks tm (S (length tl + 0)) (Curve.rest st1) (at_risk st1)
            (surv st1) (marks st1)) as (k2 & E2 & _ & M2 & Hh & _).
set (st2 := drain _ _ _ _ _ _) in *.
assert (Curve.rest st2 = []) as Hnil.
{ destruct (Curve.rest st2) as [|o r]; [done|]. exfalso.
  specialize (Hh o eq_refl).
  assert (o.1 ≤ tm) as Hle.
  { rewrite Forall_forall in Hmax. apply Hmax. apply list_elem_of_fmap.
    exists o. split; [done|]. rewrite E1, E2. set_solver. }
  by destruct (Qclt_not_le _ _ Hh). }
rewrite M2, M1. rewrite E1, E2, Hnil, app_nil_r.
by rewrite filter_app, fmap_app.
Qed.

Lemma kaplan_meier_values (obs : list (Qc * Z)) :
Forall (λ x, ∃ q, x = Fin q ∧ 0 ≤ q ∧ q ≤ 1) (survival (kaplan_meier obs)).
Proof.
destruct (kaplan_meier_invariants obs) as (_ & (qs & E & Hpos & Hs) & _ & Hh).
rewrite E in Hh |- *. apply Forall_fmap, Forall_forall. intros q Hq. simpl.
exists q. split; [done|]. rewrite Forall_forall in Hpos.
split; [by apply Hpos|].
destruct qs as [|q0 qs']; [done|]. simpl in Hh.
assert (q0 = 1) as ->.
{ unfold one, of_Z in Hh. rewrite Z2Qc_inj_1 in Hh. congruence. }
apply elem_of_cons in Hq as [->|Hq]; [apply Qcle_refl|].
apply StronglySorted_cons in Hs as [Hall _].
rewrite Forall_forall in Hall. by apply Hall.
Qed.

(** X8.  For every input and every group: the curve has one value per time,
  and every value of the curve and every marker height is a number between
  0 and 1, so no step divides by zero. *)
Theorem survival_curve_probabilities (durations : list Qc)
  (events groups : list Z) :
Forall (λ gc : Z * curve,
          length (survival gc.2) = length (times gc.2)
          ∧ Forall (λ x, ∃ q, x = Fin q ∧ 0 ≤ q ∧ q ≤ 1) (survival gc.2)
          ∧ Forall (λ m : Qc * num, ∃ q, m.2 = Fin q ∧ 0 ≤ q ∧ q ≤ 1)
                   (censored gc.2))
       (generate_survival_plot durations events groups).
Proof.
unfold generate_survival_plot. apply Forall_fmap, Forall_forall.
intros group _. cbn [snd].
set (obs := group_observations durations events groups group).
pose proof (kaplan_meier_values obs) as Hv.
split_and!.
- by destruct (kaplan_meier_invariants obs) as (_ & _ & ? & _).
- done.
- eapply Forall_impl; [apply kaplan_meier_marker_heights|].
  intros m (i & Hi & _). rewrite Forall_forall in Hv. apply Hv.
  by eapply list_elem_of_lookup_2.
Qed.

(** X9.  When some duration of a group is not zero, its markers are, in
  the order of the sorted durations, at the durations of the observations
  whose event indicator is zero, one marker for each; and every marker has
  the height of the curve at the time before the marker's own time (the
  first height when that time is the first time of the curve), so a marker
  that shares its time with an event sits above the drop. *)
Theorem censoring_markers (obs : list (Qc * Z)) :
Exists (λ o, o.1 ≠ 0) obs →
(censored (kaplan_meier obs)).*1
= (filter (λ o, o.2 = 0%Z) (sort_by_duration obs)).*1
∧ Forall (on_previous_step (times (kaplan_meier obs))
            (survival (kaplan_meier obs)))
         (censored (kaplan_meier obs)).
Proof.
intros Hex. split; [by apply kaplan_meier_marker_times|].
apply kaplan_meier_marker_heights.
Qed.

(** X10.  When every duration of a group is zero the loop over the times
  has no pass: the curve is the single point (0, 1) and no marker is drawn,
  whatever the events are. *)
Theorem survival_curve_all_durations_zero (obs : list (Qc * Z)) :
Forall (λ o, o.1 = 0) obs →
kaplan_meier obs = Curve [0] [one] [].
Proof.
intros Hz. unfold kaplan_meier.
assert (sort_by_duration obs ≡ₚ obs) as Hperm by apply sorted_durations_perm.
assert (Np.unique_Qc (0 :: (sort_by_duration obs).*1) = [0]) as ->.
{ apply (sorted_same_elements Qclt).
  - apply unique_sorted; apply _.
  - repeat constructor.
  - intros x. unfold Np.unique_Qc. rewrite elem_of_unique by apply _.
    rewrite elem_of_cons, list_elem_of_singleton. split; [|by left].
    intros [->|(o & -> & Ho)%list_elem_of_fmap]; [done|].
    rewrite Forall_forall in Hz. apply Hz. by rewrite <-Hperm. }
done.
Qed.
End MarkerFacts.

Lemma censoring_markers_witness :
let obs := [(qc 5, 1); (qc 3, 0); (qc 3, 1); (qc 8, 0)] in
Exists (λ o, o.1 ≠ 0%Qc) obs
∧ (Curve.censored (Curve.kaplan_meier obs)).*1 = [qc 3; qc 8]
∧ Forall (Markers.on_previous_step (Curve.times (Curve.kaplan_meier obs))
            (Curve.survival (Curve.kaplan_meier obs)))
         (Curve.censored (Curve.kaplan_meier obs)).
Proof.
assert (Exists (λ o : Qc * Z, o.1 ≠ 0%Qc)
          [(qc 5, 1); (qc 3, 0); (qc 3, 1); (qc 8, 0)]) as H.
{ apply Exists_cons_hd. compute_done. }
split; [exact H|].
destruct (censoring_markers [(qc 5, 1); (qc 3, 0); (qc 3, 1); (qc 8, 0)] H)
  as [H1 H2].
split; [|exact H2]. rewrite H1. compute_done.
Defined.

Lemma survival_curve_all_durations_zero_witness :
let obs := [(qc 0, 1); (qc 0, 0)] in
Forall (λ o, o.1 = 0%Qc) obs
∧ Curve.kaplan_meier obs = Curve.Curve [0%Qc] [one] [].
Proof.
assert (Forall (λ o : Qc * Z, o.1 = 0%Qc) [(qc 0, 1); (qc 0, 0)]) as H.
{ compute_done. }
split; [exact H|].
exact (survival_curve_all_durations_zero [(qc 0, 1); (qc 0, 0)] H).
Defined.

(** ** Sorting and relabelling commute *)

Section SortFmap.
Context {A : Type} (R : relation A) `{!∀ x y, Decision (R x y)}.
Context (f : A → A) (Hf : ∀ x y, R (f x) (f y) ↔ R x y).
Notation lift := (fmap (M := list) (fmap (M := option) (fmap (M := list) f))).

Lemma list_merge_fmap (l1 l2 : list A) :
list_merge R (f <$> l1) (f <$> l2) = f <$> list_merge R l1 l2.
Proof.
revert l2. induction l1 as [|x1 l1 IH1]; intros l2.
{ by rewrite fmap_nil, !list_merge_nil_l. }
induction l2 as [|x2 l2 IH2].
{ by rewrite fmap_nil, !list_merge_nil_r. }
rewrite !fmap_cons, !list_merge_cons.
destruct (decide (R x1 x2)) as [HR|HR],
  (decide (R (f x1) (f x2))) as [HR'|HR'].
- rewrite fmap_cons. f_equal. by rewrite <-IH1.
- destruct HR'. by apply Hf.
- destruct HR. by apply Hf.
- rewrite fmap_cons. f_equal. by rewrite <-IH2.
Qed.

Lemma merge_list_to_stack_fmap (st : list (option (list A))) (l : list A) :
merge_list_to_stack R (lift st) (f <$> l)
= lift (merge_list_to_stack R st l).
Proof.
revert l. induction st as [|[l'|] st IH]; intros l; simpl; [done| |done].
f_equal. by rewrite list_merge_fmap, IH.
Qed.

Lemma merge_stack_fmap (st : list (option (list A))) :
merge_stack R (lift st) = f <$> merge_stack R st.
Proof.
induction st as [|[l'|] st IH]; csimpl; [done| |done].
by rewrite IH, list_merge_fmap.
Qed.

Lemma merge_sort_aux_fmap (st : list (option (list A))) (l : list A) :
merge_sort_aux R (lift st) (f <$> l)
= f <$> merge_sort_aux R st l.
Proof.
revert st. induction l as [|x l IH]; intros st; csimpl.
{ apply merge_stack_fmap. }
change [f x] with (f <$> [x]). by rewrite merge_list_to_stack_fmap, IH.
Qed.

Lemma merge_sort_fmap (l : list A) :
merge_sort R (f <$> l) = f <$> merge_sort R l.
Proof. apply (merge_sort_aux_fmap []). Qed.
End SortFmap.

(** ** What [generate_survival_plot] reads of the event column *)

Section CurveCoding.
Import Curve Coding.
Local Open Scope Qc_scope.

Lemma select_fmap_any {A B} (f : A → B) (l : list A) (mask : list bool) :
Np.select (f <$> l) mask = f <$> Np.select l mask.
Proof.
revert mask. induction l as [|x l IH]; intros [|b mask]; simpl; try done.
destruct b; simpl; by rewrite IH.
Qed.

Lemma zip_truth (ds : list Qc) (es : list Z) :
zip ds (truth <$> es) = truth_obs <$> zip ds es.
Proof.
revert es. induction ds as [|d ds IH]; intros [|e es]; simpl; try done.
f_equal. apply IH.
Qed.

Lemma group_observations_truth (d : list Qc) (e g : list Z) (group : Z) :
group_observations d (truth <$> e) g group
= truth_obs <$> group_observations d e g group.
Proof. unfold group_observations. by rewrite select_fmap_any, zip_truth. Qed.

Lemma drain_truth (t : Qc) (j : nat) (rest : list (Qc * Z)) :
∀ (ar : Z) (sv : list num) (mk : list (Qc * num)),
  drain t j (truth_obs <$> rest) ar sv mk
  = truth_state (drain t j rest ar sv mk).
Proof.
induction rest as [|[d ev] rest IH]; intros ar sv mk; [done|].
rewrite fmap_cons. unfold truth_obs at 1. cbn [fst snd drain].
case_decide as Hd; [|done].
unfold truth. destruct (decide (ev = 0%Z)) as [->|Hev].
- rewrite !decide_False by (intros H; by apply H). apply IH.
- rewrite !decide_True by done. apply IH.
Qed.

Lemma fold_truth (jts : list (nat * Qc)) :
∀ st : state,
  foldl step (truth_state st) jts = truth_state (foldl step st jts).
Proof.
induction jts as [|jt jts IH]; intros st; [done|]. simpl.
rewrite <-IH. f_equal. unfold step. apply drain_truth.
Qed.

Lemma kaplan_meier_truth (obs : list (Qc * Z)) :
kaplan_meier (truth_obs <$> obs) = kaplan_meier obs.
Proof.
unfold kaplan_meier, sort_by_duration.
rewrite (merge_sort_fmap le_duration truth_obs) by done.
rewrite <-list_fmap_compose.
rewrite (list_fmap_ext (fst ∘ truth_obs) fst _ (λ _ _ _, eq_refl)).
rewrite length_fmap.
set (ut := Np.unique_Qc _).
change (State (truth_obs <$> merge_sort le_duration obs)
          (Z.of_nat (length (merge_sort le_duration obs)))
          (replicate (length ut) one) [])
  with (truth_state (State (merge_sort le_duration obs)
          (Z.of_nat (length (merge_sort le_duration obs)))
          (replicate (length ut) one) [])).
by rewrite fold_truth.
Qed.

(** X11.  Of the event column the curves read only which entries are zero:
  two event columns that agree on that give the same curves and markers,
  so an indicator with any value other than 0 drops the curve like an
  event (the log-rank test counts the indicators equal to 1 only). *)
Theorem generate_survival_plot_event_coding (d : list Qc) (e e' g : list Z) :
(λ x, bool_decide (x = 0%Z)) <$> e = (λ x, bool_decide (x = 0%Z)) <$> e' →
generate_survival_plot d e g = generate_survival_plot d e' g.
Proof.
intros H.
assert (truth <$> e = truth <$> e') as Ht.
{ rewrite (list_fmap_ext truth
             ((λ b : bool, if b then 0%Z else 1%Z)
              ∘ (λ x, bool_decide (x = 0%Z))) e)
    by (intros _ x _; unfold truth; simpl; by case_bool_decide; case_decide).
  rewrite (list_fmap_ext truth
             ((λ b : bool, if b then 0%Z else 1%Z)
              ∘ (λ x, bool_decide (x = 0%Z))) e')
    by (intros _ x _; unfold truth; simpl; by case_bool_decide; case_decide).
  by rewrite !list_fmap_compose, H. }
unfold generate_survival_plot. apply list_fmap_ext. intros _ group _.
f_equal.
rewrite <-(kaplan_meier_truth (group_observations d e g group)),
  <-(kaplan_meier_truth (group_observations d e' g group)).
by rewrite <-!group_observations_truth, Ht.
Qed.
End CurveCoding.

Lemma generate_survival_plot_event_coding_witness :
let d := qc <$> [5; 6; 6; 2; 4] in
let g := [0; 0; 1; 1; 1] in
Curve.generate_survival_plot d [1; 2; 1; 0; 1] g
= Curve.generate_survival_plot d [1; 1; 1; 0; 1] g.
Proof.
exact (generate_survival_plot_event_coding (qc <$> [5; 6; 6; 2; 4])
  [1; 2; 1; 0; 1] [1; 1; 1; 0; 1] [0; 0; 1; 1; 1] eq_refl).
Defined.

(** ** A run of [survival], column by column *)

Section Runs.
Import Driver Trace.
Context (linalg_solve : solver) (chi2_sf : survival_fn).
Context (multipletests : list num → list num).

Notation analyze_column := (Driver.analyze_column linalg_solve chi2_sf).
Notation analyze_variables := (Driver.analyze_variables linalg_solve chi2_sf).
Notation analyze_gene := (Driver.analyze_gene linalg_solve chi2_sf).
Notation analyze_genes := (Driver.analyze_genes linalg_solve chi2_sf).
Notation survival := (Driver.survival linalg_solve chi2_sf multipletests).
Notation degenerate := (Driver.degenerate linalg_solve chi2_sf).
Notation logrank := (LogRank.calculate_logrank linalg_solve chi2_sf).
Notation search := (Threshold.find_optimal_threshold linalg_solve chi2_sf).
Notation numerical_outcome := (Trace.numerical_outcome linalg_solve chi2_sf).
Notation categorical_outcome :=
  (Trace.categorical_outcome linalg_solve chi2_sf).

(** *** Cleaning and looking up *)

Lemma clean_lengths {V} (time : list (option Qc)) (event : list (option Z))
  (values : list (option V)) :
length (clean time event values).1.1 = length (clean time event values).1.2
∧ length (clean time event values).1.2 = length (clean time event values).2
∧ (length (clean time event values).1.1 ≤ length time)%nat.
Proof.
revert event values.
induction time as [|t time IH]; intros [|e event] [|v values]; simpl;
  try (split_and!; (done || lia)).
destruct (IH event values) as (H1 & H2 & H3).
destruct (clean time event values) as [[ds es] vs]. simpl in *.
destruct t, e, v; simpl; split_and!; lia.
Qed.

Lemma lookup_column_None {C} (frame : list (string * C)) (name : string) :
lookup_column frame name = None ↔ name ∉ frame.*1.
Proof.
unfold lookup_column. rewrite fmap_None, list_find_None, Forall_forall.
split.
- intros H ([n c] & -> & Hin)%list_elem_of_fmap. by apply (H _ Hin).
- intros H [n c] Hin Heq. apply H. apply list_elem_of_fmap.
  by exists (n, c).
Qed.

Lemma lookup_column_Some {C} (frame : list (string * C)) (name : string)
  (c : C) :
lookup_column frame name = Some c → name ∈ frame.*1.
Proof.
intros H. destruct (decide (name ∈ frame.*1)) as [|Hn]; [done|].
apply lookup_column_None in Hn. congruence.
Qed.

(** *** The search and its calls *)

Lemma foldlM_threshold_step (values d : list Qc) (e : list Z)
  (cs : list num) :
∀ st,
  foldlM (threshold_step linalg_solve chi2_sf values d e) st cs
  = (foldl (Threshold.step linalg_solve chi2_sf values d e) st cs,
     (λ c, CallLogrank d e (Threshold.split_at values c))
       <$> filter (λ c, Threshold.two_groups values c = true) cs).
Proof.
induction cs as [|c cs IH]; intros st; [done|].
cbn [foldlM foldl]. unfold bind at 1. rewrite IH. cbn [fst snd].
unfold threshold_step, Threshold.step, Threshold.two_groups.
case_decide as Hdeg.
- rewrite filter_cons_False; [done|].
  rewrite bool_decide_eq_true. lia.
- rewrite filter_cons_True by (rewrite bool_decide_eq_true; lia).
  unfold bind, Driver.calculate_logrank, tell, ret. cbn [fst snd].
  by destruct (_ <? _)%num.
Qed.

Lemma find_optimal_threshold_run (values d : list Qc) (e : list Z) :
Driver.find_optimal_threshold linalg_solve chi2_sf values d e
= (search values d e, search_calls values d e).
Proof.
unfold Driver.find_optimal_threshold, Threshold.find_optimal_threshold,
  search_calls.
case_decide; [done|]. unfold bind. rewrite foldlM_threshold_step.
cbn [fst snd ret]. by rewrite app_nil_r.
Qed.

Lemma analyze_numerical_run (t : table) (name : string)
  (cells : list (option Qc)) (d v : list Qc) (e : list Z) :
clean (time t) (event t) cells = (d, e, v) →
analyze_numerical linalg_solve chi2_sf t name cells
= numerical_outcome name d v e.
Proof.
intros Hc. unfold analyze_numerical, Trace.numerical_outcome. rewrite Hc.
unfold bind at 1. rewrite find_optimal_threshold_run. cbn [fst snd].
case_decide; [by rewrite app_nil_r|]. done.
Qed.

Lemma analyze_categorical_run (t : table) (name : string)
  (cells : list (option Z)) (d : list Qc) (e g : list Z) :
clean (time t) (event t) cells = (d, e, g) →
analyze_categorical linalg_solve chi2_sf t name cells
= categorical_outcome name d e g.
Proof.
intros Hc. unfold analyze_categorical, Trace.categorical_outcome. rewrite Hc.
by case_decide.
Qed.

(** One pass of the loop over the columns: the column is not found, or it
  is numerical, or it is categorical. *)
Lemma analyze_column_cases (t : table) (name : string) :
(¬ found t name
 ∧ analyze_column t name
   = ([], if decide (name = "GENES") then [] else [Warning name]))
∨ (found t name
   ∧ ∃ cells d v e,
       clean (time t) (event t) cells = (d, e, v)
       ∧ (lookup_column (metadata t) name = Some (Numeric cells)
          ∨ (lookup_column (metadata t) name = None
             ∧ lookup_column (gene_data t) name = Some cells))
       ∧ analyze_column t name = numerical_outcome name d v e
       ∧ (degenerate t name
          ↔ (length (Np.unique_Z (Threshold.split_at v (search v d e))) < 2)%nat))
∨ (found t name
   ∧ ∃ cells d e g,
       clean (time t) (event t) cells = (d, e, g)
       ∧ lookup_column (metadata t) name = Some (Categorical cells)
       ∧ analyze_column t name = categorical_outcome name d e g
       ∧ (degenerate t name ↔ (length (Np.unique_Z g) < 2)%nat)).
Proof.
unfold Driver.analyze_column, Driver.degenerate, found.
destruct (lookup_column (metadata t) name) as [[cells|cells]|] eqn:Hm.
- right; left. split; [left; by eapply lookup_column_Some|].
  destruct (clean (time t) (event t) cells) as [[d e] v] eqn:Hc.
  exists cells, d, v, e.
  split_and!; [done|by left|by apply analyze_numerical_run|].
  unfold degenerate_numerical. rewrite Hc.
  by rewrite find_optimal_threshold_run.
- right; right. split; [left; by eapply lookup_column_Some|].
  destruct (clean (time t) (event t) cells) as [[d e] g] eqn:Hc.
  exists cells, d, e, g.
  split_and!; [done|done|by apply analyze_categorical_run|].
  unfold degenerate_categorical. by rewrite Hc.
- destruct (lookup_column (gene_data t) name) as [cells|] eqn:Hg.
  + right; left. split; [right; by eapply lookup_column_Some|].
    destruct (clean (time t) (event t) cells) as [[d e] v] eqn:Hc.
    exists cells, d, v, e.
    split_and!; [done|by right|by apply analyze_numerical_run|].
    unfold degenerate_numerical. rewrite Hc.
    by rewrite find_optimal_threshold_run.
  + left. apply lookup_column_None in Hm, Hg. split; [by intros [?|?]|].
    by case_decide.
Qed.

(** *** Reading the trace *)

Lemma omap_mjoin {A B} (f : A → option B) (ls : list (list A)) :
omap f (mjoin ls) = mjoin (omap f <$> ls).
Proof.
induction ls as [|l ls IH]; [done|]. csimpl. by rewrite omap_app, IH.
Qed.

Lemma fmap_mjoin {A B} (f : A → B) (ls : list (list A)) :
f <$> mjoin ls = mjoin (fmap f <$> ls).
Proof.
induction ls as [|l ls IH]; [done|]. csimpl. by rewrite fmap_app, IH.
Qed.

Lemma filter_mjoin {A} (P : A → Prop) `{!∀ x, Decision (P x)} (l : list A) :
filter P l = mjoin ((λ x, if decide (P x) then [x] else []) <$> l).
Proof.
induction l as [|x l IH]; [done|]. csimpl. rewrite filter_cons.
case_decide; by rewrite IH.
Qed.

Lemma length_omap_le {A B} (f : A → option B) (l : list A) :
(length (omap f l) ≤ length l)%nat.
Proof.
induction l as [|x l IH]; [done|]. csimpl.
destruct (f x); simpl; lia.
Qed.

Lemma quiet_calls (tr : list effect) :
Forall is_call tr → warnings tr = [] ∧ plots tr = [] ∧ reports tr = [].
Proof.
induction 1 as [|e tr He _ IH]; [done|].
destruct e; first [done|apply IH].
Qed.

Lemma search_calls_are_calls (v d : list Qc) (e : list Z) :
Forall is_call (search_calls v d e).
Proof.
unfold search_calls. case_decide; [constructor|].
apply Forall_fmap, Forall_forall. by intros c _.
Qed.

Lemma calls_search_calls (v d : list Qc) (e : list Z) :
calls (search_calls v d e)
= if decide (length v < 3)%nat then []
  else (λ c, (d, e, Threshold.split_at v c))
         <$> filter (λ c, Threshold.two_groups v c = true)
                    (Threshold.candidates v).
Proof.
unfold search_calls. case_decide; [done|].
generalize (filter (λ c, Threshold.two_groups v c = true)
              (Threshold.candidates v)) as cs.
induction cs as [|c cs IH]; [done|]. csimpl. by rewrite <-IH.
Qed.

Lemma survival_trace (t : table) (cols : list string) :
(survival t cols).2
= (analyze_variables t cols).2
  ++ (if decide ("GENES" ∈ cols) then
        (analyze_genes t).2
        ++ match (analyze_genes t).1 with
           | inl _ => []
           | inr rs => (correct_and_sort multipletests rs).2
           end
      else []).
Proof. apply survival_trace_cases. Qed.

(** What follows the loop over the genes in the trace: nothing, or the
  count of the significant genes. *)
Lemma correct_and_sort_trace (r : error + list gene_result) :
match r with
| inl _ => []
| inr rs => (correct_and_sort multipletests rs).2
end = []
∨ ∃ n, match r with
       | inl _ => []
       | inr rs => (correct_and_sort multipletests rs).2
       end = [Significant n].
Proof.
destruct r as [err|rs]; [by left|].
unfold correct_and_sort. destruct rs; [by left|]. right. by eexists.
Qed.

Lemma genes_trace_quiet (t : table) (cols : list string) :
let tr := if decide ("GENES" ∈ cols) then
            (analyze_genes t).2
            ++ match (analyze_genes t).1 with
               | inl _ => []
               | inr rs => (correct_and_sort multipletests rs).2
               end
          else [] in
warnings tr = [] ∧ plots tr = [] ∧ reports tr = [].
Proof.
intros tr. unfold tr. case_decide; [|done].
pose proof (analyze_genes_is_call linalg_solve chi2_sf t) as Hc.
destruct (quiet_calls _ Hc) as (H1 & H2 & H3).
unfold warnings, plots, reports in *. rewrite !omap_app, H1, H2, H3.
by destruct (correct_and_sort_trace (analyze_genes t).1) as [->|[n ->]].
Qed.

Lemma collect_omap {B} (f : effect → option B) (h : string → list B)
  (t : table) (cols : list string) :
(∀ c, omap f (analyze_column t c).2 = h c) →
omap f (analyze_variables t cols).2 = mjoin (h <$> cols).
Proof.
intros H.
rewrite (proj2 (analyze_variables_collect linalg_solve chi2_sf t cols)).
rewrite omap_mjoin, <-list_fmap_compose. f_equal.
apply list_fmap_ext. intros _ c _. apply H.
Qed.

(** *** One column *)

Lemma analyze_column_warnings (t : table) (name : string) :
warnings (analyze_column t name).2
= if decide (¬ found t name ∧ name ≠ "GENES") then [name] else [].
Proof.
destruct (analyze_column_cases t name)
  as [[Hnf ->]|[(Hf & cells & d & v & e & _ & _ & -> & _)
               |(Hf & cells & d & e & g & _ & _ & -> & _)]].
- cbn [snd]. case_decide as Hg.
  + by rewrite decide_False by (by intros [_ ?]).
  + by rewrite decide_True by done.
- rewrite decide_False by (by intros [? _]).
  unfold Trace.numerical_outcome.
  destruct (quiet_calls _ (search_calls_are_calls v d e)) as (H1 & _ & _).
  case_decide; cbn [snd]; [done|].
  unfold warnings in *. by rewrite omap_app, H1.
- rewrite decide_False by (by intros [? _]).
  unfold Trace.categorical_outcome. by case_decide.
Qed.

Lemma analyze_column_names (t : table) (name : string) :
variable <$> (analyze_column t name).1
= if decide (found t name ∧ ¬ degenerate t name) then [name] else [].
Proof.
destruct (analyze_column_cases t name)
  as [[Hnf ->]|[(Hf & cells & d & v & e & _ & _ & -> & Hdeg)
               |(Hf & cells & d & e & g & _ & _ & -> & Hdeg)]].
- cbn [fst]. by rewrite decide_False by (by intros [? _]).
- unfold Trace.numerical_outcome. case_decide as Hlt; cbn [fst].
  + by rewrite decide_False by (intros [_ Hn]; by apply Hn, Hdeg).
  + rewrite decide_True; [done|]. split; [done|]. by rewrite Hdeg.
- unfold Trace.categorical_outcome. case_decide as Hlt; cbn [fst].
  + by rewrite decide_False by (intros [_ Hn]; by apply Hn, Hdeg).
  + rewrite decide_True; [done|]. split; [done|]. by rewrite Hdeg.
Qed.

Lemma analyze_column_plots (t : table) (name : string) :
plots (analyze_column t name).2 = variable <$> (analyze_column t name).1
∧ reports (analyze_column t name).2
  = (λ r, (variable r, variable_p_value r)) <$> (analyze_column t name).1.
Proof.
destruct (analyze_column_cases t name)
  as [[Hnf ->]|[(Hf & cells & d & v & e & _ & _ & -> & _)
               |(Hf & cells & d & e & g & _ & _ & -> & _)]].
- cbn [fst snd]. by case_decide.
- unfold Trace.numerical_outcome.
  destruct (quiet_calls _ (search_calls_are_calls v d e)) as (_ & H2 & H3).
  case_decide; cbn [fst snd]; [done|].
  unfold plots, reports in *. by rewrite !omap_app, H2, H3.
- unfold Trace.categorical_outcome. by case_decide.
Qed.

Lemma analyze_column_call_count (t : table) (name : string) :
(length (calls (analyze_column t name).2) ≤ 62)%nat.
Proof.
assert (∀ v d e, length (calls (search_calls v d e)) ≤ 61)%nat as Hs.
{ intros v d e. rewrite calls_search_calls. case_decide; [simpl; lia|].
  rewrite length_fmap, <-(length_candidates v). apply length_filter. }
destruct (analyze_column_cases t name)
  as [[Hnf ->]|[(Hf & cells & d & v & e & _ & _ & -> & _)
               |(Hf & cells & d & e & g & _ & _ & -> & _)]].
- cbn [snd]. case_decide; simpl; lia.
- unfold Trace.numerical_outcome. specialize (Hs v d e).
  case_decide; cbn [snd]; [lia|].
  unfold calls in *. rewrite omap_app, length_app. simpl. lia.
- unfold Trace.categorical_outcome. case_decide; simpl; lia.
Qed.
End Runs.

(** ** What a run of [survival] calls, warns about and writes *)

Section DriverRuns.
Import Driver Trace.
Context (linalg_solve : solver) (chi2_sf : survival_fn).
Context (multipletests : list num → list num).

Notation analyze_column := (Driver.analyze_column linalg_solve chi2_sf).
Notation analyze_variables := (Driver.analyze_variables linalg_solve chi2_sf).
Notation analyze_gene := (Driver.analyze_gene linalg_solve chi2_sf).
Notation analyze_genes := (Driver.analyze_genes linalg_solve chi2_sf).
Notation survival := (Driver.survival linalg_solve chi2_sf multipletests).
Notation degenerate := (Driver.degenerate linalg_solve chi2_sf).
Notation logrank := (LogRank.calculate_logrank linalg_solve chi2_sf).
Notation search := (Threshold.find_optimal_threshold linalg_solve chi2_sf).
Notation pv := (Threshold.p_value_at linalg_solve chi2_sf).

Lemma Forall_mjoin {A} (P : A → Prop) (ls : list (list A)) :
Forall (Forall P) ls → Forall P (mjoin ls).
Proof.
induction 1 as [|l ls Hl _ IH]; [constructor|]. csimpl.
apply Forall_app. by split.
Qed.

Lemma aligned_split (t : table) {V} (cells : list (option V))
  (d : list Qc) (e : list Z) (v : list V) (groups : list Z) :
clean (time t) (event t) cells = (d, e, v) →
length groups = length v →
aligned (length (time t)) (d, e, groups).
Proof.
intros Hc Hg. pose proof (clean_lengths (time t) (event t) cells) as H.
rewrite Hc in H. simpl in H. unfold aligned. simpl. lia.
Qed.

Lemma analyze_column_aligned (t : table) (name : string) :
Forall (aligned (length (time t))) (calls (analyze_column t name).2).
Proof.
destruct (analyze_column_cases linalg_solve chi2_sf t name)
  as [[Hnf ->]|[(Hf & cells & d & v & e & Hc & _ & -> & _)
               |(Hf & cells & d & e & g & Hc & _ & -> & _)]].
- cbn [snd]. case_decide; constructor.
- assert (Forall (aligned (length (time t))) (calls (search_calls v d e)))
    as Hs.
  { rewrite calls_search_calls. case_decide; [constructor|].
    apply Forall_fmap, Forall_forall. intros c _. simpl.
    eapply aligned_split; [done|]. unfold Threshold.split_at.
    by rewrite length_fmap. }
  unfold Trace.numerical_outcome. case_decide; cbn [snd]; [done|].
  unfold calls in *. rewrite omap_app. apply Forall_app. split; [done|].
  simpl. constructor; [|constructor].
  eapply aligned_split; [done|]. unfold Threshold.split_at.
  by rewrite length_fmap.
- unfold Trace.categorical_outcome. case_decide; cbn [snd]; [constructor|].
  simpl. constructor; [|constructor]. by eapply aligned_split.
Qed.

(** A call in a trace, read as the property of its three columns. *)
Lemma Forall_calls (P : list Qc * list Z * list Z → Prop) (tr : list effect) :
Forall (λ e, match e with CallLogrank d e g => P (d, e, g) | _ => True end) tr →
Forall P (calls tr).
Proof.
induction 1 as [|e tr He _ IH]; [constructor|].
destruct e; csimpl; try done. by constructor.
Qed.

Lemma analyze_gene_aligned (t : table) (nc : string * list (option Qc)) :
Forall (λ e, match e with
             | CallLogrank d e g => aligned (length (time t)) (d, e, g)
             | _ => True
             end) (analyze_gene t nc.1 nc.2).2.
Proof.
destruct (analyze_gene_cases linalg_solve chi2_sf t nc)
  as [[_ ->]|[[_ ->]|(_ & _ & d & e & v & Hc & ->)]]; [constructor..|].
cbn [snd]. constructor; [|constructor].
eapply aligned_split; [done|]. unfold Threshold.split_at.
by rewrite length_fmap.
Qed.

Lemma scan_genes_length (t : table)
  (genes : list (string * list (option Qc))) :
∀ acc,
  (length (Driver.scan_genes linalg_solve chi2_sf t acc genes).2
   ≤ length genes)%nat.
Proof.
induction genes as [|nc genes IH]; intros acc; [done|].
cbn [Driver.scan_genes]. rewrite bind_trace, length_app.
destruct (analyze_gene_cases linalg_solve chi2_sf t nc)
  as [[_ ->]|[[_ ->]|(_ & _ & d & e & v & _ & ->)]]; cbn [fst snd].
- simpl. lia.
- specialize (IH (acc ++ [])). simpl. lia.
- match goal with |- context [Driver.scan_genes _ _ _ ?a _] =>
    specialize (IH a) end. simpl. lia.
Qed.

(** X12.  Every call of [calculate_logrank] made by a run gets three columns
  of one length, which is at most the number of rows of the table: the
  rows with a missing time, event or value are dropped from all three. *)
Theorem survival_calls_aligned (t : table) (cols : list string) :
Forall (aligned (length (time t))) (calls (survival t cols).2).
Proof.
rewrite survival_trace. unfold calls. rewrite omap_app.
apply Forall_app. split.
- rewrite (proj2 (analyze_variables_collect linalg_solve chi2_sf t cols)).
  rewrite omap_mjoin. apply Forall_mjoin. rewrite <-list_fmap_compose.
  apply Forall_fmap, Forall_forall. intros c _.
  apply analyze_column_aligned.
- case_decide; [|constructor]. rewrite omap_app. apply Forall_app. split.
  + apply Forall_calls. apply scan_genes_trace. intros nc _.
    apply analyze_gene_aligned.
  + destruct (correct_and_sort_trace multipletests (analyze_genes t).1)
      as [->|[n ->]]; constructor.
Qed.

(** X13.  The warnings of a run are, in the order of the request, the
  requested columns that are neither a metadata column nor a gene column
  nor the word GENES; nothing else is warned about. *)
Theorem survival_warnings (t : table) (cols : list string) :
warnings (survival t cols).2
= filter (λ c, ¬ found t c ∧ c ≠ "GENES") cols.
Proof.
rewrite survival_trace. unfold warnings. rewrite omap_app.
pose proof (genes_trace_quiet linalg_solve chi2_sf multipletests t cols)
  as Hq. cbv zeta in Hq. destruct Hq as (H1 & _ & _).
unfold warnings in H1. rewrite H1, app_nil_r.
rewrite (collect_omap linalg_solve chi2_sf _
           (λ c, if decide (¬ found t c ∧ c ≠ "GENES") then [c] else [])).
- symmetry. apply filter_mjoin.
- intros c. apply analyze_column_warnings.
Qed.

(** X14.  The variables written to the results are, in the order of the
  request, the requested columns that are found and not degenerate; the
  plots of the run are exactly the plots of these variables and the
  reported p-values are exactly the p-values written, in the same order. *)
Theorem survival_results_plots_reports (t : table) (cols : list string) :
variable <$> variables (survival t cols).1
= filter (λ c, found t c ∧ ¬ degenerate t c) cols
∧ plots (survival t cols).2 = variable <$> variables (survival t cols).1
∧ reports (survival t cols).2
  = (λ r, (variable r, variable_p_value r))
      <$> variables (survival t cols).1.
Proof.
rewrite survival_variables.
rewrite (proj1 (analyze_variables_collect linalg_solve chi2_sf t cols)).
pose proof (genes_trace_quiet linalg_solve chi2_sf multipletests t cols)
  as Hq. cbv zeta in Hq. destruct Hq as (_ & H2 & H3).
split_and!.
- rewrite fmap_mjoin, <-list_fmap_compose, filter_mjoin. f_equal.
  apply list_fmap_ext. intros _ c _. apply analyze_column_names.
- rewrite survival_trace. unfold plots in *. rewrite omap_app, H2, app_nil_r.
  rewrite (collect_omap linalg_solve chi2_sf _
             (λ c, variable <$> (analyze_column t c).1)).
  + by rewrite fmap_mjoin, <-list_fmap_compose.
  + intros c. apply analyze_column_plots.
- rewrite survival_trace. unfold reports in *.
  rewrite omap_app, H3, app_nil_r.
  rewrite (collect_omap linalg_solve chi2_sf _
             (λ c, (λ r, (variable r, variable_p_value r))
                     <$> (analyze_column t c).1)).
  + by rewrite fmap_mjoin, <-list_fmap_compose.
  + intros c. apply analyze_column_plots.
Qed.

(** X15.  A run makes at most 62 calls of [calculate_logrank] for each
  requested column (61 in the search and one for the result) and at most
  one for each gene. *)
Theorem survival_call_count (t : table) (cols : list string) :
(length (calls (survival t cols).2)
 ≤ 62 * length cols + length (gene_data t))%nat.
Proof.
rewrite survival_trace. unfold calls. rewrite omap_app, length_app.
assert (length (omap (λ e, match e with
                           | CallLogrank d e g => Some (d, e, g)
                           | _ => None
                           end) (analyze_variables t cols).2)
        ≤ 62 * length cols)%nat as Hv.
{ rewrite (proj2 (analyze_variables_collect linalg_solve chi2_sf t cols)).
  induction cols as [|c cols IH]; [simpl; lia|]. csimpl.
  rewrite omap_app, length_app.
  pose proof (analyze_column_call_count linalg_solve chi2_sf t c) as Hc.
  unfold calls in Hc. lia. }
case_decide; [|simpl; lia].
rewrite omap_app, length_app.
pose proof (scan_genes_length t (gene_data t) []) as Hg.
fold (analyze_genes t) in Hg.
pose proof (length_omap_le
  (λ e, match e with CallLogrank d e g => Some (d, e, g) | _ => None end)
  (analyze_genes t).2) as Ho.
destruct (correct_and_sort_trace multipletests (analyze_genes t).1)
  as [->|[n ->]]; simpl; lia.
Qed.

Lemma filter_nil_Forall {A} (P : A → Prop) `{!∀ x, Decision (P x)}
  (l : list A) :
filter P l = [] → Forall (λ x, ¬ P x) l.
Proof.
intros Hnil. apply Forall_forall. intros x Hx HP.
assert (x ∈ filter P l) as Hin by (by apply list_elem_of_filter).
rewrite Hnil in Hin. by apply elem_of_nil in Hin.
Qed.

(** X16.  The two exceptions of the gene scan.  It fails on the median of
  an empty array (IndexError) exactly when GENES is requested and some
  gene has no complete row; it fails on the missing p_value column
  (KeyError) exactly when GENES is requested, every gene has a complete
  row and no gene is kept, that is when the table has no gene column or
  no gene splits into two groups at its median. *)
Theorem gene_scan_errors (t : table) (cols : list string) :
(genes (survival t cols).1 = Some (inl IndexError)
 ↔ "GENES" ∈ cols ∧ Exists (gene_without_row t) (gene_data t))
∧ (genes (survival t cols).1 = Some (inl KeyError)
   ↔ "GENES" ∈ cols ∧ Forall (gene_dropped t) (gene_data t)).
Proof.
rewrite (survival_genes linalg_solve chi2_sf multipletests).
destruct (decide ("GENES" ∈ cols)) as [Hin|Hnin].
2:{ split; (split; [done|by intros [? _]]). }
unfold Driver.analyze_genes.
destruct (scan_genes_cases linalg_solve chi2_sf t (gene_data t) [])
  as [[Hex ->]|(Hall & kept & -> & Hn & _ & _)]; cbn [app].
- split; [done|]. split; [done|]. intros [_ Hd].
  apply Exists_exists in Hex as (nc & Hnc & Hw).
  rewrite Forall_forall in Hd. by destruct (Hd nc Hnc).
- assert (¬ Exists (gene_without_row t) (gene_data t)) as Hno.
  { intros (nc & Hnc & Hw)%Exists_exists.
    rewrite Forall_forall in Hall. by apply (Hall nc Hnc). }
  unfold correct_and_sort. destruct kept as [|r kept]; cbn [fst ret].
  + split; [split; [done|by intros [_ ?]]|]. split; [|done]. intros _.
    split; [done|]. symmetry in Hn. apply fmap_nil_inv in Hn.
    pose proof (filter_nil_Forall _ _ Hn) as Hk.
    apply Forall_forall. intros nc Hnc. rewrite Forall_forall in Hall, Hk.
    split; [by apply Hall|by apply Hk].
  + split; [split; [done|by intros [_ ?]]|]. split; [done|]. intros [_ Hd].
    assert (filter (gene_kept t) (gene_data t) = []) as Hnil.
    { apply filter_none. eapply Forall_impl; [exact Hd|]. by intros nc [_ ?]. }
    rewrite Hnil in Hn. done.
Qed.
End DriverRuns.

(** ** The rows written for the variables *)

Section VariableRows.
Import Driver Trace.
Context (linalg_solve : solver) (chi2_sf : survival_fn).
Context (multipletests : list num → list num).

Notation analyze_column := (Driver.analyze_column linalg_solve chi2_sf).
Notation analyze_variables := (Driver.analyze_variables linalg_solve chi2_sf).
Notation survival := (Driver.survival linalg_solve chi2_sf multipletests).
Notation logrank := (LogRank.calculate_logrank linalg_solve chi2_sf).
Notation search := (Threshold.find_optimal_threshold linalg_solve chi2_sf).
Notation pv := (Threshold.p_value_at linalg_solve chi2_sf).

Lemma ltb_above (x y : num) :
(y <? PInf)%num = false → (x <? PInf)%num = false → (x <? y)%num = false.
Proof. by destruct x, y. Qed.

(** No candidate with two groups has a p-value below the p-value at the
  threshold the search returns. *)
Lemma search_minimum (v d : list Qc) (e : list Z) (c : num) :
(3 ≤ length v)%nat →
Threshold.two_groups v (search v d e) = true →
c ∈ Threshold.candidates v → Threshold.two_groups v c = true →
(pv v d e c <? pv v d e (search v d e))%num = false.
Proof.
intros Hlen Hv Hc Hvc. revert Hv. unfold Threshold.find_optimal_threshold.
rewrite decide_False by lia. rewrite search_scan.
destruct (scan_result_any (Threshold.two_groups v) (pv v d e)
            (Threshold.candidates v) PInf (Stats.median v))
  as [[Hr Hno]|(k & c0 & Hk & Hv0 & Hr & Hlt & Hmin & _)];
  rewrite Hr; cbn [snd]; intros Hv.
- apply ltb_above; [|by apply Hno].
  apply Hno; [|done]. apply elem_of_candidates. exists 50.
  split; [lia|]. apply median_percentile_50.
- apply list_elem_of_lookup in Hc as [j Hj]. by eapply Hmin.
Qed.

(** A split with two groups has the labels 0 and 1. *)
Lemma unique_split_at (v : list Qc) (c : num) :
(2 ≤ length (Np.unique_Z (Threshold.split_at v c)))%nat →
Np.unique_Z (Threshold.split_at v c) = [0; 1].
Proof.
intros Hlen.
pose proof (unique_sorted Z.lt (Threshold.split_at v c)) as Hs.
assert (∀ x, x ∈ Np.unique_Z (Threshold.split_at v c) → x = 0 ∨ x = 1)
  as Hel.
{ intros x Hx. unfold Np.unique_Z in Hx.
  rewrite elem_of_unique in Hx by apply _.
  unfold Threshold.split_at in Hx.
  apply list_elem_of_fmap in Hx as (y & -> & _).
  destruct (_ <? _)%num; auto. }
fold Np.unique_Z in Hs.
destruct (Np.unique_Z (Threshold.split_at v c)) as [|a [|b l]];
  simpl in Hlen; try lia.
apply StronglySorted_cons in Hs as [Ha Hs].
apply StronglySorted_cons in Hs as [Hb _].
apply Forall_cons in Ha as [Hab _].
destruct (Hel a ltac:(left)), (Hel b ltac:(right; left)); subst; try lia.
destruct l as [|x l]; [done|]. apply Forall_cons in Hb as [Hbx _].
destruct (Hel x ltac:(right; right; left)); lia.
Qed.

Lemma elem_of_variables (t : table) (cols : list string)
  (r : variable_result) :
r ∈ variables (survival t cols).1 →
∃ name, name ∈ cols ∧ r ∈ (analyze_column t name).1.
Proof.
rewrite survival_variables,
  (proj1 (analyze_variables_collect linalg_solve chi2_sf t cols)).
intros (l & Hr & Hl)%list_elem_of_join.
apply list_elem_of_fmap in Hl as (name & -> & Hname). by exists name.
Qed.

(** X17.  Every numerical row that is written names a requested column; its
  threshold is the one [find_optimal_threshold] returns on the cleaned
  columns; the split at it has exactly the two groups 0 and 1, in line
  with the 1 written as degrees of freedom; its p-value is the p-value of
  that split; and no candidate of the search with two groups has a smaller
  p-value, so the p-value written is the minimum over the candidates that
  were tried. *)
Theorem numerical_result_minimum (t : table) (cols : list string)
  (r : variable_result) :
r ∈ variables (survival t cols).1 → variable_kind r = Numerical →
variable r ∈ cols
∧ ∃ cells d e v thr,
    (lookup_column (metadata t) (variable r) = Some (Numeric cells)
     ∨ (lookup_column (metadata t) (variable r) = None
        ∧ lookup_column (gene_data t) (variable r) = Some cells))
    ∧ clean (time t) (event t) cells = (d, e, v)
    ∧ variable_threshold r = Some thr
    ∧ thr = search v d e
    ∧ Np.unique_Z (Threshold.split_at v thr) = [0; 1]
    ∧ variable_df r = 1
    ∧ variable_p_value r = pv v d e thr
    ∧ (∀ c, (3 ≤ length v)%nat → c ∈ Threshold.candidates v →
            Threshold.two_groups v c = true →
            (pv v d e c <? variable_p_value r)%num = false).
Proof.
intros (name & Hname & Hr)%elem_of_variables Hkind.
destruct (analyze_column_cases linalg_solve chi2_sf t name)
  as [[_ Hrun]|[(_ & cells & d & v & e & Hc & Hsrc & Hrun & _)
               |(_ & cells & d & e & g & _ & _ & Hrun & _)]];
  rewrite Hrun in Hr.
- by apply elem_of_nil in Hr.
- unfold Trace.numerical_outcome in Hr.
  case_decide as Hlt; cbn [fst] in Hr; [by apply elem_of_nil in Hr|].
  apply list_elem_of_singleton in Hr as ->.
  cbn [variable variable_kind variable_threshold variable_df
       variable_p_value].
  split; [done|]. exists cells, d, e, v, (search v d e).
  split_and!; try done.
  + apply unique_split_at. lia.
  + intros c Hlen Hcand Hvc. apply search_minimum; try done.
    unfold Threshold.two_groups. apply bool_decide_eq_true. lia.
- unfold Trace.categorical_outcome in Hr.
  case_decide; cbn [fst] in Hr; [by apply elem_of_nil in Hr|].
  apply list_elem_of_singleton in Hr as ->. done.
Qed.

(** X18.  Every categorical row that is written names a requested metadata
  column; its degrees of freedom are the number of distinct labels among
  the complete rows minus one, at least 1, as in the test itself; and its
  p-value is the p-value of the test on the cleaned columns. *)
Theorem categorical_result (t : table) (cols : list string)
  (r : variable_result) :
r ∈ variables (survival t cols).1 → variable_kind r = Categorial →
variable r ∈ cols
∧ ∃ cells d e g,
    lookup_column (metadata t) (variable r) = Some (Categorical cells)
    ∧ clean (time t) (event t) cells = (d, e, g)
    ∧ variable_threshold r = None
    ∧ variable_df r = Z.of_nat (length (Np.unique_Z g)) - 1
    ∧ 1 ≤ variable_df r
    ∧ variable_p_value r = (logrank d e g).2.
Proof.
intros (name & Hname & Hr)%elem_of_variables Hkind.
destruct (analyze_column_cases linalg_solve chi2_sf t name)
  as [[_ Hrun]|[(_ & cells & d & v & e & _ & _ & Hrun & _)
               |(_ & cells & d & e & g & Hc & Hsrc & Hrun & _)]];
  rewrite Hrun in Hr.
- by apply elem_of_nil in Hr.
- unfold Trace.numerical_outcome in Hr.
  case_decide; cbn [fst] in Hr; [by apply elem_of_nil in Hr|].
  apply list_elem_of_singleton in Hr as ->. done.
- unfold Trace.categorical_outcome in Hr.
  case_decide as Hlt; cbn [fst] in Hr; [by apply elem_of_nil in Hr|].
  apply list_elem_of_singleton in Hr as ->.
  cbn [variable variable_kind variable_threshold variable_df
       variable_p_value].
  split; [done|]. exists cells, d, e, g. split_and!; try done. lia.
Qed.
End VariableRows.

Lemma numerical_result_minimum_witness :
let run := Driver.survival Lib.linalg_solve Lib.chi2_sf
             MultipleTesting.benjamini_hochberg Driver.example_table
             ["age"] in
∃ r, (r ∈ Driver.variables run.1
      ∧ Driver.variable_kind r = Driver.Numerical)
     ∧ Driver.variable r = "age" ∧ Driver.variable_df r = 1.
Proof.
intros run.
assert (Driver.variable_kind <$> Driver.variables run.1 = [Driver.Numerical])
  as Hkinds by (vm_compute; reflexivity).
destruct (Driver.variables run.1) as [|r rs] eqn:E; [discriminate Hkinds|].
injection Hkinds as Hk _.
assert (r ∈ Driver.variables run.1) as Hin by (rewrite E; left).
exists r. split; [split; [left|exact Hk]|].
destruct (numerical_result_minimum Lib.linalg_solve Lib.chi2_sf
            MultipleTesting.benjamini_hochberg Driver.example_table
            ["age"] r Hin Hk)
  as (Hc & cells & d & e & v & thr & _ & _ & _ & _ & _ & Hdf & _).
split; [|exact Hdf]. apply list_elem_of_singleton in Hc. exact Hc.
Defined.

Lemma categorical_result_witness :
let run := Driver.survival Lib.linalg_solve Lib.chi2_sf
             MultipleTesting.benjamini_hochberg Driver.example_table
             ["stage"] in
∃ r, (r ∈ Driver.variables run.1
      ∧ Driver.variable_kind r = Driver.Categorial)
     ∧ Driver.variable r = "stage" ∧ 1 ≤ Driver.variable_df r.
Proof.
intros run.
assert (Driver.variable_kind <$> Driver.variables run.1 = [Driver.Categorial])
  as Hkinds by (vm_compute; reflexivity).
destruct (Driver.variables run.1) as [|r rs] eqn:E; [discriminate Hkinds|].
injection Hkinds as Hk _.
assert (r ∈ Driver.variables run.1) as Hin by (rewrite E; left).
exists r. split; [split; [left|exact Hk]|].
destruct (categorical_result Lib.linalg_solve Lib.chi2_sf
            MultipleTesting.benjamini_hochberg Driver.example_table
            ["stage"] r Hin Hk)
  as (Hc & cells & d & e & g & _ & _ & _ & _ & Hdf & _).
split; [|exact Hdf]. apply list_elem_of_singleton in Hc. exact Hc.
Defined.

(** ** Edge cases: one group, no event, a constant column *)

Section OneGroup.
Import LogRank LogRankSpec LoopSums.
Variable linalg_solve : solver.
Variable chi2_sf : survival_fn.

Lemma removelast_short {A} (l : list A) : (length l ≤ 1)%nat → removelast l = [].
Proof. destruct l as [|x [|y l]]; simpl; (done || lia). Qed.

(** X19.  With at most one distinct group label nothing is left after the
  last group is dropped: the solver gets the empty system, the statistic
  is 0 whatever the durations and events are, and the p-value is the tail
  probability of 0 (or 1 when the solver fails). *)
Theorem calculate_logrank_one_group (d : list Qc) (e g : list Z) :
length d = length e → length e = length g →
(length (Np.unique_Z g) ≤ 1)%nat →
drop_last_vec (accumulate d e g).1 = []
∧ drop_last_mat (accumulate d e g).2 = []
∧ (calculate_logrank linalg_solve chi2_sf d e g).1 = zero
∧ ((calculate_logrank linalg_solve chi2_sf d e g).2
   = chi2_sf zero (Z.of_nat (length (Np.unique_Z g)) - 1)
   ∨ (calculate_logrank linalg_solve chi2_sf d e g).2 = one).
Proof.
intros Hde Heg Hone.
assert (drop_last_vec (accumulate d e g).1 = []) as H1.
{ rewrite (accumulate_closed d e g Hde Heg). cbn [fst].
  apply removelast_short. rewrite length_fmap.
  by rewrite <-(unique_groups_cohort d e g Hde Heg). }
assert (drop_last_mat (accumulate d e g).2 = []) as H2.
{ rewrite (accumulate_closed d e g Hde Heg). cbn [snd].
  apply removelast_short. rewrite !length_fmap.
  by rewrite <-(unique_groups_cohort d e g Hde Heg). }
split; [done|]. split; [done|].
unfold calculate_logrank, chi2_statistic.
destruct (accumulate d e g) as [O_E V]. cbn [fst snd] in H1, H2.
rewrite H1, H2. destruct (linalg_solve [] []) as [x|]; simpl.
- split; [done|by left].
- split; [done|by right].
Qed.
End OneGroup.

Section NoEvent.
Import Curve.
Local Open Scope Qc_scope.

Lemma read_ones (n i : nat) : (i < n)%nat → read (replicate n one) i = one.
Proof.
intros Hi. unfold read. apply nth_lookup_Some. by apply lookup_replicate_2.
Qed.

Lemma drain_no_event (t : Qc) (j n : nat) (rest : list (Qc * Z)) :
∀ (ar : Z) (mk : list (Qc * num)),
  Forall (λ o, o.2 = 0%Z) rest → (j - 1 < n)%nat →
  Forall (λ m, m.2 = one) mk →
  surv (drain t j rest ar (replicate n one) mk) = replicate n one
  ∧ Forall (λ m, m.2 = one) (marks (drain t j rest ar (replicate n one) mk))
  ∧ Forall (λ o, o.2 = 0%Z) (Curve.rest (drain t j rest ar (replicate n one) mk)).
Proof.
induction rest as [|[d ev] rest IH]; intros ar mk Hev Hj Hmk; simpl; [done|].
apply Forall_cons in Hev as [Hev0 Hev]. simpl in Hev0. subst ev.
case_decide; [|by split_and!; [done|done|constructor]].
rewrite decide_False by (intros Hn; by apply Hn).
apply IH; [done|done|]. apply Forall_app. split; [done|].
constructor; [|constructor]. simpl. by apply read_ones.
Qed.

Lemma fold_no_event (n : nat) (jts : list (nat * Qc)) :
∀ st : state,
  Forall (λ jt, jt.1 - 1 < n)%nat jts →
  Forall (λ o, o.2 = 0%Z) (Curve.rest st) →
  surv st = replicate n one → Forall (λ m, m.2 = one) (marks st) →
  surv (foldl step st jts) = replicate n one
  ∧ Forall (λ m, m.2 = one) (marks (foldl step st jts)).
Proof.
induction jts as [|[j t] jts IH]; intros st Hj Hev Hs Hmk; [done|].
apply Forall_cons in Hj as [Hj0 Hj]. simpl in Hj0. simpl.
unfold step at 2 4. cbn [fst snd]. rewrite Hs.
destruct (drain_no_event t j n (Curve.rest st) (at_risk st) (marks st))
  as (D1 & D2 & D3); [done..|].
by apply IH.
Qed.

(** X20.  When no observation of a group has an event, the curve never
  drops: every survival value is 1, and every marker has the height 1. *)
Theorem survival_curve_no_event (obs : list (Qc * Z)) :
Forall (λ o, o.2 = 0%Z) obs →
survival (kaplan_meier obs)
= replicate (length (times (kaplan_meier obs))) one
∧ Forall (λ m, m.2 = one) (censored (kaplan_meier obs)).
Proof.
intros Hev. unfold kaplan_meier. cbn [times survival censored].
set (sorted := sort_by_duration obs).
set (ut := Np.unique_Qc (0 :: sorted.*1)).
apply fold_no_event; cbn [Curve.rest surv marks]; [| |done|constructor].
- assert (0 ∈ ut) as H0 by (apply elem_of_unique; [apply _..|left]).
  destruct ut as [|t0 tl]; [by apply elem_of_nil in H0|].
  cbn [tail length]. eapply Forall_impl; [apply steps_from_one|].
  intros jt [? ?]. lia.
- unfold sorted. by rewrite sorted_durations_perm.
Qed.
End NoEvent.

Section SplitFacts.
Import Stats Threshold.
Local Open Scope Qc_scope.
Variable linalg_solve : solver.
Variable chi2_sf : survival_fn.

Lemma percentile_value_0 (values : list Qc) :
percentile_value values 0 = at_index (sort values) 0.
Proof.
unfold percentile_value. rewrite Z.mul_0_r.
change (0 / 100)%Z with 0%Z. change (0 mod 100)%Z with 0%Z.
change (Z.to_nat 0) with 0%nat.
assert (Qc_of_Z 0 / Qc_of_Z 100 = 0) as -> by (by apply Qc_is_canon).
ring.
Qed.

Lemma minimum_elem (values : list Qc) :
values ≠ [] → at_index (sort values) 0 ∈ values.
Proof.
intros Hne. assert (sort values ≡ₚ values) as Hp
  by apply merge_sort_Permutation.
destruct (sort values) as [|a l] eqn:E.
{ apply Permutation_nil_l in Hp. by destruct values. }
rewrite <-Hp. unfold at_index. simpl. left.
Qed.

Lemma threshold_between_percentiles (values durations : list Qc)
  (events : list Z) :
values ≠ [] →
Num.leb (percentile values 20)
  (find_optimal_threshold linalg_solve chi2_sf values durations events) = true
∧ Num.leb (find_optimal_threshold linalg_solve chi2_sf values durations events)
    (percentile values 80) = true.
Proof.
intros Hne. destruct (decide (length values < 3)%nat) as [Hlt|Hge].
- rewrite find_optimal_threshold_small by done. by apply median_in_range.
- destruct (find_optimal_threshold_cases linalg_solve chi2_sf values durations
              events ltac:(lia)) as [Hr|(c & Hc & _ & Hr)]; rewrite Hr.
  + by apply median_in_range.
  + by apply candidate_in_range.
Qed.

Lemma threshold_above_minimum (values durations : list Qc)
  (events : list Z) :
values ≠ [] →
(find_optimal_threshold linalg_solve chi2_sf values durations events
   <? Fin (at_index (sort values) 0))%num = false.
Proof.
intros Hne.
destruct (threshold_between_percentiles values durations events Hne)
  as [Hlo _].
rewrite percentile_Fin in Hlo by done.
assert (at_index (sort values) 0 ≤ percentile_value values 20) as Hm.
{ rewrite <-percentile_value_0. apply percentile_value_mono; (done || lia). }
destruct (find_optimal_threshold _ _ _ _ _) as [q| | |]; try done.
apply leb_Fin in Hlo. simpl. apply bool_decide_eq_false.
apply Qcle_not_lt. by etrans.
Qed.

Lemma unique_two (l : list Z) :
0%Z ∈ l → 1%Z ∈ l → (2 ≤ length (Np.unique_Z l))%nat.
Proof.
intros H0 H1. unfold Np.unique_Z.
apply (elem_of_unique Z.lt) in H0, H1; try apply _.
destruct (Np.unique Z.lt l) as [|a [|b k]]; simpl; [|..|lia].
- by apply elem_of_nil in H0.
- apply list_elem_of_singleton in H0, H1. congruence.
Qed.

Lemma unique_constant (l : list Z) (a : Z) :
l ≠ [] → Forall (λ x, x = a) l → Np.unique_Z l = [a].
Proof.
intros Hne Hall. apply (sorted_same_elements Z.lt).
- apply unique_sorted; apply _.
- repeat constructor.
- intros x. unfold Np.unique_Z. rewrite elem_of_unique by apply _.
  rewrite list_elem_of_singleton. rewrite Forall_forall in Hall. split.
  + apply Hall.
  + intros ->. destruct l as [|y l]; [done|].
    rewrite (Hall y ltac:(left)). left.
Qed.

(** X21.  In the split at the threshold that [find_optimal_threshold]
  returns the low group is never empty: the smallest value is not above
  the threshold.  So the split has fewer than two groups exactly when no
  value is above the threshold. *)
Theorem split_low_group (values durations : list Qc) (events : list Z) :
values ≠ [] →
let thr := find_optimal_threshold linalg_solve chi2_sf values durations
             events in
0%Z ∈ split_at values thr
∧ ((length (Np.unique_Z (split_at values thr)) < 2)%nat
   ↔ Forall (λ x, (thr <? Fin x)%num = false) values).
Proof.
intros Hne thr.
assert (0%Z ∈ split_at values thr) as H0.
{ unfold split_at. apply list_elem_of_fmap.
  exists (at_index (sort values) 0). split; [|by apply minimum_elem].
  unfold thr. by rewrite threshold_above_minimum. }
split; [done|]. split.
- intros Hlt. apply Forall_forall. intros x Hx.
  destruct (thr <? Fin x)%num eqn:E; [|done]. exfalso.
  assert (1%Z ∈ split_at values thr) as H1.
  { unfold split_at. apply list_elem_of_fmap. exists x. by rewrite E. }
  pose proof (unique_two _ H0 H1). lia.
- intros Hall. rewrite (unique_constant _ 0%Z); [simpl; lia| |].
  + unfold split_at. by destruct values.
  + unfold split_at. apply Forall_fmap. eapply Forall_impl; [done|].
    intros x Hx. simpl. by rewrite Hx.
Qed.

Lemma at_index_constant (a : list Qc) (c : Qc) (i : nat) :
Forall (λ x, x = c) a → (i < length a)%nat → at_index a i = c.
Proof.
intros Hall Hi. unfold at_index.
destruct (lookup_lt_is_Some_2 a i Hi) as [x Hx].
rewrite (nth_lookup_Some _ _ _ _ Hx).
rewrite Forall_forall in Hall. apply Hall. by eapply list_elem_of_lookup_2.
Qed.

Lemma percentile_constant (values : list Qc) (c : Qc) (q : Z) :
values ≠ [] → Forall (λ x, x = c) values → (0 ≤ q ≤ 100)%Z →
percentile values q = Fin c.
Proof.
intros Hne Hall Hq. rewrite percentile_Fin by done. f_equal.
unfold percentile_value.
assert (Forall (λ x, x = c) (sort values)) as Hs.
{ unfold sort. by rewrite merge_sort_Permutation. }
assert (length (sort values) ≠ 0%nat) as Hn
  by (rewrite sort_length; by destruct values).
set (a := sort values) in *. set (n := length a) in *.
assert (0 ≤ (Z.of_nat n - 1) * q / 100 ≤ Z.of_nat n - 1)%Z as Hlo.
{ split; [apply Z.div_pos; nia|].
  apply Z.div_le_upper_bound; nia. }
rewrite !(at_index_constant a c) by (done || lia).
ring.
Qed.

(** X22.  For a column whose values are all the same the threshold is that
  value, whatever the durations and events are, and so is the median; the
  split at it has the single group 0, so a constant column is never
  analysed. *)
Theorem constant_values_one_group (values durations : list Qc)
  (events : list Z) (c : Qc) :
values ≠ [] → Forall (λ x, x = c) values →
find_optimal_threshold linalg_solve chi2_sf values durations events = Fin c
∧ median values = Fin c
∧ Np.unique_Z (split_at values (Fin c)) = [0%Z].
Proof.
intros Hne Hall.
destruct (threshold_between_percentiles values durations events Hne)
  as [Hlo Hhi].
rewrite (percentile_constant values c) in Hlo, Hhi by (done || lia).
split_and!.
- destruct (find_optimal_threshold _ _ _ _ _) as [q| | |]; try done.
  apply leb_Fin in Hlo, Hhi. f_equal. by apply Qcle_antisym.
- rewrite median_percentile_50. apply percentile_constant; (done || lia).
- apply unique_constant.
  + unfold split_at. by destruct values.
  + unfold split_at. apply Forall_fmap. eapply Forall_impl; [done|].
    intros x ->. simpl. rewrite bool_decide_eq_false_2; [done|].
    apply (irreflexivity Qclt).
Qed.
End SplitFacts.

Lemma calculate_logrank_one_group_witness :
let d := qc <$> [5; 6; 2] in
let e := [1; 0; 1] in
let g := [7; 7; 7] in
(length d = length e ∧ length e = length g
 ∧ (length (Np.unique_Z g) ≤ 1)%nat)
∧ (LogRank.calculate_logrank Lib.linalg_solve Lib.chi2_sf d e g).1 = zero.
Proof.
assert (length (Np.unique_Z [7; 7; 7]%Z) ≤ 1)%nat as Hone
  by (vm_compute; lia).
assert (length (qc <$> [5; 6; 2]) = length [1; 0; 1]) as Hde
  by reflexivity.
assert (length [1; 0; 1] = length [7; 7; 7]) as Heg by reflexivity.
split; [split_and!; [exact Hde|exact Heg|exact Hone]|].
destruct (calculate_logrank_one_group Lib.linalg_solve Lib.chi2_sf
            (qc <$> [5; 6; 2]) [1; 0; 1] [7; 7; 7] Hde Heg Hone)
  as (_ & _ & H & _).
exact H.
Defined.

Lemma survival_curve_no_event_witness :
let obs := [(qc 5, 0); (qc 3, 0)] in
Forall (λ o, o.2 = 0) obs
∧ Curve.survival (Curve.kaplan_meier obs) = [one; one; one].
Proof.
assert (Forall (λ o : Qc * Z, o.2 = 0) [(qc 5, 0); (qc 3, 0)]) as H
  by (repeat constructor).
split; [exact H|].
destruct (survival_curve_no_event [(qc 5, 0); (qc 3, 0)] H) as [H1 _].
rewrite H1. vm_compute. reflexivity.
Defined.

Lemma split_low_group_witness :
let values := qc <$> [1; 2; 3] in
let thr := Threshold.find_optimal_threshold Lib.linalg_solve Lib.chi2_sf
             values (qc <$> [1; 2; 3]) [1; 1; 0] in
values ≠ [] ∧ 0 ∈ Threshold.split_at values thr.
Proof.
assert (qc <$> [1; 2; 3] ≠ []) as H by done.
split; [exact H|].
destruct (split_low_group Lib.linalg_solve Lib.chi2_sf (qc <$> [1; 2; 3])
            (qc <$> [1; 2; 3]) [1; 1; 0] H) as [H0 _].
exact H0.
Defined.

Lemma constant_values_one_group_witness :
let values := qc <$> [4; 4; 4; 4] in
(values ≠ [] ∧ Forall (λ x, x = qc 4) values)
∧ Threshold.find_optimal_threshold Lib.linalg_solve Lib.chi2_sf values
    (qc <$> [1; 2; 3; 4]) [1; 1; 0; 1] = Fin (qc 4).
Proof.
assert (qc <$> [4; 4; 4; 4] ≠ []) as H by done.
assert (Forall (λ x, x = qc 4) (qc <$> [4; 4; 4; 4])) as Hc
  by (repeat constructor).
split; [split; [exact H|exact Hc]|].
destruct (constant_values_one_group Lib.linalg_solve Lib.chi2_sf
            (qc <$> [4; 4; 4; 4]) (qc <$> [1; 2; 3; 4]) [1; 1; 0; 1]
            (qc 4) H Hc) as [H1 _].
exact H1.
Defined.

(** ** Relabelling the groups in an order-preserving way *)

Section Relabel.
Import LogRank LogRankSpec LoopSums.
Variable linalg_solve : solver.
Variable chi2_sf : survival_fn.
Context (f : Z → Z) (Hf : ∀ x y, x < y → f x < f y).

Lemma relabel_inj (x y : Z) : f x = f y ↔ x = y.
Proof.
split; [|by intros ->]. intros Hxy.
destruct (Z.lt_trichotomy x y) as [H|[H|H]]; [|done|].
- apply Hf in H. lia.
- apply Hf in H. lia.
Qed.

Lemma unique_relabel (l : list Z) :
Np.unique_Z (f <$> l) = f <$> Np.unique_Z l.
Proof.
apply (sorted_same_elements Z.lt).
- apply unique_sorted; apply _.
- apply (StronglySorted_fmap f Z.lt Z.lt); [exact Hf|].
  apply unique_sorted; apply _.
- intros y. unfold Np.unique_Z. rewrite elem_of_unique by apply _.
  rewrite !list_elem_of_fmap. setoid_rewrite elem_of_unique; [done|apply _..].
Qed.

Lemma group_mask_relabel (g : list Z) (x : Z) :
group_mask (f <$> g) (f x) = group_mask g x.
Proof.
unfold group_mask. rewrite <-list_fmap_compose.
apply list_fmap_ext. intros _ y _. simpl.
apply bool_decide_ext, relabel_inj.
Qed.

Context (d : list Qc) (e g : list Z).
Context (Hde : length d = length e) (Heg : length e = length g).

Let c := cohort d e g.
Let c' := cohort d e (f <$> g).

Lemma relabel_lengths : length e = length (f <$> g).
Proof. by rewrite length_fmap. Qed.

Lemma at_risk_in_relabel (x : Z) (t : Qc) :
at_risk_in c' (f x) t = at_risk_in c x t.
Proof.
unfold c', c.
rewrite <-(n_group_at_risk_cohort d e (f <$> g) Hde relabel_lengths),
  <-(n_group_at_risk_cohort d e g Hde Heg).
by rewrite group_mask_relabel.
Qed.

Lemma events_in_relabel (x : Z) (t : Qc) :
events_in c' (f x) t = events_in c x t.
Proof.
unfold c', c.
rewrite <-(observed_cohort d e (f <$> g) Hde relabel_lengths),
  <-(observed_cohort d e g Hde Heg).
by rewrite group_mask_relabel.
Qed.

Lemma at_risk_overall_relabel (t : Qc) :
at_risk_overall c' t = at_risk_overall c t.
Proof.
unfold c', c.
by rewrite <-(n_at_risk_cohort d e (f <$> g) Hde relabel_lengths),
  <-(n_at_risk_cohort d e g Hde Heg).
Qed.

Lemma events_overall_relabel (t : Qc) :
events_overall c' t = events_overall c t.
Proof.
unfold c', c.
by rewrite <-(n_events_cohort d e (f <$> g) Hde relabel_lengths),
  <-(n_events_cohort d e g Hde Heg).
Qed.

Lemma accumulate_relabel : accumulate d e (f <$> g) = accumulate d e g.
Proof.
rewrite (accumulate_closed d e (f <$> g) Hde relabel_lengths),
  (accumulate_closed d e g Hde Heg).
rewrite <-(unique_groups_cohort d e (f <$> g) Hde relabel_lengths),
  <-(unique_groups_cohort d e g Hde Heg).
rewrite unique_relabel. fold c c'.
assert (distinct_event_times c' = distinct_event_times c) as Ht.
{ unfold c', c.
  by rewrite <-(event_times_cohort d e (f <$> g) Hde relabel_lengths),
    <-(event_times_cohort d e g Hde Heg). }
f_equal.
- rewrite <-list_fmap_compose. apply list_fmap_ext. intros _ x _. simpl.
  unfold observed_minus_expected. rewrite Ht. apply sum_over_ext.
  intros t _. unfold observed_minus_expected_at.
  by rewrite events_in_relabel, at_risk_in_relabel, events_overall_relabel,
    at_risk_overall_relabel.
- rewrite <-list_fmap_compose. apply list_fmap_ext. intros _ x _. simpl.
  rewrite <-list_fmap_compose. apply list_fmap_ext. intros _ y _. simpl.
  unfold variance. rewrite Ht. apply sum_over_ext. intros t _.
  unfold variance_at, hypergeometric_factor.
  rewrite !at_risk_in_relabel, events_overall_relabel,
    at_risk_overall_relabel.
  destruct (decide (x = y)) as [->|Hne].
  + by rewrite !decide_True by done.
  + rewrite decide_False; [done|]. by rewrite relabel_inj.
Qed.

(** X23.  Renaming the group labels by a strictly increasing map changes
  neither the statistic nor the p-value (the groups keep their order, so
  the same group is dropped and the same system is solved). *)
Theorem calculate_logrank_relabel :
calculate_logrank linalg_solve chi2_sf d e (f <$> g)
= calculate_logrank linalg_solve chi2_sf d e g.
Proof.
unfold calculate_logrank, chi2_statistic.
by rewrite accumulate_relabel, unique_relabel, length_fmap.
Qed.

(** X24.  Under the same renaming the curves and the markers are the same,
  each under its renamed label. *)
Theorem generate_survival_plot_relabel :
Curve.generate_survival_plot d e (f <$> g)
= (λ gc, (f gc.1, gc.2)) <$> Curve.generate_survival_plot d e g.
Proof.
unfold Curve.generate_survival_plot. rewrite unique_relabel.
rewrite <-!list_fmap_compose. apply list_fmap_ext. intros _ x _. simpl.
f_equal. f_equal. unfold Curve.group_observations.
by rewrite group_mask_relabel.
Qed.
End Relabel.

Lemma calculate_logrank_relabel_witness :
let d := qc <$> [5; 6; 6; 2; 4] in
let e := [1; 0; 1; 1; 1] in
let g := [0; 0; 1; 1; 2] in
let f := λ x : Z, 10 * x + 3 in
((∀ x y, x < y → f x < f y) ∧ length d = length e ∧ length e = length g)
∧ LogRank.calculate_logrank Lib.linalg_solve Lib.chi2_sf d e (f <$> g)
  = LogRank.calculate_logrank Lib.linalg_solve Lib.chi2_sf d e g.
Proof.
assert (∀ x y : Z, x < y → 10 * x + 3 < 10 * y + 3) as Hf
  by (intros; lia).
assert (length (qc <$> [5; 6; 6; 2; 4]) = length [1; 0; 1; 1; 1]) as Hde
  by reflexivity.
assert (length [1; 0; 1; 1; 1] = length [0; 0; 1; 1; 2]) as Heg
  by reflexivity.
split; [split_and!; [exact Hf|exact Hde|exact Heg]|].
exact (calculate_logrank_relabel Lib.linalg_solve Lib.chi2_sf
         (λ x, 10 * x + 3) Hf (qc <$> [5; 6; 6; 2; 4]) [1; 0; 1; 1; 1]
         [0; 0; 1; 1; 2] Hde Heg).
Defined.

Lemma generate_survival_plot_relabel_witness :
let d := qc <$> [5; 6; 6; 2; 4] in
let e := [1; 0; 1; 1; 1] in
let g := [0; 0; 1; 1; 2] in
let f := λ x : Z, 10 * x + 3 in
(∀ x y, x < y → f x < f y)
∧ (Curve.generate_survival_plot d e (f <$> g)).*1 = [3; 13; 23].
Proof.
assert (∀ x y : Z, x < y → 10 * x + 3 < 10 * y + 3) as Hf
  by (intros; lia).
split; [exact Hf|].
rewrite (generate_survival_plot_relabel (λ x, 10 * x + 3) Hf
           (qc <$> [5; 6; 6; 2; 4]) [1; 0; 1; 1; 1] [0; 0; 1; 1; 2]).
vm_compute. reflexivity.
Defined.

(** ** The parser: which lines fail, and what is written *)

Section ParserFacts.
Import HccParser.

(** *** Splitting *)

Lemma split_nonempty (sep : Ascii.ascii) (s : string) :
∃ p ps, split sep s = p :: ps.
Proof.
induction s as [|c s (p & ps & IH)]; simpl; [by eexists _, _|].
case_decide; [by eexists _, _|]. rewrite IH. by eexists _, _.
Qed.

Lemma split_lookup_1 (sep : Ascii.ascii) (s : string) :
split sep s !! 1%nat = None ↔ contains sep s = false.
Proof.
induction s as [|c s IH]; simpl; [done|].
destruct (split_nonempty sep s) as (p & ps & Hs).
case_decide as Hc.
- rewrite bool_decide_eq_true_2 by done. rewrite Hs. simpl. done.
- rewrite bool_decide_eq_false_2 by done. rewrite Hs in IH |- *. simpl.
  exact IH.
Qed.

Lemma split1_cases (sep : Ascii.ascii) (s : string) :
(contains sep s = false ∧ split1 sep s = [before sep s])
∨ (contains sep s = true ∧ ∃ rest, split1 sep s = [before sep s; rest]).
Proof.
induction s as [|c s IH]; simpl; [by left|].
case_decide as Hc.
- right. rewrite bool_decide_eq_true_2 by done. split; [done|by eexists].
- rewrite bool_decide_eq_false_2 by done. simpl.
  destruct IH as [[H1 ->]|[H1 [rest ->]]]; [by left|right].
  split; [done|by eexists].
Qed.

Lemma startswith_contains (c : Ascii.ascii) (p s : string) :
startswith s p = true → contains c p = true → contains c s = true.
Proof.
revert s. induction p as [|a p IH]; intros s; simpl; [done|].
destruct s as [|b s]; [done|]. simpl.
intros [Hab Hp]%andb_prop. apply bool_decide_eq_true in Hab as <-.
intros [Ha|Hc]%orb_prop; [by rewrite Ha|].
rewrite (IH s Hp Hc). apply orb_true_r.
Qed.

(** A line that starts a sample always has a piece after its first equals
  sign. *)
Lemma sample_line_id (line : string) :
startswith line "^SAMPLE =" = true →
∃ id, split equals_sign line !! 1%nat = Some id.
Proof.
intros H.
destruct (split equals_sign line !! 1%nat) as [id|] eqn:E; [by eexists|].
apply split_lookup_1 in E.
rewrite (startswith_contains equals_sign "^SAMPLE =" line H) in E; done.
Qed.

(** *** The lines that fail *)

Lemma step_error (st : list (list (string * string)) * list (string * string))
  (line : string) :
(∃ err, step st line = inl err) ↔ malformed line.
Proof.
unfold step, malformed.
destruct (startswith line "^SAMPLE =") eqn:Hs.
{ destruct (sample_line_id line Hs) as [id ->].
  split; [by intros [err ?]|by intros [? _]]. }
destruct (startswith line "!Sample_characteristics_ch1") eqn:Hc.
2:{ split; [by intros [err ?]|by intros (_ & ? & _)]. }
destruct (split1_cases colon line) as [[H1 ->]|[H1 [rest ->]]].
{ split; [intros _; split_and!; [done|done|by left]|by eexists]. }
destruct (split equals_sign (before colon line) !! 1%nat) as [k|] eqn:E.
- assert (contains equals_sign (before colon line) = true) as H2.
  { destruct (contains equals_sign (before colon line)) eqn:E2; [done|].
    apply split_lookup_1 in E2. congruence. }
  split.
  + intros [err Herr]. by case_decide.
  + intros (_ & _ & [?|?]); congruence.
- apply split_lookup_1 in E. split; [|by eexists].
  intros _. split_and!; [done|done|by right].
Qed.

Lemma run_error (lines : list string) :
∀ st, (∃ err, run st lines = inl err) ↔ Exists malformed lines.
Proof.
induction lines as [|line lines IH]; intros st; simpl.
{ split; [by intros [err ?]|by intros ?%Exists_nil]. }
rewrite Exists_cons, <-(step_error st line).
destruct (step st line) as [err|st'].
- split; [intros _; left; by eexists|intros _; by eexists].
- rewrite IH. split; [by right|]. by intros [[err ?]|?].
Qed.

(** X25.  [parse_sra_data] raises exactly when some line of sample
  characteristics has no colon (the unpacking fails) or no equals sign
  before its first colon (the index is out of range); a line that starts a
  sample never raises, and no other line is looked at. *)
Theorem parse_sra_data_error (lines : list string) :
(∃ err, parse_sra_data lines = inl err) ↔ Exists malformed lines.
Proof.
unfold parse_sra_data. rewrite <-(run_error lines ([], [])).
destruct (run ([], []) lines) as [err|st].
- split; intros _; by eexists.
- split; by intros [err ?].
Qed.

(** *** The keys of the samples *)

Lemma accepted_fieldnames (k : string) : k ∈ accepted → k ∈ fieldnames.
Proof. intros H. unfold fieldnames. apply elem_of_cons. by right. Qed.

Lemma dict_set_keys (k v : string) (d : list (string * string)) :
(dict_set k v d).*1 = if decide (k ∈ d.*1) then d.*1 else d.*1 ++ [k].
Proof.
induction d as [|[k' v'] d IH]; [done|].
cbn [dict_set]. destruct (decide (k' = k)) as [->|Hk].
- rewrite !fmap_cons. cbn [fst].
  by rewrite decide_True by (apply elem_of_cons; by left).
- rewrite !fmap_cons, IH. cbn [fst].
  destruct (decide (k ∈ d.*1)) as [Hin|Hnin].
  + by rewrite decide_True by (apply elem_of_cons; by right).
  + rewrite decide_False; [done|]. rewrite elem_of_cons.
    intros [?|?]; [by subst|done].
Qed.

Lemma dict_set_nonempty (k v : string) (d : list (string * string)) :
dict_set k v d ≠ [].
Proof. destruct d as [|[k' v'] d]; simpl; [done|]. by case_decide. Qed.

Lemma dict_set_has_id (k v : string) (d : list (string * string)) :
k ≠ "sample_id" → has_id d → has_id (dict_set k v d).
Proof.
intros Hk (id & rest & ->). simpl. rewrite decide_False by done.
by eexists _, _.
Qed.

Lemma keys_fieldnames (d : list (string * string)) :
Forall (λ kv, kv.1 ∈ fieldnames) d ↔ ∀ k, k ∈ d.*1 → k ∈ fieldnames.
Proof.
rewrite Forall_forall. split.
- intros H k ([k' v'] & -> & Hin)%list_elem_of_fmap. by apply (H _ Hin).
- intros H [k v] Hin. apply H. apply list_elem_of_fmap. by exists (k, v).
Qed.

Lemma dict_set_well_keyed (k v : string) (d : list (string * string)) :
k ∈ fieldnames → NoDup d.*1 → Forall (λ kv, kv.1 ∈ fieldnames) d →
well_keyed (dict_set k v d).
Proof.
intros Hk Hnd Hall. split_and!.
- rewrite dict_set_keys. case_decide; [done|].
  apply NoDup_app. split_and!; [done| |apply NoDup_singleton].
  intros x Hx ->%list_elem_of_singleton. done.
- apply keys_fieldnames. intros k0. rewrite dict_set_keys.
  rewrite keys_fieldnames in Hall.
  case_decide; [by apply Hall|].
  intros [?| ->%list_elem_of_singleton]%elem_of_app; [by apply Hall|done].
- apply dict_set_nonempty.
Qed.

Lemma flush_well_keyed (samples : list (list (string * string)))
  (current : list (string * string)) :
Forall well_keyed samples → (current = [] ∨ well_keyed current) →
Forall well_keyed (flush samples current).
Proof.
intros Hs Hc. unfold flush. case_decide as Hn; [done|].
apply Forall_app. split; [done|]. constructor; [|constructor].
by destruct Hc.
Qed.

Lemma step_well_keyed
  (st st' : list (list (string * string)) * list (string * string))
  (line : string) :
step st line = inr st' →
Forall well_keyed st.1 → (st.2 = [] ∨ well_keyed st.2) →
Forall well_keyed st'.1 ∧ (st'.2 = [] ∨ well_keyed st'.2).
Proof.
unfold step. intros Hstep Hs Hc.
destruct (startswith line "^SAMPLE =").
{ destruct (split equals_sign line !! 1%nat) as [id|]; [|done].
  injection Hstep as <-. simpl. split; [by apply flush_well_keyed|].
  right. split_and!; [apply NoDup_singleton| |done].
  constructor; [|constructor]. simpl. left. }
destruct (startswith line "!Sample_characteristics_ch1");
  [|by injection Hstep as <-].
destruct (split1 colon line) as [|key [|value [|? ?]]]; try done.
destruct (split equals_sign key !! 1%nat) as [k|]; [|done].
case_decide as Hk; injection Hstep as <-; [|done].
simpl. split; [done|]. right.
destruct Hc as [->|(Hnd & Hall & _)].
- apply dict_set_well_keyed; [by apply accepted_fieldnames|constructor..].
- by apply dict_set_well_keyed; [apply accepted_fieldnames|..].
Qed.

Lemma run_well_keyed (lines : list string) :
∀ st st',
  run st lines = inr st' →
  Forall well_keyed st.1 → (st.2 = [] ∨ well_keyed st.2) →
  Forall well_keyed st'.1 ∧ (st'.2 = [] ∨ well_keyed st'.2).
Proof.
induction lines as [|line lines IH]; intros st st' Hrun Hs Hc; simpl in Hrun.
{ by injection Hrun as <-. }
destruct (step st line) as [err|st0] eqn:Hstep; [done|].
destruct (step_well_keyed st st0 line Hstep Hs Hc) as [Hs0 Hc0].
by apply (IH st0 st').
Qed.

Lemma writerows_well_keyed (samples : list (list (string * string))) :
Forall well_keyed samples →
writerows samples
= inr ((λ s, (λ f, default EmptyString (dict_get f s)) <$> fieldnames)
         <$> samples).
Proof.
induction 1 as [|s samples (_ & Hall & _) _ IH]; [done|]. simpl.
unfold writerow. rewrite decide_True by done. by rewrite IH.
Qed.

(** X26.  Whatever the lines are, the samples that [parse_sra_data] returns
  can be written: every sample is a non-empty dict whose keys are among
  the seven field names, so [write_csv] never raises on them and writes
  the header and, for each sample, one row of seven fields, the missing
  ones empty. *)
Theorem parse_then_write (lines : list string)
  (samples : list (list (string * string))) :
parse_sra_data lines = inr samples →
Forall (λ s, s ≠ [] ∧ NoDup s.*1 ∧ Forall (λ kv, kv.1 ∈ fieldnames) s)
       samples
∧ write_csv samples
  = inr (fieldnames
         :: ((λ s, (λ f, default EmptyString (dict_get f s)) <$> fieldnames)
               <$> samples))
∧ Forall (λ row, length row = 7%nat)
         ((λ s, (λ f, default EmptyString (dict_get f s)) <$> fieldnames)
            <$> samples).
Proof.
unfold parse_sra_data. intros Hp.
destruct (run ([], []) lines) as [err|st] eqn:Hrun; [done|].
injection Hp as <-.
destruct (run_well_keyed lines ([], []) st Hrun) as [Hs Hc];
  [constructor|by left|].
pose proof (flush_well_keyed st.1 st.2 Hs Hc) as Hall.
split_and!.
- eapply Forall_impl; [exact Hall|]. by intros s (? & ? & ?).
- unfold write_csv. by rewrite writerows_well_keyed.
- apply Forall_fmap, Forall_forall. by intros s _.
Qed.

(** *** Identifiers and the number of samples *)

Lemma accepted_not_id (k : string) : k ∈ accepted → k ≠ "sample_id".
Proof.
intros H ->. unfold accepted in H.
repeat (apply elem_of_cons in H as [H|H]; [discriminate H|]).
by apply elem_of_nil in H.
Qed.

Lemma step_counted (n : nat)
  (st st' : list (list (string * string)) * list (string * string))
  (line : string) :
step st line = inr st' → counted n st →
counted (if startswith line "^SAMPLE =" then S n else n) st'.
Proof.
unfold step, counted. intros Hstep (Hnil & Hid & Hlen).
destruct (startswith line "^SAMPLE =").
{ destruct (split equals_sign line !! 1%nat) as [id|]; [|done].
  injection Hstep as <-. cbn [fst snd]. split; [done|]. split.
  - unfold flush at 1. rewrite decide_False by done.
    destruct (flush st.1 st.2) as [|s l]; [constructor|]. simpl in *.
    apply Forall_app. split; [done|]. constructor; [|constructor].
    by eexists _, _.
  - unfold flush at 1 3. rewrite !decide_False by done.
    rewrite length_app. simpl. lia. }
destruct (startswith line "!Sample_characteristics_ch1");
  [|by injection Hstep as <-].
destruct (split1 colon line) as [|key [|value [|? ?]]]; try done.
destruct (split equals_sign key !! 1%nat) as [k|]; [|done].
case_decide as Hk; injection Hstep as <-; [|done].
destruct st as [samples current]. cbn [fst snd] in *.
pose proof (dict_set_nonempty (strip k) (strip value) current) as Hne.
split; [done|]. unfold flush in *. rewrite decide_False by done.
destruct (decide (current = [])) as [->|Hcur].
- destruct (Hnil eq_refl) as [-> ->]. simpl. split; [constructor|lia].
- rewrite !length_app in *. simpl in *. split; [|lia].
  destruct samples as [|s l]; [constructor|]. simpl in *.
  apply Forall_app in Hid as [Hl Hc]. apply Forall_app. split; [done|].
  apply Forall_cons in Hc as [Hc _]. constructor; [|constructor].
  apply dict_set_has_id; [by apply accepted_not_id|done].
Qed.

Lemma run_counted (lines : list string) :
∀ n st st',
  run st lines = inr st' → counted n st →
  counted (n + length (filter (λ l, startswith l "^SAMPLE =" = true) lines))
          st'.
Proof.
induction lines as [|line lines IH]; intros n st st' Hrun Hc; simpl in Hrun.
{ injection Hrun as <-. simpl. by rewrite Nat.add_0_r. }
destruct (step st line) as [err|st0] eqn:Hstep; [done|].
pose proof (step_counted n st st0 line Hstep Hc) as Hc0.
rewrite filter_cons. destruct (startswith line "^SAMPLE =") eqn:Hs.
- rewrite decide_True by done. simpl.
  replace (n + S (length (filter (λ l, startswith l "^SAMPLE =" = true) lines)))%nat
    with (S n + length (filter (λ l, startswith l "^SAMPLE =" = true) lines))%nat
    by lia.
  by apply (IH (S n) st0 st').
- rewrite decide_False by done. by apply (IH n st0 st').
Qed.

(** X27.  The number of samples returned is the number of lines that start
  a sample, or one more: the extra one, always the first, is made of the
  characteristics that come before the first such line and has no
  identifier.  Every other sample has [sample_id] as its first key. *)
Theorem parse_sra_data_samples (lines : list string)
  (samples : list (list (string * string))) :
parse_sra_data lines = inr samples →
let n := length (filter (λ l, startswith l "^SAMPLE =" = true) lines) in
Forall has_id (tail samples) ∧ (n ≤ length samples ≤ S n)%nat.
Proof.
intros Hp n. unfold parse_sra_data in Hp.
destruct (run ([], []) lines) as [err|st] eqn:Hrun; [done|].
injection Hp as <-.
destruct (run_counted lines 0 ([], []) st Hrun) as (_ & Hid & Hlen).
{ split; [done|]. split; [apply Forall_nil_2|simpl; lia]. }
by split.
Qed.

(** X28.  Only the lines that start a sample and the lines of sample
  characteristics count: removing every other line changes nothing. *)
Theorem parse_sra_data_relevant (lines : list string) :
parse_sra_data
  (filter (λ l, startswith l "^SAMPLE =" = true
                ∨ startswith l "!Sample_characteristics_ch1" = true) lines)
= parse_sra_data lines.
Proof.
unfold parse_sra_data. generalize (@nil (list (string * string)),
                                    @nil (string * string)) as st.
induction lines as [|line lines IH]; intros st; [done|].
rewrite filter_cons. case_decide as Hr.
- simpl. destruct (step st line) as [err|st0]; [done|]. apply IH.
- assert (step st line = inr st) as Hst.
  { unfold step.
    destruct (startswith line "^SAMPLE ="); [destruct Hr; by left|].
    destruct (startswith line "!Sample_characteristics_ch1");
      [destruct Hr; by right|done]. }
  simpl. rewrite Hst. apply IH.
Qed.
End ParserFacts.

Lemma parse_then_write_witness :
let lines := ["!Sample_characteristics_ch1 = os days: 12";
              "^SAMPLE = GSM1";
              "!Sample_characteristics_ch1 = etiology: HBV";
              "!Sample_title = one";
              "^SAMPLE = GSM2"] in
∃ samples,
  HccParser.parse_sra_data lines = inr samples
  ∧ HccParser.write_csv samples
    = inr [HccParser.fieldnames;
           [EmptyString; EmptyString; EmptyString; EmptyString; EmptyString;
            "12"; EmptyString];
           ["GSM1"; "HBV"; EmptyString; EmptyString; EmptyString;
            EmptyString; EmptyString];
           ["GSM2"; EmptyString; EmptyString; EmptyString; EmptyString;
            EmptyString; EmptyString]].
Proof.
intros lines.
destruct (HccParser.parse_sra_data lines) as [err|samples] eqn:E;
  [vm_compute in E; discriminate E|].
exists samples. split; [reflexivity|].
destruct (parse_then_write lines samples E) as (_ & -> & _).
vm_compute in E. injection E as <-. reflexivity.
Defined.

Lemma parse_sra_data_samples_witness :
let lines := ["!Sample_characteristics_ch1 = os days: 12";
              "^SAMPLE = GSM1";
              "!Sample_characteristics_ch1 = etiology: HBV";
              "^SAMPLE = GSM2"] in
∃ samples,
  HccParser.parse_sra_data lines = inr samples
  ∧ Forall HccParser.has_id (tail samples)
  ∧ length samples = 3%nat.
Proof.
intros lines.
destruct (HccParser.parse_sra_data lines) as [err|samples] eqn:E;
  [vm_compute in E; discriminate E|].
exists samples. split; [reflexivity|].
destruct (parse_sra_data_samples lines samples E) as [H1 _].
split; [exact H1|].
vm_compute in E. injection E as <-. reflexivity.
Defined.

(** ** [calculate_logrank] and the log-rank test of the specification *)

Section SpecTerms.
Import LogRank LogRankSpec LoopSums.
Context (c : list observation).







End SpecTerms.

Section SpecClaim.
Import LogRank LogRankSpec LoopSums.

End SpecClaim.

(** *** A cohort of one event and many censored subjects *)

Section ManyAtRisk.
Import LogRank LogRankSpec LoopSums.





(** One subject with an event at time 1 in group 0 and [n] subjects
  censored at time 1 in group 1, for [n] = 2^21: 2^21 + 1 subjects are at
  risk at the only time of the loop. *)
Context (n : nat) (Hn : Z.of_nat n = 2097152).

Let d : list Qc := replicate (S n) (qc 1).
Let e : list Z := 1 :: replicate n 0.
Let g : list Z := 0 :: replicate n 1.
Let c : list observation := Obs (qc 1) 1 0 :: replicate n (Obs (qc 1) 0 1).








End ManyAtRisk.



(** ** The fallback of [calculate_logrank] and the solver *)

Section Gesv.
Import Lapack.




End Gesv.

Section Fallback.
Import LogRank LogRankSpec LoopSums.
Variable linalg_solve : solver.
Variable chi2_sf : survival_fn.



End Fallback.



(** ** What leaves the result of [calculate_logrank] unchanged *)

Section Invariance.
Import LogRank LogRankSpec LoopSums.
Variable linalg_solve : solver.
Variable chi2_sf : survival_fn.

(** C8, as amended.  The statistic and the p-value are the same after any
  reordering of the observation triples, a reversal for instance, and
  after any relabelling of the groups that keeps the order of the labels
  (so that the same group is the last one, the one whose row and column
  are dropped), for every solver and every chi-square tail function. *)
Theorem calculate_logrank_invariant (f : Z → Z) (d d' : list Qc)
  (e g e' g' : list Z) :
(∀ x y, x < y → f x < f y) →
length d = length e → length e = length g →
length d' = length e' → length e' = length g' →
zip d' (zip e' g') ≡ₚ zip d (zip e (f <$> g)) →
calculate_logrank linalg_solve chi2_sf d' e' g'
= calculate_logrank linalg_solve chi2_sf d e g.
Proof.
intros Hf Hde Heg Hde' Heg' H.
assert (length e = length (f <$> g)) as Hfg by (by rewrite length_fmap).
assert (cohort d' e' g' ≡ₚ cohort d e (f <$> g)) as Hc.
{ rewrite !cohort_zip. by apply fmap_Permutation. }
unfold calculate_logrank, chi2_statistic.
rewrite (accumulate_perm d' d e' g' e (f <$> g)) by done.
rewrite (unique_groups_cohort d' e' g' Hde' Heg'),
  (distinct_groups_perm _ _ Hc),
  <-(unique_groups_cohort d e (f <$> g) Hde Hfg).
by rewrite (accumulate_relabel f Hf d e g Hde Heg), (unique_relabel f Hf),
  length_fmap.
Qed.
End Invariance.

Lemma calculate_logrank_invariant_witness :
let f := λ x, 10 * x + 3 in
let d := qc <$> [5; 6; 6; 2; 4] in
let e := [1; 0; 1; 1; 1] in
let g := [0; 0; 1; 1; 1] in
((∀ x y, x < y → f x < f y)
 ∧ length d = length e ∧ length e = length g
 ∧ zip (reverse d) (zip (reverse e) (reverse (f <$> g)))
   ≡ₚ zip d (zip e (f <$> g)))
∧ LogRank.calculate_logrank Lib.linalg_solve Lib.chi2_sf
    (reverse d) (reverse e) (reverse (f <$> g))
  = LogRank.calculate_logrank Lib.linalg_solve Lib.chi2_sf d e g.
Proof.
intros f d e g.
assert (∀ x y, x < y → f x < f y) as Hf by (unfold f; intros; lia).
assert (zip (reverse d) (zip (reverse e) (reverse (f <$> g)))
        ≡ₚ zip d (zip e (f <$> g))) as H.
{ change (zip (reverse d) (zip (reverse e) (reverse (f <$> g))))
    with (reverse (zip d (zip e (f <$> g)))).
  apply reverse_Permutation. }
split; [split_and!; [exact Hf|reflexivity..|exact H]|].
apply (calculate_logrank_invariant Lib.linalg_solve Lib.chi2_sf f);
  [exact Hf|reflexivity..|exact H].
Defined.

(** C8 as stated fails for a relabelling that changes the last group.  In
  the cohort below nobody of group 3 is at risk at the only time with an
  event, so the reduced V is singular; in binary64 its elimination meets no
  zero pivot and the statistic is 3.  Exchange the labels 0 and 3: the
  group that is never at risk is now the first one, the first column of
  the reduced V is zero, the solver raises and the result is the
  fallback. *)
Lemma calculate_logrank_relabel_changes :
let d := qc <$> [2; 3; 3; 3; 1] in
let e := [1; 0; 0; 0; 0] in
let g := [0; 1; 1; 2; 3] in
let swap := λ x : Z, if decide (x = 0) then 3 else if decide (x = 3) then 0 else x in
swap <$> g = [3; 1; 1; 2; 0]
∧ LogRank.calculate_logrank Lapack.gesv Lib.chi2_sf d e g
  = (Fin (qc 3), Lib.chi2_sf (Fin (qc 3)) 3)
∧ LogRank.calculate_logrank Lapack.gesv Lib.chi2_sf d e (swap <$> g)
  = (of_Z 0, of_Z 1).
Proof. repeat split; compute_done. Qed.
